(** * Flight planner: route graph, constrained searches, reconstruction, report

    A shallow embedding of [src/flight_planner.py] and the properties of its
    searches.  Python dictionaries are finite maps ([gmap]), Python sets are
    finite sets ([gset]), integers are [Z], strings are [string]. *)

From Stdlib Require Import ZArith Lia List Ascii String Sorted.
From stdpp Require Import gmap strings list fin_maps pretty.

#[local] Set Warnings "-clear-no-such-hyp".

Local Open Scope Z_scope.

(** * The program *)

(** ** Flight record model *)

Definition MIN_LAYOVER_MINUTES : Z := 60.

(** [Cabin = Literal["economy", "business", "first"]]: the closed set of tags
    that the signatures of the searches and of [total_price] declare. *)
Inductive Cabin := Economy | Business | First.

Definition cabin_tag (c : Cabin) : string :=
  match c with
  | Economy => "economy"
  | Business => "business"
  | First => "first"
  end.

Record Flight := mkFlight {
  origin : string;
  dest : string;
  flight_number : string;
  depart : Z;
  arrive : Z;
  economy : Z;
  business : Z;
  first : Z
}.

#[global] Instance Flight_eq_dec : EqDecision Flight.
Proof. solve_decision. Defined.

(** [Flight.price_for]: the argument is whatever string the caller passes;
    [None] stands for the raised [ValueError]. *)
Definition price_for (f : Flight) (cabin : string) : option Z :=
  if decide (cabin = "economy") then Some (economy f)
  else if decide (cabin = "business") then Some (business f)
  else if decide (cabin = "first") then Some (first f)
  else None.

(** What [f.price_for(cabin)] returns when [cabin] is a [Cabin], as it is in
    the searches and in [total_price]; [price_for_tag] below links it to
    [price_for]. *)
Definition price (f : Flight) (c : Cabin) : Z :=
  match c with
  | Economy => economy f
  | Business => business f
  | First => first f
  end.

Record Itinerary := mkItinerary { flights : list Flight }.

Definition is_empty (it : Itinerary) : bool :=
  match flights it with [] => true | _ => false end.

Definition it_origin (it : Itinerary) : option string :=
  origin <$> head (flights it).

Definition it_dest (it : Itinerary) : option string :=
  dest <$> last (flights it).

Definition depart_time (it : Itinerary) : option Z :=
  depart <$> head (flights it).

Definition arrive_time (it : Itinerary) : option Z :=
  arrive <$> last (flights it).

Definition total_price (it : Itinerary) (c : Cabin) : Z :=
  foldr (fun f acc => price f c + acc) 0 (flights it).

Definition num_stops (it : Itinerary) : Z :=
  Z.max 0 (Z.of_nat (length (flights it)) - 1).

(** ** Route graph *)

(** [graph.get(airport, [])] *)
Definition graph_get (g : gmap string (list Flight)) (a : string) : list Flight :=
  default [] (g !! a).

(** [graph.setdefault(f.origin, []).append(f)] for every flight, in order. *)
Definition build_graph (fl : list Flight) : gmap string (list Flight) :=
  fold_left (fun g f => <[origin f := graph_get g (origin f) ++ [f]]> g) fl ∅.

(** ** Priority queue

    [heapq] keeps a binary heap in a Python list.  The entries pushed by the
    searches are tuples of integers and strings, which Python orders
    lexicographically; that order is total and two entries that compare equal
    are the same tuple, so [heappop] returns the least entry of the multiset of
    pending entries whatever the array layout.  The queue is therefore kept as
    the list of pending entries: [heappush] adds one, [heappop] takes out the
    least. *)

Section Heap.
Context {A : Type} `{EqDecision A} (lt : A -> A -> bool).

Fixpoint heap_min (m : A) (l : list A) : A :=
  match l with
  | [] => m
  | x :: l' => heap_min (if lt x m then x else m) l'
  end.

Fixpoint remove_first (x : A) (l : list A) : list A :=
  match l with
  | [] => []
  | y :: l' => if decide (x = y) then l' else y :: remove_first x l'
  end.

Definition heappop (pq : list A) : option (A * list A) :=
  match pq with
  | [] => None
  | x :: l => let m := heap_min x l in Some (m, remove_first m pq)
  end.
End Heap.

Definition heappush {A : Type} (pq : list A) (x : A) : list A := x :: pq.

(** ** Itinerary reconstruction

    The [while cur in prev] walk, with the number of loop turns bounded by
    [n]; [None] means that [n] turns were not enough. *)

Fixpoint reconstruct_walk (n : nat) (prev : gmap string Flight) (cur : string)
    (path : list Flight) : option (list Flight) :=
  match prev !! cur with
  | None => Some path
  | Some fl =>
      match n with
      | O => None
      | S n' => reconstruct_walk n' prev (origin fl) (path ++ [fl])
      end
  end.

Definition reconstruct_itinerary (n : nat) (prev : gmap string Flight)
    (dst : string) : option Itinerary :=
  match reconstruct_walk n prev dst [] with
  | Some path => Some (mkItinerary (rev path))
  | None => None
  end.

(** ** The two searches *)

(** What one turn of a [while pq:] loop does. *)
Inductive step_result (K S : Type) :=
| QueueEmpty
| Stale (st : S)
| AtDest (k : K) (a : string) (st : S)
| Expanded (k : K) (a : string) (st : S).
Arguments QueueEmpty {K S}.
Arguments Stale {K S} st.
Arguments AtDest {K S} k a st.
Arguments Expanded {K S} k a st.

(** Result of a search run with bounded loop turns: [NoItinerary] is Python's
    [None], [OutOfFuel] says the bound was reached before the run ended. *)
Inductive outcome := OutOfFuel | NoItinerary | Found (it : Itinerary).

Module Earliest.

Record state := mkState {
  dist : gmap string Z;
  prev : gmap string Flight;
  pq : list (Z * string);
  visited : gset string
}.

(** Python's order on [(time, airport)] tuples. *)
Definition entry_lt (x y : Z * string) : bool :=
  (x.1 <? y.1) || ((x.1 =? y.1) && String.ltb x.2 y.2).

Definition init (start : string) (earliest_departure : Z) : state :=
  mkState {[start := earliest_departure]} ∅ [(earliest_departure, start)] ∅.

(** Body of [for f in graph.get(airport, [])]. *)
Definition relax (start : string) (cur_time : Z) (airport : string)
    (st : state) (f : Flight) : state :=
  let required :=
    if decide (airport = start) then cur_time
    else cur_time + MIN_LAYOVER_MINUTES in
  if bool_decide (required <= depart f) then
    let improves :=
      match dist st !! dest f with
      | None => true
      | Some d => bool_decide (arrive f < d)
      end in
    if improves then
      mkState (<[dest f := arrive f]> (dist st)) (<[dest f := f]> (prev st))
              (heappush (pq st) (arrive f, dest f)) (visited st)
    else st
  else st.

Definition step (g : gmap string (list Flight)) (start dst : string)
    (st : state) : step_result Z state :=
  match heappop entry_lt (pq st) with
  | None => QueueEmpty
  | Some ((cur_time, airport), pq') =>
      if decide (airport ∈ visited st) then
        Stale (mkState (dist st) (prev st) pq' (visited st))
      else
        let st1 := mkState (dist st) (prev st) pq' ({[airport]} ∪ visited st) in
        if decide (airport = dst) then AtDest cur_time airport st1
        else Expanded cur_time airport
               (fold_left (relax start cur_time airport) (graph_get g airport) st1)
  end.

Fixpoint loop (n m : nat) (g : gmap string (list Flight)) (start dst : string)
    (st : state) : outcome :=
  match n with
  | O => OutOfFuel
  | S n' =>
      match step g start dst st with
      | QueueEmpty => NoItinerary
      | Stale st' => loop n' m g start dst st'
      | AtDest _ _ st' =>
          match reconstruct_itinerary m (prev st') dst with
          | Some it => Found it
          | None => OutOfFuel
          end
      | Expanded _ _ st' => loop n' m g start dst st'
      end
  end.

(** The results of the first [n] loop turns, in order. *)
Fixpoint steps (n : nat) (g : gmap string (list Flight)) (start dst : string)
    (st : state) : list (step_result Z state) :=
  match n with
  | O => []
  | S n' =>
      let r := step g start dst st in
      r :: match r with
           | Stale st' | Expanded _ _ st' => steps n' g start dst st'
           | _ => []
           end
  end.

End Earliest.

(** [find_earliest_itinerary], run for at most [n] turns of its loop and [n]
    turns of the reconstruction walk. *)
Definition find_earliest_itinerary (n : nat) (graph : gmap string (list Flight))
    (start dst : string) (earliest_departure : Z) : outcome :=
  Earliest.loop n n graph start dst (Earliest.init start earliest_departure).

Module Cheapest.

Record state := mkState {
  dist : gmap string Z;
  prev : gmap string Flight;
  pq : list (Z * Z * string);
  visited : gset (string * Z)
}.

(** Python's order on [(cost, arr_time, airport)] tuples. *)
Definition entry_lt (x y : Z * Z * string) : bool :=
  (x.1.1 <? y.1.1)
  || ((x.1.1 =? y.1.1)
      && ((x.1.2 <? y.1.2) || ((x.1.2 =? y.1.2) && String.ltb x.2 y.2))).

Definition init (start : string) (earliest_departure : Z) : state :=
  mkState {[start := 0]} ∅ [(0, earliest_departure, start)] ∅.

Definition relax (start : string) (cabin : Cabin) (cost arr_time : Z)
    (airport : string) (st : state) (f : Flight) : state :=
  let earliest_allowed :=
    if decide (airport = start) then arr_time
    else arr_time + MIN_LAYOVER_MINUTES in
  if bool_decide (earliest_allowed <= depart f) then
    let new_cost := cost + price f cabin in
    let improves :=
      match dist st !! dest f with
      | None => true
      | Some d => bool_decide (new_cost < d)
      end in
    if improves then
      mkState (<[dest f := new_cost]> (dist st)) (<[dest f := f]> (prev st))
              (heappush (pq st) (new_cost, arrive f, dest f)) (visited st)
    else st
  else st.

Definition step (g : gmap string (list Flight)) (start dst : string)
    (cabin : Cabin) (st : state) : step_result (Z * Z) state :=
  match heappop entry_lt (pq st) with
  | None => QueueEmpty
  | Some ((cost, arr_time, airport), pq') =>
      if decide ((airport, cost) ∈ visited st) then
        Stale (mkState (dist st) (prev st) pq' (visited st))
      else
        let st1 :=
          mkState (dist st) (prev st) pq' ({[(airport, cost)]} ∪ visited st) in
        if decide (airport = dst) then AtDest (cost, arr_time) airport st1
        else Expanded (cost, arr_time) airport
               (fold_left (relax start cabin cost arr_time airport)
                          (graph_get g airport) st1)
  end.

Fixpoint loop (n m : nat) (g : gmap string (list Flight)) (start dst : string)
    (cabin : Cabin) (st : state) : outcome :=
  match n with
  | O => OutOfFuel
  | S n' =>
      match step g start dst cabin st with
      | QueueEmpty => NoItinerary
      | Stale st' => loop n' m g start dst cabin st'
      | AtDest _ _ st' =>
          match reconstruct_itinerary m (prev st') dst with
          | Some it => Found it
          | None => OutOfFuel
          end
      | Expanded _ _ st' => loop n' m g start dst cabin st'
      end
  end.

Fixpoint steps (n : nat) (g : gmap string (list Flight)) (start dst : string)
    (cabin : Cabin) (st : state) : list (step_result (Z * Z) state) :=
  match n with
  | O => []
  | S n' =>
      let r := step g start dst cabin st in
      r :: match r with
           | Stale st' | Expanded _ _ st' => steps n' g start dst cabin st'
           | _ => []
           end
  end.

End Cheapest.

Definition find_cheapest_itinerary (n : nat) (graph : gmap string (list Flight))
    (start dst : string) (earliest_departure : Z) (cabin : Cabin) : outcome :=
  Cheapest.loop n n graph start dst cabin (Cheapest.init start earliest_departure).

(** ** Comparison reporter *)

(** [f"{z:02d}"]: zero padding to two columns, of which a sign takes one. *)
Definition fmt_02d (z : Z) : string :=
  if bool_decide (z < 0) then pretty z
  else if bool_decide (z < 10) then "0" +:+ pretty z
  else pretty z.

Definition format_time (minutes : Z) : string :=
  let h := minutes `div` 60 in
  let m := minutes `mod` 60 in
  fmt_02d h +:+ ":" +:+ fmt_02d m.

Record ComparisonRow := mkRow {
  mode : string;
  cabin : option Cabin;
  itinerary : option Itinerary;
  note : string
}.

Definition NA : string := "N/A".

(** [r.cabin or 'N/A'] *)
Definition cabin_or_NA (c : option Cabin) : string :=
  match c with Some c => cabin_tag c | None => NA end.

Definition sep : string := " | ".

(** One turn of [for r in rows]: the line appended for the row, or [None]
    when the turn raises ([format_time] applied to the [None] that
    [depart_time] returns for an itinerary without flights is a
    [TypeError]). *)
Definition format_row (r : ComparisonRow) : option string :=
  match itinerary r with
  | None =>
      Some (mode r +:+ sep +:+ cabin_or_NA (cabin r) +:+ sep +:+ NA +:+ sep
            +:+ NA +:+ sep +:+ NA +:+ sep +:+ NA +:+ sep +:+ NA +:+ sep
            +:+ note r)
  | Some it =>
      match depart_time it, arrive_time it with
      | Some d, Some a =>
          let dep := format_time d in
          let arr := format_time a in
          let dur := a - d in
          let dh := dur `div` 60 in
          let dm := dur `mod` 60 in
          let duration := pretty dh +:+ "h" +:+ fmt_02d dm +:+ "m" in
          let stops := num_stops it in
          let price :=
            match cabin r with
            | Some c => pretty (total_price it c)
            | None => NA
            end in
          Some (mode r +:+ sep +:+ cabin_or_NA (cabin r) +:+ sep +:+ dep +:+ sep
                +:+ arr +:+ sep +:+ duration +:+ sep +:+ pretty stops +:+ sep
                +:+ price +:+ sep +:+ note r)
      | _, _ => None
      end
  end.

Definition newline : string := String "010"%char "".

Definition header : string :=
  "Mode | Cabin | Dep | Arr | Duration | Stops | Total Price | Note".

Fixpoint string_repeat (s : string) (n : nat) : string :=
  match n with
  | O => ""
  | S n' => s +:+ string_repeat s n'
  end.

Definition format_comparison_table (origin_ dest_ : string)
    (earliest_departure : Z) (rows : list ComparisonRow) : option string :=
  match mapM format_row rows with
  | Some lines =>
      Some (String.concat newline
              ([origin_ +:+ " -> " +:+ dest_; header;
                string_repeat "-" (String.length header)] ++ lines))
  | None => None
  end.

(** The rows [run_compare] builds from the four search results; an
    [Itinerary] object is always truthy, so the note is empty for every
    present itinerary. *)
Definition note_of (it : option Itinerary) : string :=
  match it with Some _ => "" | None => "(no valid itinerary)" end.

Definition comparison_rows (it1 it2 it3 it4 : option Itinerary)
    : list ComparisonRow :=
  [mkRow "Earliest arrival" None it1 (note_of it1);
   mkRow "Cheapest | economy" (Some Economy) it2 (note_of it2);
   mkRow "Cheapest | business" (Some Business) it3 (note_of it3);
   mkRow "Cheapest | first" (Some First) it4 (note_of it4)].

(** ** Schedule loaders

    The loaders are modelled on the text they read: the lines of the file for
    the whitespace-delimited format, the header and the records that
    [csv.DictReader] yields for the CSV format.  A string is the sequence of
    the code points of a text, each below 256, and the builtins the loaders
    call are modelled on such texts. *)

(** How a load ends when it returns no list of flights: with an exception (a
    [ValueError] carries its message, [str(e)]), or, for [NoneField], with no
    exception and a list that holds an object whose [origin], [dest] or
    [flight_number] is [None], which is no flight of the data model. *)
Inductive exn := ValueError (msg : string) | TypeError | AttributeError | NoneField.

(** [str.isspace]: the code points 9-13, 28-32, 133 and 160. *)
Definition is_space (c : ascii) : bool :=
  let n := nat_of_ascii c in
  ((9 <=? n) && (n <=? 13) || (28 <=? n) && (n <=? 32)
   || (n =? 133) || (n =? 160))%nat.

Fixpoint lstrip (s : string) : string :=
  match s with
  | String c s' => if is_space c then lstrip s' else s
  | EmptyString => EmptyString
  end.

(** [s.strip()] *)
Definition strip (s : string) : string :=
  String.rev (lstrip (String.rev (lstrip s))).

Fixpoint split_ws_go (cur : string) (s : string) : list string :=
  match s with
  | EmptyString =>
      match cur with EmptyString => [] | _ => [String.rev cur] end
  | String c s' =>
      if is_space c then
        match cur with
        | EmptyString => split_ws_go "" s'
        | _ => String.rev cur :: split_ws_go "" s'
        end
      else split_ws_go (String c cur) s'
  end.

(** [s.split()] *)
Definition split_ws (s : string) : list string := split_ws_go "" s.

Fixpoint split_on_go (c0 : ascii) (cur : string) (s : string) : list string :=
  match s with
  | EmptyString => [String.rev cur]
  | String c s' =>
      if decide (c = c0) then String.rev cur :: split_on_go c0 "" s'
      else split_on_go c0 (String c cur) s'
  end.

(** [s.split(":")] *)
Definition split_colon (s : string) : list string := split_on_go ":"%char "" s.

Definition digit_of (c : ascii) : option Z :=
  let n := nat_of_ascii c in
  if ((48 <=? n) && (n <=? 57))%nat then Some (Z.of_nat n - 48) else None.

(** Decimal digits, single underscores allowed between two digits. *)
Fixpoint int_digits (s : string) (acc : Z) (after_digit : bool) : option Z :=
  match s with
  | EmptyString => if after_digit then Some acc else None
  | String c s' =>
      match digit_of c with
      | Some d => int_digits s' (10 * acc + d) true
      | None =>
          if decide (c = "_"%char) then
            if after_digit then int_digits s' acc false else None
          else None
      end
  end.

(** The characters [int] skips around a literal: the code points 9-13, 32,
    133 and 160, and not 28-31, which [str.isspace] accepts. *)
Definition is_int_space (c : ascii) : bool :=
  let n := nat_of_ascii c in
  ((9 <=? n) && (n <=? 13) || (n =? 32) || (n =? 133) || (n =? 160))%nat.

Fixpoint int_lstrip (s : string) : string :=
  match s with
  | String c s' => if is_int_space c then int_lstrip s' else s
  | EmptyString => EmptyString
  end.

Definition int_strip (s : string) : string :=
  String.rev (int_lstrip (String.rev (int_lstrip s))).

(** The default of [sys.get_int_max_str_digits()]: [int] refuses a literal
    with more digits, underscores and sign not counted. *)
Definition max_str_digits : Z := 4300.

Fixpoint count_digits (s : string) : Z :=
  match s with
  | EmptyString => 0
  | String c s' =>
      (match digit_of c with Some _ => 1 | None => 0 end) + count_digits s'
  end.

Definition int_literal (s : string) : option Z :=
  if bool_decide (max_str_digits < count_digits s) then None
  else int_digits s 0 false.

(** [int(s)] for a string; [None] when it raises [ValueError]. *)
Definition py_int (s : string) : option Z :=
  match int_strip s with
  | String "-"%char s' => Z.opp <$> int_literal s'
  | String "+"%char s' => int_literal s'
  | s' => int_literal s'
  end.

Section Loaders.
(** The texts of the messages that Python puts in the [ValueError] of a failed
    [int(s)] and of a failed unpacking of [n] values into two names. *)
Variable int_msg : string -> string.
Variable unpack_msg : nat -> string.

(** In the functions below [inl msg] stands for a raised [ValueError] with
    message [msg]; they raise nothing else on strings. *)
Definition int_or_raise (s : string) : string + Z :=
  match py_int s with
  | Some z => inr z
  | None => inl (int_msg s)
  end.

Definition parse_time (hhmm : string) : string + Z :=
  match split_colon hhmm with
  | [h; m] =>
      match int_or_raise h with
      | inl e => inl e
      | inr h =>
          match int_or_raise m with
          | inl e => inl e
          | inr m =>
              if bool_decide (0 <= h < 24 /\ 0 <= m < 60) then inr (h * 60 + m)
              else inl ""
          end
      end
  | parts => inl (unpack_msg (length parts))
  end.

(** The checks shared by both loaders once the eight fields are at hand. *)
Definition make_flight (origin_ dest_ num de ar e b f : string)
    : string + Flight :=
  match parse_time de with
  | inl x => inl x
  | inr depart_ =>
      match parse_time ar with
      | inl x => inl x
      | inr arrive_ =>
          if bool_decide (arrive_ <= depart_) then inl ""
          else
            match int_or_raise e with
            | inl x => inl x
            | inr e =>
                match int_or_raise b with
                | inl x => inl x
                | inr b =>
                    match int_or_raise f with
                    | inl x => inl x
                    | inr f =>
                        inr (mkFlight origin_ dest_ num depart_ arrive_ e b f)
                    end
                end
            end
      end
  end.

Definition parse_flight_line_txt (line : string) : string + option Flight :=
  let line := strip line in
  match line with
  | EmptyString => inr None
  | String "#"%char _ => inr None
  | _ =>
      match split_ws line with
      | [origin_; dest_; num; de; ar; e; b; f] =>
          match make_flight origin_ dest_ num de ar e b f with
          | inl x => inl x
          | inr fl => inr (Some fl)
          end
      | _ => inl ""
      end
  end.

(** The loop of [load_flights_txt] from line number [i] on. *)
Fixpoint load_txt_from (path : string) (i : nat) (lines : list string)
    (flights_ : list Flight) : exn + list Flight :=
  match lines with
  | [] => inr flights_
  | line :: rest =>
      match parse_flight_line_txt line with
      | inl msg =>
          inl (ValueError (path +:+ ":" +:+ pretty i +:+ ": " +:+ msg))
      | inr None => load_txt_from path (S i) rest flights_
      | inr (Some f) => load_txt_from path (S i) rest (flights_ ++ [f])
      end
  end.

Definition load_flights_txt (path : string) (lines : list string)
    : exn + list Flight :=
  load_txt_from path 1 lines [].

Definition req : list string :=
  ["origin"; "dest"; "flight_number"; "depart"; "arrive"; "economy";
   "business"; "first"].

(** A record of the reader gives the value of each column of the header:
    its text, or [None] where the record is shorter than the header and the
    reader filled in [None]. *)

(** [parse_time(row[k])]: [None.split] is an [AttributeError]. *)
Definition csv_time (v : option string) : exn + Z :=
  match v with
  | None => inl AttributeError
  | Some s =>
      match parse_time s with
      | inl msg => inl (ValueError msg)
      | inr t => inr t
      end
  end.

(** [int(row[k])]: [int(None)] is a [TypeError]. *)
Definition csv_int (v : option string) : exn + Z :=
  match v with
  | None => inl TypeError
  | Some s =>
      match int_or_raise s with
      | inl msg => inl (ValueError msg)
      | inr z => inr z
      end
  end.

(** The body of [for row in reader], up to the flight it appends.  The
    constructor [Flight] checks nothing: a [None] in one of its three string
    columns raises nothing and gives an object that is no flight of the data
    model ([NoneField]). *)
Definition csv_flight (row : string -> option string) : exn + Flight :=
  match csv_time (row "depart") with
  | inl x => inl x
  | inr dep =>
      match csv_time (row "arrive") with
      | inl x => inl x
      | inr arr =>
          if bool_decide (arr <= dep) then inl (ValueError "")
          else
            match csv_int (row "economy") with
            | inl x => inl x
            | inr e =>
                match csv_int (row "business") with
                | inl x => inl x
                | inr b =>
                    match csv_int (row "first") with
                    | inl x => inl x
                    | inr f =>
                        match row "origin", row "dest", row "flight_number" with
                        | Some origin_, Some dest_, Some num =>
                            inr (mkFlight origin_ dest_ num dep arr e b f)
                        | _, _, _ => inl NoneField
                        end
                    end
                end
            end
      end
  end.

(** The loop over the records of the reader.  After a record that left a
    [None] in a flight the loop goes on: a later record can still raise, and
    otherwise the list that comes back holds that object. *)
Fixpoint load_csv_rows (rows : list (string -> option string))
    (flights_ : list Flight) : exn + list Flight :=
  match rows with
  | [] => inr flights_
  | row :: rest =>
      match csv_flight row with
      | inr f => load_csv_rows rest (flights_ ++ [f])
      | inl NoneField =>
          match load_csv_rows rest flights_ with
          | inl e => inl e
          | inr _ => inl NoneField
          end
      | inl e => inl e
      end
  end.

(** [fieldnames] is [None] for an empty file, and [r not in None] is a
    [TypeError]. *)
Definition load_flights_csv (fieldnames : option (list string))
    (rows : list (string -> option string)) : exn + list Flight :=
  match fieldnames with
  | None => inl TypeError
  | Some names =>
      if forallb (fun r => bool_decide (r ∈ names)) req then
        load_csv_rows rows []
      else inl (ValueError "")
  end.

End Loaders.

(** A CSV record that has all eight columns. *)
Definition csv_row (origin_ dest_ num de ar e b f : string) (k : string)
    : option string :=
  if decide (k = "origin") then Some origin_
  else if decide (k = "dest") then Some dest_
  else if decide (k = "flight_number") then Some num
  else if decide (k = "depart") then Some de
  else if decide (k = "arrive") then Some ar
  else if decide (k = "economy") then Some e
  else if decide (k = "business") then Some b
  else if decide (k = "first") then Some f
  else None.


(** Lines and records of a small schedule whose second flight lands before it
    leaves. *)
Definition line_ok : string := "A B F1 08:00 09:00 100 200 300".
Definition line_bad : string := "B C F2 10:00 09:30 50 60 70".
Definition row_ok : string -> option string :=
  csv_row "A" "B" "F1" "08:00" "09:00" "100" "200" "300".
Definition row_bad : string -> option string :=
  csv_row "B" "C" "F2" "10:00" "09:30" "50" "60" "70".

(** [format_time] on one minute of the day gives five characters that
    [parse_time] reads back. *)
Definition clock_ok (m : Z) : bool :=
  match parse_time (fun _ => "") (fun _ => "") (format_time m) with
  | inr z => (z =? m) && (String.length (format_time m) =? 5)%nat
  | inl _ => false
  end.

(** ** The compare command

    [run_compare] on the four strings of the parsed command line.
    [load_flights] stands for the loader applied to the files at hand: it
    returns the flights of the file at a path or the exception of the loader
    it picks by the suffix of the path. [print] is modelled by the text it is
    given.  The run on a list that holds an object with a [None] field
    ([NoneField]) is not modelled: it ends as [RunNotFlights]. *)

Inductive run :=
  RunOutOfFuel | Raises (e : exn) | Printed (out : string) | RunNotFlights.


Section Compare.

Variable int_msg : string -> string.
Variable unpack_msg : nat -> string.
Variable load_flights : string -> exn + list Flight.


End Compare.

(** * Specification vocabulary *)

(** ** Feasible itineraries

    The itinerary invariant of the data model, written leg by leg: every leg is
    a flight of the schedule, the first leg leaves [start] no earlier than the
    requested time, consecutive legs connect and leave a layover of at least
    [MIN_LAYOVER_MINUTES], and the last leg ends at [dst]. *)

Record feasible (sched : list Flight) (start dst : string) (t0 : Z)
    (p : list Flight) : Prop := mkFeasible {
  feas_sched : forall f, f ∈ p -> f ∈ sched;
  feas_first : forall f, head p = Some f -> origin f = start /\ t0 <= depart f;
  feas_conn : forall (i : nat) f f', p !! i = Some f -> p !! S i = Some f' ->
      dest f = origin f' /\ arrive f + MIN_LAYOVER_MINUTES <= depart f';
  feas_last : exists f, last p = Some f /\ dest f = dst
}.

(** The same, by recursion on the legs: [legs_ok sched a thr p] says that [p]
    can be flown from airport [a] when no leg may leave before [thr]. *)
Fixpoint legs_ok (sched : list Flight) (a : string) (thr : Z)
    (p : list Flight) : Prop :=
  match p with
  | [] => True
  | f :: p' =>
      f ∈ sched /\ origin f = a /\ thr <= depart f /\
      legs_ok sched (dest f) (arrive f + MIN_LAYOVER_MINUTES) p'
  end.

(** Airport and departure threshold reached after flying [p]. *)
Definition end_airport (a : string) (p : list Flight) : string :=
  match last p with Some f => dest f | None => a end.

Definition end_threshold (thr : Z) (p : list Flight) : Z :=
  match last p with Some f => arrive f + MIN_LAYOVER_MINUTES | None => thr end.

(** The predecessor chain of an airport, oldest flight first: what the
    backward walk of [reconstruct_itinerary] collects, reversed. *)
Inductive chain (prev : gmap string Flight) : string -> list Flight -> Prop :=
| chain_nil x : prev !! x = None -> chain prev x []
| chain_snoc x f p :
    prev !! x = Some f -> chain prev (origin f) p -> chain prev x (p ++ [f]).

(** A run returns [r] when some bound on the loop turns is enough for it. *)
Definition returns (run : nat -> outcome) (r : outcome) : Prop :=
  r <> OutOfFuel /\ exists n, run n = r.

(** The flight invariants of the data model. *)
Definition valid_times (f : Flight) : Prop := depart f < arrive f.

Definition valid_fares (f : Flight) : Prop :=
  0 <= economy f /\ 0 <= business f /\ 0 <= first f.

Definition valid_flight (f : Flight) : Prop := valid_times f /\ valid_fares f.

(** The airport finalized by a loop turn, with the key it was popped at, and
    the number of outbound flights the turn relaxed. *)
Definition finalized_of {K S : Type} (r : step_result K S) : option (string * K) :=
  match r with
  | AtDest k a _ | Expanded k a _ => Some (a, k)
  | _ => None
  end.

Definition relaxed_of {K S : Type} (g : gmap string (list Flight))
    (r : step_result K S) : nat :=
  match r with
  | Expanded _ a _ => length (graph_get g a)
  | _ => 0%nat
  end.

Definition finalized {K S : Type} (l : list (step_result K S)) : list (string * K) :=
  omap finalized_of l.

Definition relaxations {K S : Type} (g : gmap string (list Flight))
    (l : list (step_result K S)) : nat :=
  sum_list (relaxed_of g <$> l).

(** ** The search contracts, as the specification words them *)

(** What a returned itinerary must respect: the first leg leaves no earlier
    than the requested time, consecutive legs connect, and every later leg
    leaves no earlier than the previous arrival plus the minimum layover. *)
Definition respects_layovers (t0 : Z) (p : list Flight) : Prop :=
  (forall f, head p = Some f -> t0 <= depart f) /\
  (forall (i : nat) f f', p !! i = Some f -> p !! S i = Some f' ->
     dest f = origin f' /\ arrive f + MIN_LAYOVER_MINUTES <= depart f').

(** Earliest-arrival search: a returned itinerary respects the layovers and
    its arrival time is the least among the feasible itineraries from [start]
    to [dst]; no result comes back only when there is no feasible itinerary. *)
Definition earliest_claim (sched : list Flight) (start dst : string) (t0 : Z)
    : Prop :=
  let run n := find_earliest_itinerary n (build_graph sched) start dst t0 in
  (forall it, returns run (Found it) ->
     respects_layovers t0 (flights it) /\
     forall p, feasible sched start dst t0 p ->
       exists ta tp, arrive_time it = Some ta /\
                     arrive_time (mkItinerary p) = Some tp /\ ta <= tp)
  /\ (returns run NoItinerary -> forall p, ~ feasible sched start dst t0 p).

(** Cheapest-fare search: the same, with the total price for the cabin in
    place of the arrival time. *)
Definition cheapest_claim (sched : list Flight) (start dst : string) (t0 : Z)
    (cabin : Cabin) : Prop :=
  let run n := find_cheapest_itinerary n (build_graph sched) start dst t0 cabin in
  (forall it, returns run (Found it) ->
     respects_layovers t0 (flights it) /\
     forall p, feasible sched start dst t0 p ->
       total_price it cabin <= total_price (mkItinerary p) cabin)
  /\ (returns run NoItinerary -> forall p, ~ feasible sched start dst t0 p).

(** A run ends properly when its last loop turn finalizes the destination or
    finds the queue exhausted. *)
Definition ends_properly {K S : Type} (l : list (step_result K S)) : Prop :=
  match last l with
  | Some QueueEmpty | Some (AtDest _ _ _) => True
  | _ => False
  end.

(** Every returned itinerary has at least one flight. *)
Definition nonempty_claim (g : gmap string (list Flight)) (start dst : string)
    (t0 : Z) (cabin : Cabin) : Prop :=
  (forall it, returns (fun n => find_earliest_itinerary n g start dst t0) (Found it) ->
     flights it <> []) /\
  (forall it,
     returns (fun n => find_cheapest_itinerary n g start dst t0 cabin) (Found it) ->
     flights it <> []).

(** In the cheapest-fare search each airport is finalized at most once. *)
Definition finalized_once_claim (sched : list Flight) (start dst : string)
    (t0 : Z) (cabin : Cabin) : Prop :=
  forall n,
    NoDup (finalized (Cheapest.steps n (build_graph sched) start dst cabin
                        (Cheapest.init start t0))).*1.

(** Both searches end, properly, with each airport finalized at most once and
    no more relaxations than there are flights. *)
Definition termination_claim (sched : list Flight) (start dst : string)
    (t0 : Z) (cabin : Cabin) : Prop :=
  let g := build_graph sched in
  let le n := Earliest.steps n g start dst (Earliest.init start t0) in
  let lc n := Cheapest.steps n g start dst cabin (Cheapest.init start t0) in
  (exists r, returns (fun n => find_earliest_itinerary n g start dst t0) r) /\
  (exists r, returns (fun n => find_cheapest_itinerary n g start dst t0 cabin) r) /\
  (exists n, ends_properly (le n)) /\ (exists n, ends_properly (lc n)) /\
  (forall n, NoDup (finalized (le n)).*1 /\
             (relaxations g (le n) <= length sched)%nat) /\
  (forall n, NoDup (finalized (lc n)).*1 /\
             (relaxations g (lc n) <= length sched)%nat).

(** Entries of the queue are for [start] or for airports that have a
    predecessor. *)
Definition earliest_pq_mapped (start : string) (st : Earliest.state) : Prop :=
  forall k x, (k, x) ∈ Earliest.pq st ->
    x = start \/ is_Some (Earliest.prev st !! x).

Definition cheapest_pq_mapped (start : string) (st : Cheapest.state) : Prop :=
  forall c t x, (c, t, x) ∈ Cheapest.pq st ->
    x = start \/ is_Some (Cheapest.prev st !! x).

(** ** Example schedules *)

Definition fAB1 := mkFlight "A" "B" "F1" 480 540 100 200 300.
Definition fAB2 := mkFlight "A" "B" "F2" 600 660 50 200 300.
Definition fBC := mkFlight "B" "C" "F3" 600 660 50 200 300.
Definition fBA := mkFlight "B" "A" "F4" 600 660 70 200 300.

(** Two flights from A to B, the later one cheaper, and a connection from B
    that only the earlier one reaches in time. *)
Definition sched_ex : list Flight := [fAB1; fAB2; fBC].

(** The same flights with the cheaper one listed first. *)
Definition sched_ex' : list Flight := [fAB2; fAB1; fBC].

(** A round trip from A. *)
Definition sched_loop : list Flight := [fAB1; fBA].

(** A dead end X that is reached before the destination B. *)
Definition fAX := mkFlight "A" "X" "F5" 480 500 20 20 20.
Definition sched_dead : list Flight := [fAX; fAB1].

(** A round trip between A and B and a flight on to C, all at a negative
    fare, and the lines of the schedule file they are loaded from. *)
Definition nAB := mkFlight "A" "B" "N1" 480 540 (-10) (-10) (-10).
Definition nBA := mkFlight "B" "A" "N2" 600 660 (-10) (-10) (-10).
Definition nBC := mkFlight "B" "C" "N3" 600 660 (-10) (-10) (-10).
Definition sched_neg : list Flight := [nAB; nBA; nBC].
Definition lines_neg : list string :=
  ["A B N1 08:00 09:00 -10 -10 -10"; "B A N2 10:00 11:00 -10 -10 -10";
   "B C N3 10:00 11:00 -10 -10 -10"].

(** The same shape with flights that land before they leave. *)
Definition bAB := mkFlight "A" "B" "T1" 100 50 10 10 10.
Definition bBA := mkFlight "B" "A" "T2" 110 20 10 10 10.
Definition bBC := mkFlight "B" "C" "T3" 110 200 10 10 10.
Definition sched_back : list Flight := [bAB; bBA; bBC].

(** ** Invariants of the earliest-arrival search *)

(** Earliest departure allowed from airport [a] when its label is [t]:
    the [required] of the search. *)
Definition threshold (start a : string) (t : Z) : Z :=
  if decide (a = start) then t else t + MIN_LAYOVER_MINUTES.

(** What holds of the working state at every turn of the loop of
    [find_earliest_itinerary] over the schedule [sched]; [todo] are the
    outbound flights of the airport being expanded that the inner loop has not
    reached yet. *)
Record earliest_inv (sched : list Flight) (start dst : string) (t0 : Z)
    (st : Earliest.state) (todo : list Flight) : Prop := mkEarliestInv {
  ei_start_dist : Earliest.dist st !! start = Some t0;
  ei_start_prev : Earliest.prev st !! start = None;
  ei_prev : forall x f, Earliest.prev st !! x = Some f ->
      f ∈ sched /\ dest f = x /\ Earliest.dist st !! x = Some (arrive f) /\
      origin f ∈ Earliest.visited st /\
      exists tu, Earliest.dist st !! origin f = Some tu /\
                 threshold start (origin f) tu <= depart f;
  ei_labelled : forall x t, Earliest.dist st !! x = Some t ->
      x = start \/ is_Some (Earliest.prev st !! x);
  ei_ge : forall x t, Earliest.dist st !! x = Some t -> t0 <= t;
  ei_pending : forall x t, Earliest.dist st !! x = Some t ->
      x ∈ Earliest.visited st \/ (t, x) ∈ Earliest.pq st;
  ei_pq : forall k x, (k, x) ∈ Earliest.pq st ->
      exists t, Earliest.dist st !! x = Some t /\ t <= k;
  ei_pq_start : forall k x, (k, x) ∈ Earliest.pq st -> x <> start ->
      start ∈ Earliest.visited st;
  ei_visited : forall u, u ∈ Earliest.visited st ->
      exists tu, Earliest.dist st !! u = Some tu /\
                 forall k x, (k, x) ∈ Earliest.pq st -> tu <= k;
  ei_closed : forall u f tu, u ∈ Earliest.visited st -> u <> dst ->
      f ∈ sched -> origin f = u -> f ∉ todo ->
      Earliest.dist st !! u = Some tu -> threshold start u tu <= depart f ->
      exists tv, Earliest.dist st !! dest f = Some tv /\ tv <= arrive f
}.

(** The inner loop is relaxing the flights of [airport], popped at
    [cur_time]. *)
Record earliest_expanding (start : string) (st : Earliest.state)
    (airport : string) (cur_time : Z) : Prop := mkEarliestExpanding {
  ee_visited : airport ∈ Earliest.visited st;
  ee_start : start ∈ Earliest.visited st;
  ee_dist : Earliest.dist st !! airport = Some cur_time;
  ee_bound : forall v tv, v ∈ Earliest.visited st ->
      Earliest.dist st !! v = Some tv -> tv <= cur_time
}.

(** Bound on the loop turns [find_earliest_itinerary] has left: pending
    queue entries, plus flights whose origin is not finalized yet. *)
Definition earliest_measure (sched : list Flight) (st : Earliest.state) : nat :=
  (length (Earliest.pq st)
   + length (filter (fun f => origin f ∉ Earliest.visited st) sched))%nat.

(** ** Invariants of the cheapest-fare search *)

Record cheapest_inv (sched : list Flight) (start : string)
    (st : Cheapest.state) : Prop := mkCheapestInv {
  ci_start_dist : Cheapest.dist st !! start = Some 0;
  ci_start_prev : Cheapest.prev st !! start = None;
  ci_prev : forall x f, Cheapest.prev st !! x = Some f ->
      f ∈ sched /\ dest f = x /\
      exists tv tu, Cheapest.dist st !! x = Some tv /\
                    Cheapest.dist st !! origin f = Some tu /\ tu <= tv;
  ci_labelled : forall x t, Cheapest.dist st !! x = Some t ->
      x = start \/ is_Some (Cheapest.prev st !! x);
  ci_pq : forall c t x, (c, t, x) ∈ Cheapest.pq st ->
      0 <= c /\ exists tx, Cheapest.dist st !! x = Some tx /\ tx <= c;
  ci_chain : forall x, exists p, chain (Cheapest.prev st) x p
}.

(** A flight can still lower the label of its destination when it is relaxed
    from an entry of cost [L] or more. *)
Definition cheapest_live (cabin : Cabin) (L : Z) (st : Cheapest.state)
    (f : Flight) : bool :=
  match Cheapest.dist st !! dest f with
  | None => true
  | Some d => bool_decide (L + price f cabin < d)
  end.

Definition cheapest_measure (sched : list Flight) (cabin : Cabin) (L : Z)
    (st : Cheapest.state) : nat :=
  (length (Cheapest.pq st)
   + length (filter (fun f => cheapest_live cabin L st f = true) sched))%nat.

(** The state a loop turn leaves behind. *)
Definition result_state {K S : Type} (r : step_result K S) : option S :=
  match r with
  | QueueEmpty => None
  | Stale st | AtDest _ _ st | Expanded _ _ st => Some st
  end.

(** The airports the backward walk from [x] passes through, [x] first. *)
Definition chain_nodes (x : string) (p : list Flight) : list string :=
  x :: rev (origin <$> p).

(** The working states a run goes through in its first [n] loop turns. *)
Definition earliest_states (n : nat) (g : gmap string (list Flight))
    (start dst : string) (t0 : Z) : list Earliest.state :=
  Earliest.init start t0
  :: omap result_state (Earliest.steps n g start dst (Earliest.init start t0)).

Definition cheapest_states (n : nat) (g : gmap string (list Flight))
    (start dst : string) (t0 : Z) (cabin : Cabin) : list Cheapest.state :=
  Cheapest.init start t0
  :: omap result_state
       (Cheapest.steps n g start dst cabin (Cheapest.init start t0)).

(** A predecessor map is well formed when [start] has no predecessor and the
    backward walk from any airport is finite, never passes twice through an
    airport, stops at [start] when it made a step at all, and is what
    [reconstruct_itinerary] returns. *)
Definition chains_wf (start : string) (prev : gmap string Flight) : Prop :=
  prev !! start = None /\
  forall x, exists p,
    chain prev x p /\ NoDup (chain_nodes x p) /\
    (forall f, head p = Some f -> origin f = start) /\
    forall n, (length p <= n)%nat ->
      reconstruct_itinerary n prev x = Some (mkItinerary p).

(** ** Vocabulary of the further properties *)

(** Consecutive flights connect: each one leaves from where the previous one
    arrived. *)
Definition connected (p : list Flight) : Prop :=
  forall (i : nat) f f', p !! i = Some f -> p !! S i = Some f' ->
    dest f = origin f'.

(** All the flights stored in a route graph. *)
Definition graph_flights (g : gmap string (list Flight)) : list Flight :=
  concat (map_to_list g).*2.

(** The (airport, cost) pairs of the queue of the cheapest-fare search are
    pairwise distinct and not finalized yet, and no pair of the queue or of
    the visited set has a cost below the label of its airport. *)
Record cheapest_fresh (st : Cheapest.state) : Prop := mkCheapestFresh {
  cf_nodup : NoDup ((fun e : Z * Z * string => (e.2, e.1.1)) <$> Cheapest.pq st);
  cf_unvisited : forall c t x, (c, t, x) ∈ Cheapest.pq st ->
      (x, c) ∉ Cheapest.visited st;
  cf_pq_dist : forall c t x, (c, t, x) ∈ Cheapest.pq st ->
      exists d, Cheapest.dist st !! x = Some d /\ d <= c;
  cf_visited_dist : forall x c, (x, c) ∈ Cheapest.visited st ->
      exists d, Cheapest.dist st !! x = Some d /\ d <= c
}.

(** A way to be at airport [x] at time [t]: at [start] at the requested time,
    or elsewhere after a feasible itinerary that arrives at [t]. *)
Definition reached (sched : list Flight) (start : string) (t0 : Z)
    (x : string) (t : Z) : Prop :=
  (x = start /\ t = t0) \/
  (x <> start /\
   exists p g, feasible sched start x t0 p /\ last p = Some g /\ arrive g = t).

(** What the cheapest-fare search keeps besides [cheapest_inv]: every queue
    entry stands for a way to be at its airport at its time, and a
    predecessor flight that leaves [start] leaves at or after the requested
    time. *)
Record cheapest_route_inv (sched : list Flight) (start : string) (t0 : Z)
    (st : Cheapest.state) : Prop := mkCheapestRouteInv {
  cr_inv : cheapest_inv sched start st;
  cr_reached : forall c t x, (c, t, x) ∈ Cheapest.pq st ->
      reached sched start t0 x t;
  cr_first_leg : forall x f, Cheapest.prev st !! x = Some f ->
      origin f = start -> t0 <= depart f
}.

(** * Properties *)

(** ** Flights and the route graph *)

Lemma price_for_tag f c : price_for f (cabin_tag c) = Some (price f c).
Proof. by destruct c. Qed.

Lemma graph_get_build_snoc fl f a :
  graph_get (build_graph (fl ++ [f])) a =
  graph_get (build_graph fl) a ++ (if decide (origin f = a) then [f] else []).
Proof.
  unfold build_graph. rewrite fold_left_app. simpl.
  unfold graph_get at 1. destruct (decide (origin f = a)) as [->|Hne].
  - by rewrite lookup_insert_eq.
  - rewrite lookup_insert_ne by done. by rewrite app_nil_r.
Qed.

Lemma graph_get_build fl a :
  graph_get (build_graph fl) a = filter (fun f => origin f = a) fl.
Proof.
  induction fl as [|f fl IH] using rev_ind; [done|].
  rewrite graph_get_build_snoc, IH, filter_app, filter_cons, filter_nil.
  by destruct (decide (origin f = a)).
Qed.

Lemma build_graph_lookup fl a :
  build_graph fl !! a =
  if decide (filter (fun f => origin f = a) fl = []) then None
  else Some (filter (fun f => origin f = a) fl).
Proof.
  induction fl as [|f fl IH] using rev_ind; [done|].
  unfold build_graph. rewrite fold_left_app. simpl.
  fold (build_graph fl). rewrite filter_app, filter_cons, filter_nil.
  destruct (decide (origin f = a)) as [->|Hne].
  - rewrite lookup_insert_eq, graph_get_build.
    clear IH. case_decide as E.
    + apply app_eq_nil in E as [_ E]. discriminate E.
    + reflexivity.
  - rewrite lookup_insert_ne by done. by rewrite IH, app_nil_r.
Qed.

(** ** Priority queue *)

Section HeapFacts.
Context {A : Type} `{EqDecision A} (lt : A -> A -> bool).

Lemma heap_min_in (m : A) l : heap_min lt m l ∈ m :: l.
Proof.
  revert m. induction l as [|x l IH]; intros m; simpl; [by left|].
  specialize (IH (if lt x m then x else m)).
  destruct (lt x m); apply elem_of_cons in IH as [->|IH];
    rewrite !elem_of_cons; auto.
Qed.

Lemma remove_first_perm (x : A) l : x ∈ l -> l ≡ₚ x :: remove_first x l.
Proof.
  induction l as [|y l IH]; intros Hin; [by apply elem_of_nil in Hin|].
  simpl. destruct (decide (x = y)) as [->|Hne]; [done|].
  apply elem_of_cons in Hin as [->|Hin]; [done|].
  rewrite (IH Hin) at 1. apply Permutation_swap.
Qed.

Lemma heappop_perm pq (m : A) pq' :
  heappop lt pq = Some (m, pq') -> pq ≡ₚ m :: pq'.
Proof.
  destruct pq as [|x l]; [done|]. unfold heappop. intros [= <- <-].
  apply remove_first_perm, heap_min_in.
Qed.

Lemma heappop_none pq : heappop lt pq = None -> pq = [].
Proof. by destruct pq. Qed.

Lemma heappop_length pq (m : A) pq' :
  heappop lt pq = Some (m, pq') -> length pq = S (length pq').
Proof. intros H. by rewrite (heappop_perm _ _ _ H). Qed.

(** When [lt] refines the order of an integer key, the popped entry has the
    least key. *)
Context (key : A -> Z).
Hypothesis lt_key : forall x y, lt x y = true -> key x <= key y.
Hypothesis nlt_key : forall x y, lt x y = false -> key y <= key x.

Lemma heap_min_least (m : A) l :
  key (heap_min lt m l) <= key m /\ forall y, y ∈ l -> key (heap_min lt m l) <= key y.
Proof.
  revert m. induction l as [|x l IH]; intros m; simpl.
  - split; [lia|]. intros y Hy. by apply elem_of_nil in Hy.
  - destruct (IH (if lt x m then x else m)) as [H1 H2].
    destruct (lt x m) eqn:E.
    + apply lt_key in E. split; [lia|].
      intros y [->|Hy]%elem_of_cons; [done|by apply H2].
    + apply nlt_key in E. split; [lia|].
      intros y [->|Hy]%elem_of_cons; [lia|by apply H2].
Qed.

Lemma heappop_least pq (m : A) pq' :
  heappop lt pq = Some (m, pq') -> forall y, y ∈ pq -> key m <= key y.
Proof.
  destruct pq as [|x l]; [done|]. unfold heappop. intros [= <- _] y Hy.
  destruct (heap_min_least x l) as [H1 H2].
  apply elem_of_cons in Hy as [->|Hy]; [done|by apply H2].
Qed.
End HeapFacts.

Lemma earliest_entry_lt_key x y : Earliest.entry_lt x y = true -> x.1 <= y.1.
Proof. unfold Earliest.entry_lt. lia. Qed.

Lemma earliest_entry_nlt_key x y : Earliest.entry_lt x y = false -> y.1 <= x.1.
Proof. unfold Earliest.entry_lt. lia. Qed.

Lemma cheapest_entry_lt_key x y : Cheapest.entry_lt x y = true -> x.1.1 <= y.1.1.
Proof. unfold Cheapest.entry_lt. lia. Qed.

Lemma cheapest_entry_nlt_key x y : Cheapest.entry_lt x y = false -> y.1.1 <= x.1.1.
Proof. unfold Cheapest.entry_lt. lia. Qed.

(** ** Feasible itineraries and predecessor chains *)

Lemma end_airport_cons a f p : end_airport a (f :: p) = end_airport (dest f) p.
Proof. unfold end_airport. rewrite last_cons. by destruct (last p). Qed.

Lemma end_threshold_cons thr f p :
  end_threshold thr (f :: p) = end_threshold (arrive f + MIN_LAYOVER_MINUTES) p.
Proof. unfold end_threshold. rewrite last_cons. by destruct (last p). Qed.

Lemma end_airport_snoc a p f : end_airport a (p ++ [f]) = dest f.
Proof. unfold end_airport. by rewrite last_snoc. Qed.

Lemma end_threshold_snoc thr p f :
  end_threshold thr (p ++ [f]) = arrive f + MIN_LAYOVER_MINUTES.
Proof. unfold end_threshold. by rewrite last_snoc. Qed.

Lemma legs_ok_snoc sched a thr p f :
  legs_ok sched a thr p -> f ∈ sched -> origin f = end_airport a p ->
  end_threshold thr p <= depart f -> legs_ok sched a thr (p ++ [f]).
Proof.
  revert a thr. induction p as [|g p IH]; intros a thr Hp Hf Ho Ht; simpl.
  - done.
  - destruct Hp as (? & ? & ? & Hp). repeat split; try done.
    apply IH; [done|done| |].
    + by rewrite end_airport_cons in Ho.
    + by rewrite end_threshold_cons in Ht.
Qed.

Lemma legs_ok_sched sched a thr p f : legs_ok sched a thr p -> f ∈ p -> f ∈ sched.
Proof.
  revert a thr. induction p as [|g p IH]; intros a thr Hp Hf.
  - by apply elem_of_nil in Hf.
  - destruct Hp as (? & ? & ? & Hp).
    apply elem_of_cons in Hf as [->|Hf]; [done|by eapply IH].
Qed.

(** Along a feasible sequence of valid flights nothing leaves before the
    threshold it was started with. *)
Lemma legs_ok_last_depart sched a thr p f :
  Forall valid_times sched -> legs_ok sched a thr p -> last p = Some f ->
  thr <= depart f.
Proof.
  intros Hval. revert a thr. induction p as [|g p IH]; intros a thr Hp Hl; [done|].
  destruct Hp as (Hg & ? & ? & Hp). destruct p as [|g' p].
  - by injection Hl as <-.
  - rewrite last_cons_cons in Hl. specialize (IH _ _ Hp Hl).
    rewrite Forall_forall in Hval. specialize (Hval _ Hg).
    unfold valid_times, MIN_LAYOVER_MINUTES in *. lia.
Qed.

Lemma feasible_legs_ok sched start dst t0 p :
  feasible sched start dst t0 p ->
  p <> [] /\ legs_ok sched start t0 p /\ end_airport start p = dst.
Proof.
  intros [Hs Hf Hc (fl & Hl & Hd)]. split; [by destruct p|]. split.
  - clear fl Hl Hd. revert start t0 Hf.
    induction p as [|f p IH]; intros start t0 Hf; [done|]. simpl.
    destruct (Hf f eq_refl) as [Ho Ht]. split; [apply Hs; by left|].
    do 2 (split; [done|]). apply IH.
    + intros g Hg. apply Hs. by right.
    + intros i g g' Hg Hg'. by apply (Hc (S i)).
    + intros g Hg. destruct p as [|g0 p]; [done|]. injection Hg as ->.
      by destruct (Hc 0%nat f g eq_refl eq_refl).
  - unfold end_airport. by rewrite Hl.
Qed.

Lemma legs_ok_feasible sched start dst t0 p :
  p <> [] -> legs_ok sched start t0 p -> end_airport start p = dst ->
  feasible sched start dst t0 p.
Proof.
  intros Hne Hp He. split.
  - intros f. by apply legs_ok_sched with (a := start) (thr := t0).
  - intros f Hh. destruct p as [|g p]; [done|]. injection Hh as ->.
    destruct Hp as (? & ? & ? & _). done.
  - clear Hne He. revert start t0 Hp.
    induction p as [|g p IH]; intros start t0 Hp i f f' Hf Hf'; [done|].
    destruct Hp as (? & ? & ? & Hp). destruct i as [|i].
    + injection Hf as ->. destruct p as [|g0 p]; [done|].
      injection Hf' as ->. destruct Hp as (? & ? & ? & _). done.
    + by eapply (IH _ _ Hp i).
  - unfold end_airport in He. destruct (last p) as [f|] eqn:Hl.
    + by exists f.
    + by apply last_None in Hl.
Qed.

Lemma chain_det prev x p q : chain prev x p -> chain prev x q -> p = q.
Proof.
  intros Hp. revert q. induction Hp as [x Hx|x f p Hx Hp IH]; intros q Hq.
  - destruct Hq as [|? f q Hf]; [done|congruence].
  - destruct Hq as [? Hn|? g q Hg Hq]; [congruence|].
    assert (g = f) as -> by congruence. by rewrite (IH _ Hq).
Qed.

Lemma reconstruct_walk_chain prev x p :
  chain prev x p -> forall n acc, (length p <= n)%nat ->
  reconstruct_walk n prev x acc = Some (acc ++ rev p).
Proof.
  induction 1 as [x Hx|x f p Hx Hp IH]; intros n acc Hn.
  - destruct n; simpl; rewrite Hx; by rewrite app_nil_r.
  - rewrite length_app in Hn. simpl in Hn.
    destruct n as [|n]; [lia|]. simpl. rewrite Hx.
    rewrite IH by lia. by rewrite rev_unit, <- app_assoc.
Qed.

Lemma reconstruct_itinerary_chain prev x p n :
  chain prev x p -> (length p <= n)%nat ->
  reconstruct_itinerary n prev x = Some (mkItinerary p).
Proof.
  intros Hc Hn. unfold reconstruct_itinerary.
  rewrite (reconstruct_walk_chain _ _ _ Hc) by done. simpl.
  by rewrite rev_involutive.
Qed.

Lemma reconstruct_walk_inv prev n : forall x acc q,
  reconstruct_walk n prev x acc = Some q ->
  exists p, chain prev x p /\ q = acc ++ rev p /\ (length p <= n)%nat.
Proof.
  induction n as [|n IH]; intros x acc q; simpl.
  - destruct (prev !! x) eqn:Hx; [done|]. intros [= <-].
    exists []. split; [by constructor|]. by rewrite app_nil_r.
  - destruct (prev !! x) as [f|] eqn:Hx.
    + intros Hw. destruct (IH _ _ _ Hw) as (p & Hp & -> & Hl).
      exists (p ++ [f]). split; [by constructor|].
      rewrite rev_unit, <- app_assoc, length_app. simpl. split; [done|lia].
    + intros [= <-]. exists []. split; [by constructor|].
      rewrite app_nil_r. simpl. split; [done|lia].
Qed.

Lemma reconstruct_itinerary_inv prev n x it :
  reconstruct_itinerary n prev x = Some it ->
  chain prev x (flights it) /\ (length (flights it) <= n)%nat.
Proof.
  unfold reconstruct_itinerary.
  destruct (reconstruct_walk n prev x []) as [q|] eqn:Hw; [|done].
  intros [= <-]. destruct (reconstruct_walk_inv _ _ _ _ _ Hw) as (p & Hp & -> & Hl).
  simpl. by rewrite rev_involutive.
Qed.

Lemma reconstruct_itinerary_mono prev n n' x it :
  reconstruct_itinerary n prev x = Some it -> (n <= n')%nat ->
  reconstruct_itinerary n' prev x = Some it.
Proof.
  intros [Hc Hl]%reconstruct_itinerary_inv Hn. destruct it as [p].
  apply reconstruct_itinerary_chain; [done|simpl in *; lia].
Qed.

Lemma legs_ok_depart_ge sched a thr p f :
  Forall valid_times sched -> legs_ok sched a thr p -> f ∈ p -> thr <= depart f.
Proof.
  intros Hval. revert a thr. induction p as [|g p IH]; intros a thr Hp Hf.
  - by apply elem_of_nil in Hf.
  - destruct Hp as (Hg & ? & ? & Hp).
    apply elem_of_cons in Hf as [->|Hf]; [done|].
    specialize (IH _ _ Hp Hf). rewrite Forall_forall in Hval.
    specialize (Hval _ Hg). unfold valid_times, MIN_LAYOVER_MINUTES in *. lia.
Qed.

Lemma legs_ok_NoDup sched a thr p :
  Forall valid_times sched -> legs_ok sched a thr p -> NoDup p.
Proof.
  intros Hval. revert a thr. induction p as [|g p IH]; intros a thr Hp.
  - constructor.
  - destruct Hp as (Hg & ? & ? & Hp). constructor; [|by eapply IH].
    intros Hin. pose proof (legs_ok_depart_ge _ _ _ _ _ Hval Hp Hin).
    rewrite Forall_forall in Hval. specialize (Hval _ Hg).
    unfold valid_times, MIN_LAYOVER_MINUTES in *. lia.
Qed.

Lemma legs_ok_length sched a thr p :
  Forall valid_times sched -> legs_ok sched a thr p ->
  (length p <= length sched)%nat.
Proof.
  intros Hval Hp. apply submseteq_length, NoDup_submseteq.
  - by eapply legs_ok_NoDup.
  - intros f. by eapply legs_ok_sched.
Qed.

(** Updating the predecessor of [v] keeps every chain finite as long as the
    chain of the new predecessor's origin does not pass through [v]. *)
Lemma chain_insert_avoid prev x p v f :
  chain prev x p -> x <> v -> (forall g, g ∈ p -> origin g <> v) ->
  chain (<[v:=f]> prev) x p.
Proof.
  induction 1 as [x Hx|x g p Hx Hp IH]; intros Hxv Hav.
  - constructor. by rewrite lookup_insert_ne.
  - constructor.
    + by rewrite lookup_insert_ne.
    + apply IH.
      * apply Hav, elem_of_app. right. by left.
      * intros h Hh. apply Hav, elem_of_app. by left.
Qed.

Lemma chain_insert_all prev v f p0 :
  chain (<[v:=f]> prev) (origin f) p0 ->
  forall x p, chain prev x p -> exists q, chain (<[v:=f]> prev) x q.
Proof.
  intros H0.
  assert (Hv : chain (<[v:=f]> prev) v (p0 ++ [f])).
  { constructor; [by rewrite lookup_insert_eq|done]. }
  induction 1 as [x Hx|x g p Hx Hp [q IH]].
  - destruct (decide (x = v)) as [->|Hne]; [eauto|].
    exists []. constructor. by rewrite lookup_insert_ne.
  - destruct (decide (x = v)) as [->|Hne]; [eauto|].
    exists (q ++ [g]). constructor; [by rewrite lookup_insert_ne|done].
Qed.

Lemma chain_nil_inv prev x : chain prev x [] -> prev !! x = None.
Proof.
  inversion 1 as [|? f p ? ? E]; [done|]. by destruct p.
Qed.

Lemma chain_head prev x p f :
  chain prev x p -> head p = Some f -> prev !! origin f = None.
Proof.
  induction 1 as [x Hx|x g p Hx Hp IH]; [done|].
  destruct p as [|h p].
  - simpl. intros [= <-]. by apply chain_nil_inv.
  - simpl. intros [= <-]. by apply IH.
Qed.

(** A finite chain never passes twice through an airport. *)
Lemma chain_nodes_chain prev x p z :
  chain prev x p -> z ∈ chain_nodes x p ->
  exists q, chain prev z q /\ (length q <= length p)%nat.
Proof.
  unfold chain_nodes. induction 1 as [x Hx|x g p Hx Hp IH].
  - simpl. intros ->%list_elem_of_singleton. exists []. split; [by constructor|done].
  - rewrite fmap_app, rev_app_distr. simpl.
    intros [->|Hz]%elem_of_cons.
    + exists (p ++ [g]). split; [by constructor|done].
    + destruct (IH Hz) as (q & Hq & Hl). exists q. split; [done|].
      rewrite length_app. simpl. lia.
Qed.

Lemma chain_nodes_NoDup prev x p : chain prev x p -> NoDup (chain_nodes x p).
Proof.
  unfold chain_nodes. induction 1 as [x Hx|x g p Hx Hp IH].
  - simpl. apply NoDup_singleton.
  - rewrite fmap_app, rev_app_distr. simpl. constructor; [|done].
    intros Hin. destruct (chain_nodes_chain _ _ _ _ Hp Hin) as (q & Hq & Hl).
    assert (Hc : chain prev x (p ++ [g])) by by constructor.
    rewrite (chain_det _ _ _ _ Hq Hc), length_app in Hl. simpl in Hl. lia.
Qed.

(** ** The earliest-arrival search keeps its invariant *)

Lemma threshold_ge start a t : t <= threshold start a t.
Proof. unfold threshold, MIN_LAYOVER_MINUTES. case_decide; lia. Qed.

Lemma earliest_relax_cases start cur a st f :
  (Earliest.relax start cur a st f = st /\
   (~ threshold start a cur <= depart f \/
    exists d, Earliest.dist st !! dest f = Some d /\ d <= arrive f))
  \/ (threshold start a cur <= depart f /\
      (forall d, Earliest.dist st !! dest f = Some d -> arrive f < d) /\
      Earliest.relax start cur a st f =
      Earliest.mkState (<[dest f := arrive f]> (Earliest.dist st))
        (<[dest f := f]> (Earliest.prev st))
        ((arrive f, dest f) :: Earliest.pq st) (Earliest.visited st)).
Proof.
  unfold Earliest.relax. fold (threshold start a cur).
  case_bool_decide as Hel; [|left; auto].
  destruct (Earliest.dist st !! dest f) as [d|] eqn:Hd.
  - case_bool_decide as Himp.
    + right. split; [done|]. split; [|done]. by intros ? [= <-].
    + left. split; [done|]. right. exists d. split; [done|lia].
  - right. split; [done|]. split; [|done]. intros ? [=].
Qed.

Lemma earliest_relax_inv sched start dst t0 st f rest airport cur :
  depart f < arrive f -> f ∈ sched -> origin f = airport ->
  earliest_inv sched start dst t0 st (f :: rest) ->
  earliest_expanding start st airport cur ->
  earliest_inv sched start dst t0 (Earliest.relax start cur airport st f) rest /\
  earliest_expanding start (Earliest.relax start cur airport st f) airport cur.
Proof.
  intros Hval Hin Horg Hinv Hexp.
  destruct (earliest_relax_cases start cur airport st f)
    as [[-> Hno]|(Hel & Himp & ->)].
  - (* the flight is not eligible, or does not improve the label *)
    split; [|done]. destruct Hinv. split; try done.
    intros u f' tu Hu Hud Hf' Ho Hnin Hdu Hthr.
    destruct (decide (f' = f)) as [->|Hne].
    + assert (u = airport) as -> by congruence.
      rewrite (ee_dist _ _ _ _ Hexp) in Hdu. injection Hdu as <-.
      destruct Hno as [Hno|(d & Hd & Hle)]; [done|]. eauto.
    + apply (ei_closed0 u f' tu); try done.
      rewrite elem_of_cons. intros [?|?]; done.
  - (* the label and the predecessor of [dest f] are updated *)
    pose proof (threshold_ge start airport cur) as Hthr.
    assert (t0 <= cur) as Hcur.
    { eapply (ei_ge _ _ _ _ _ _ Hinv), (ee_dist _ _ _ _ Hexp). }
    assert (Hnv : dest f ∉ Earliest.visited st).
    { intros Hv. destruct (ei_visited _ _ _ _ _ _ Hinv _ Hv) as (tv & Htv & _).
      pose proof (ee_bound _ _ _ _ Hexp _ _ Hv Htv).
      specialize (Himp _ Htv). lia. }
    assert (Hns : dest f <> start).
    { intros Hs. pose proof (ei_start_dist _ _ _ _ _ _ Hinv) as H0.
      rewrite <- Hs in H0. specialize (Himp _ H0). lia. }
    assert (Hna : dest f <> airport).
    { intros Ha. apply Hnv. rewrite Ha. apply Hexp. }
    split.
    + destruct Hinv. split; simpl.
      * by rewrite lookup_insert_ne.
      * by rewrite lookup_insert_ne.
      * intros x f0. destruct (decide (dest f = x)) as [<-|Hx].
        -- rewrite lookup_insert_eq. intros [= <-].
           rewrite lookup_insert_eq. repeat split; try done.
           { rewrite Horg. apply Hexp. }
           exists cur. rewrite Horg, lookup_insert_ne by done.
           split; [apply Hexp|done].
        -- rewrite !lookup_insert_ne by done. intros Hp.
           destruct (ei_prev0 _ _ Hp) as (? & ? & ? & Hov & tu & Htu & ?).
           repeat split; try done. exists tu. split; [|done].
           rewrite lookup_insert_ne; [done|]. intros E. by rewrite E in Hnv.
      * intros x t. destruct (decide (dest f = x)) as [<-|Hx].
        -- intros _. right. by rewrite lookup_insert_eq.
        -- rewrite !lookup_insert_ne by done. apply ei_labelled0.
      * intros x t. destruct (decide (dest f = x)) as [<-|Hx].
        -- rewrite lookup_insert_eq. intros [= <-]. lia.
        -- rewrite lookup_insert_ne by done. apply ei_ge0.
      * intros x t. destruct (decide (dest f = x)) as [<-|Hx].
        -- rewrite lookup_insert_eq. intros [= <-]. right. by left.
        -- rewrite lookup_insert_ne by done. intros Hd.
           destruct (ei_pending0 _ _ Hd); [by left|right; by right].
      * intros k x [[= -> ->]|Hk]%elem_of_cons.
        -- rewrite lookup_insert_eq. eauto with lia.
        -- destruct (ei_pq0 _ _ Hk) as (t & Ht & Hle).
           destruct (decide (dest f = x)) as [<-|Hx].
           ++ rewrite lookup_insert_eq. specialize (Himp _ Ht). eauto with lia.
           ++ rewrite lookup_insert_ne by done. eauto.
      * intros k x _ _. apply Hexp.
      * intros u Hu. destruct (ei_visited0 _ Hu) as (tu & Htu & Hle).
        exists tu. split.
        -- rewrite lookup_insert_ne; [done|]. intros E. by rewrite E in Hnv.
        -- intros k x [[= -> ->]|Hk]%elem_of_cons; [|by eapply Hle].
           pose proof (ee_bound _ _ _ _ Hexp _ _ Hu Htu). lia.
      * intros u f' tu Hu Hud Hf' Ho Hnin.
        rewrite lookup_insert_ne by (intros E; by rewrite E in Hnv).
        intros Hdu Hth. destruct (decide (f' = f)) as [->|Hne].
        -- exists (arrive f). by rewrite lookup_insert_eq.
        -- destruct (ei_closed0 u f' tu) as (tv & Htv & Hle); try done.
           { rewrite elem_of_cons. intros [?|?]; done. }
           destruct (decide (dest f = dest f')) as [E|E].
           ++ rewrite <- E, lookup_insert_eq. rewrite <- E in Htv.
              specialize (Himp _ Htv). eauto with lia.
           ++ rewrite lookup_insert_ne by done. eauto.
    + destruct Hexp. split; simpl; try done.
      * by rewrite lookup_insert_ne.
      * intros v tv Hv. rewrite lookup_insert_ne; [by apply ee_bound0|].
        intros E. by rewrite E in Hnv.
Qed.

Lemma earliest_relax_visited start cur a st f :
  Earliest.visited (Earliest.relax start cur a st f) = Earliest.visited st.
Proof.
  by destruct (earliest_relax_cases start cur a st f) as [[-> _]|(_ & _ & ->)].
Qed.

Lemma earliest_fold_visited start cur a todo : forall st,
  Earliest.visited (fold_left (Earliest.relax start cur a) todo st)
  = Earliest.visited st.
Proof.
  induction todo as [|f todo IH]; intros st; simpl; [done|].
  by rewrite IH, earliest_relax_visited.
Qed.

Lemma earliest_fold_inv sched start dst t0 airport cur todo : forall st,
  Forall (fun f => valid_times f /\ f ∈ sched /\ origin f = airport) todo ->
  earliest_inv sched start dst t0 st todo ->
  earliest_expanding start st airport cur ->
  earliest_inv sched start dst t0
    (fold_left (Earliest.relax start cur airport) todo st) [].
Proof.
  induction todo as [|f todo IH]; intros st Hall Hinv Hexp; simpl; [done|].
  apply Forall_cons in Hall as [(Hv & Hs & Ho) Hall].
  destruct (earliest_relax_inv _ _ _ _ _ _ _ _ _ Hv Hs Ho Hinv Hexp).
  by apply IH.
Qed.

Lemma earliest_init_inv sched start dst t0 :
  earliest_inv sched start dst t0 (Earliest.init start t0) [].
Proof.
  split; simpl; try done.
  - by rewrite lookup_singleton_eq.
  - intros x t [-> ->]%lookup_singleton_Some. by left.
  - intros x t [-> ->]%lookup_singleton_Some. done.
  - intros x t [-> ->]%lookup_singleton_Some. right. by left.
  - intros k x [= -> ->]%list_elem_of_singleton.
    exists t0. by rewrite lookup_singleton_eq.
  - intros k x [= -> ->]%list_elem_of_singleton. done.
Qed.

(** One turn of the loop, started in a state that satisfies the invariant and
    has not finalized [dst]. *)
Lemma earliest_step_inv sched start dst t0 st :
  Forall valid_times sched ->
  earliest_inv sched start dst t0 st [] -> dst ∉ Earliest.visited st ->
  match Earliest.step (build_graph sched) start dst st with
  | QueueEmpty => Earliest.pq st = []
  | Stale st' =>
      earliest_inv sched start dst t0 st' [] /\ dst ∉ Earliest.visited st'
  | AtDest k a st' =>
      a = dst /\ earliest_inv sched start dst t0 st' [] /\
      Earliest.prev st' = Earliest.prev st /\
      Earliest.dist st' = Earliest.dist st /\
      Earliest.dist st !! dst = Some k /\
      (start <> dst -> start ∈ Earliest.visited st) /\
      forall x t, Earliest.dist st !! x = Some t -> x ∉ Earliest.visited st -> k <= t
  | Expanded k a st' =>
      earliest_inv sched start dst t0 st' [] /\ dst ∉ Earliest.visited st'
  end.
Proof.
  intros Hval Hinv Hdst. unfold Earliest.step.
  destruct (heappop Earliest.entry_lt (Earliest.pq st)) as [[[k a] pq']|] eqn:Hpop;
    [|by apply heappop_none in Hpop].
  pose proof (heappop_perm _ _ _ _ Hpop) as Hperm.
  pose proof (heappop_least _ fst earliest_entry_lt_key earliest_entry_nlt_key
                _ _ _ Hpop) as Hleast. simpl in Hleast.
  assert (Hsub : forall e, e ∈ pq' -> e ∈ Earliest.pq st).
  { intros e He. rewrite Hperm. by right. }
  assert (Hpend : forall x t, Earliest.dist st !! x = Some t ->
            x ∈ Earliest.visited st \/ x = a \/ (t, x) ∈ pq').
  { intros x t Hd. destruct (ei_pending _ _ _ _ _ _ Hinv _ _ Hd) as [?|Hq]; [by left|].
    rewrite Hperm in Hq. apply elem_of_cons in Hq as [[= -> ->]|Hq]; auto. }
  case_decide as Hvis.
  - (* stale entry *)
    split; [|done]. destruct Hinv. split; simpl; try done.
    + intros x t Hd. destruct (Hpend _ _ Hd) as [?|[->|?]]; auto.
    + intros k' x Hk. apply ei_pq0. by apply Hsub.
    + intros k' x Hk. apply (ei_pq_start0 k'). by apply Hsub.
    + intros u Hu. destruct (ei_visited0 _ Hu) as (tu & ? & Hle).
      exists tu. split; [done|]. intros k' x Hk. apply (Hle k' x). by apply Hsub.
  - (* the airport is finalized *)
    assert (Hka : (k, a) ∈ Earliest.pq st) by (rewrite Hperm; by left).
    assert (Hda : Earliest.dist st !! a = Some k).
    { destruct (ei_pq _ _ _ _ _ _ Hinv _ _ Hka) as (t & Ht & Hle).
      destruct (ei_pending _ _ _ _ _ _ Hinv _ _ Ht) as [?|Hq]; [done|].
      specialize (Hleast _ Hq). simpl in Hleast.
      by replace k with t by lia. }
    set (st1 := Earliest.mkState (Earliest.dist st) (Earliest.prev st) pq'
                  ({[a]} ∪ Earliest.visited st)).
    assert (Hinv1 : forall todo, (forall f, f ∈ sched -> origin f = a -> a <> dst -> f ∈ todo) ->
              earliest_inv sched start dst t0 st1 todo).
    { intros todo Htodo. destruct Hinv. split; simpl; try done.
      - intros x f Hp. destruct (ei_prev0 _ _ Hp) as (? & ? & ? & ? & ?).
        repeat split; try done. set_solver.
      - intros x t Hd. destruct (Hpend _ _ Hd) as [?|[->|?]]; [left|left|right];
          set_solver.
      - intros k' x Hk. apply ei_pq0. by apply Hsub.
      - intros k' x Hk Hx. apply elem_of_union_r, (ei_pq_start0 k' x); [|done].
        by apply Hsub.
      - intros u [->%elem_of_singleton|Hu]%elem_of_union.
        + exists k. split; [done|]. intros k' x Hk.
          apply (Hleast (k', x)). by apply Hsub.
        + destruct (ei_visited0 _ Hu) as (tu & ? & Hle).
          exists tu. split; [done|]. intros k' x Hk. apply (Hle k' x). by apply Hsub.
      - intros u f tu [->%elem_of_singleton|Hu]%elem_of_union Hud Hf Ho Hnin.
        + destruct Hnin. by apply Htodo.
        + apply ei_closed0; try done. apply not_elem_of_nil. }
    case_decide as Hd.
    + (* it is the destination *)
      subst a. split; [done|]. split; [by apply Hinv1|]. do 3 (split; [done|]).
      split; [intros Hs; by apply (ei_pq_start _ _ _ _ _ _ Hinv k dst)|].
      intros x t Hx Hnv. destruct (Hpend _ _ Hx) as [?|[->|Hq]]; [done|..].
      * rewrite Hda in Hx. injection Hx as <-. lia.
      * apply (Hleast (t, x)). by apply Hsub.
    + (* its outbound flights are relaxed *)
      split.
      * apply earliest_fold_inv.
        -- rewrite graph_get_build. apply Forall_forall.
           intros f [Ho Hf]%list_elem_of_filter. split; [|done].
           rewrite Forall_forall in Hval. by apply Hval.
        -- apply Hinv1. intros f Hf Ho _. rewrite graph_get_build.
           by apply list_elem_of_filter.
        -- split; simpl.
           ++ set_solver.
           ++ destruct (decide (a = start)) as [->|Hs]; [set_solver|].
              apply elem_of_union_r. by apply (ei_pq_start _ _ _ _ _ _ Hinv k a).
           ++ done.
           ++ intros v tv [->%elem_of_singleton|Hv]%elem_of_union Hdv.
              ** rewrite Hda in Hdv. injection Hdv as <-. lia.
              ** destruct (ei_visited _ _ _ _ _ _ Hinv _ Hv) as (tu & Htu & Hle).
                 rewrite Htu in Hdv. injection Hdv as <-. by apply (Hle k a).
      * rewrite earliest_fold_visited. simpl. set_solver.
Qed.

(** ** Soundness, optimality and completeness of the earliest-arrival search *)

Lemma threshold_le start a t : threshold start a t <= t + MIN_LAYOVER_MINUTES.
Proof. unfold threshold, MIN_LAYOVER_MINUTES. case_decide; lia. Qed.

(** A feasible continuation that leaves the finalized region passes through a
    pending airport whose label is no later than its own arrival. *)
Lemma earliest_walk sched start dst t0 st :
  Forall valid_times sched ->
  earliest_inv sched start dst t0 st [] -> dst ∉ Earliest.visited st ->
  forall p a thr ta,
    a ∈ Earliest.visited st -> Earliest.dist st !! a = Some ta ->
    threshold start a ta <= thr -> legs_ok sched a thr p ->
    end_airport a p ∉ Earliest.visited st ->
    exists x tx f, (x ∉ Earliest.visited st) /\ Earliest.dist st !! x = Some tx /\
                   last p = Some f /\ tx <= arrive f.
Proof.
  intros Hval Hinv Hdst.
  induction p as [|f p IH]; intros a thr ta Ha Hta Hthr Hp Hend; [done|].
  destruct Hp as (Hf & Ho & Hdep & Hp). rewrite end_airport_cons in Hend.
  destruct (ei_closed _ _ _ _ _ _ Hinv a f ta) as (tv & Htv & Hle); try done.
  { intros ->. done. }
  { apply not_elem_of_nil. }
  { lia. }
  destruct (decide (dest f ∈ Earliest.visited st)) as [Hv|Hv].
  - destruct (IH (dest f) (arrive f + MIN_LAYOVER_MINUTES) tv)
      as (x & tx & g & ? & ? & Hl & ?); try done.
    { pose proof (threshold_le start (dest f) tv). lia. }
    exists x, tx, g. repeat split; try done.
    rewrite last_cons, Hl. done.
  - destruct (last p) as [g|] eqn:Hl.
    + exists (dest f), tv, g. repeat split; try done.
      { by rewrite last_cons, Hl. }
      pose proof (legs_ok_last_depart _ _ _ _ _ Hval Hp Hl) as Hg.
      assert (Hgs : g ∈ sched).
      { eapply legs_ok_sched; [exact Hp|]. apply last_Some in Hl as [l' ->].
        apply elem_of_app. right. by left. }
      rewrite Forall_forall in Hval. specialize (Hval _ Hgs).
      unfold valid_times, MIN_LAYOVER_MINUTES in *. lia.
    + exists (dest f), tv, f. repeat split; try done.
      by rewrite last_cons, Hl.
Qed.

Lemma earliest_lower_bound sched start dst t0 st p :
  Forall valid_times sched ->
  earliest_inv sched start dst t0 st [] -> dst ∉ Earliest.visited st ->
  start ∈ Earliest.visited st -> feasible sched start dst t0 p ->
  exists x tx f, (x ∉ Earliest.visited st) /\ Earliest.dist st !! x = Some tx /\
                 last p = Some f /\ tx <= arrive f.
Proof.
  intros Hval Hinv Hdst Hs (Hne & Hp & He)%feasible_legs_ok.
  apply (earliest_walk _ _ _ _ _ Hval Hinv Hdst p start t0 t0); try done.
  - apply Hinv.
  - unfold threshold. by rewrite decide_True.
  - by rewrite He.
Qed.

(** Every labelled airport has a predecessor chain; it is a feasible sequence
    of flights from [start] that arrives at the label. *)
Lemma earliest_chain_exists sched start dst t0 st todo :
  Forall valid_times sched -> earliest_inv sched start dst t0 st todo ->
  forall x t, Earliest.dist st !! x = Some t ->
  exists p, chain (Earliest.prev st) x p /\ legs_ok sched start t0 p /\
            end_airport start p = x /\
            end_threshold t0 p = threshold start x t /\
            (x <> start -> exists f, last p = Some f /\ arrive f = t).
Proof.
  intros Hval Hinv.
  assert (forall (n : nat) x t, (Z.to_nat (t - t0) < n)%nat ->
            Earliest.dist st !! x = Some t ->
            exists p, chain (Earliest.prev st) x p /\ legs_ok sched start t0 p /\
              end_airport start p = x /\
              end_threshold t0 p = threshold start x t /\
              (x <> start -> exists f, last p = Some f /\ arrive f = t)) as H;
    [|intros x t; apply (H (S (Z.to_nat (t - t0)))); lia].
  induction n as [|n IH]; intros x t Hn Hx; [lia|].
  destruct (decide (x = start)) as [->|Hxs].
  - exists []. rewrite (ei_start_dist _ _ _ _ _ _ Hinv) in Hx. injection Hx as <-.
    repeat split; try done.
    + constructor. apply Hinv.
    + unfold threshold. by rewrite decide_True.
  - destruct (ei_labelled _ _ _ _ _ _ Hinv _ _ Hx) as [?|[f Hf]]; [done|].
    destruct (ei_prev _ _ _ _ _ _ Hinv _ _ Hf) as (Hs & Hd & Hdx & Hov & tu & Htu & Hthr).
    rewrite Hx in Hdx. injection Hdx as ->.
    pose proof (ei_ge _ _ _ _ _ _ Hinv _ _ Htu) as Hge.
    pose proof (threshold_ge start (origin f) tu) as Hge'.
    rewrite Forall_forall in Hval. pose proof (Hval _ Hs) as Hvf.
    unfold valid_times in Hvf.
    destruct (IH (origin f) tu) as (p & Hc & Hp & He & Het & _); [lia|done|].
    exists (p ++ [f]). repeat split.
    + by constructor.
    + apply legs_ok_snoc; try done. lia.
    + by rewrite end_airport_snoc.
    + rewrite end_threshold_snoc. unfold threshold. by rewrite decide_False.
    + intros _. exists f. by rewrite last_snoc.
Qed.

Lemma earliest_loop_mono g start dst : forall n m st r,
  Earliest.loop n m g start dst st = r -> r <> OutOfFuel ->
  forall n' m', (n <= n')%nat -> (m <= m')%nat ->
  Earliest.loop n' m' g start dst st = r.
Proof.
  induction n as [|n IH]; intros m st r Hr Hne n' m' Hn Hm; simpl in Hr.
  - congruence.
  - destruct n' as [|n']; [lia|]. simpl.
    destruct (Earliest.step g start dst st) as [|st'|k a' st'|k a st'].
    + done.
    + apply (IH m); [done|done|lia|done].
    + destruct (reconstruct_itinerary m (Earliest.prev st') dst) as [it|] eqn:Hrec.
      * by rewrite (reconstruct_itinerary_mono _ _ _ _ _ Hrec Hm).
      * congruence.
    + apply (IH m); [done|done|lia|done].
Qed.

Lemma earliest_loop_sound sched start dst t0 :
  start <> dst -> Forall valid_times sched ->
  forall n m st,
    earliest_inv sched start dst t0 st [] -> dst ∉ Earliest.visited st ->
    match Earliest.loop n m (build_graph sched) start dst st with
    | OutOfFuel => True
    | NoItinerary => forall p, ~ feasible sched start dst t0 p
    | Found it =>
        feasible sched start dst t0 (flights it) /\
        forall p, feasible sched start dst t0 p ->
          exists f g, last (flights it) = Some f /\ last p = Some g /\
                      arrive f <= arrive g
    end.
Proof.
  intros Hsd Hval. induction n as [|n IH]; intros m st Hinv Hdst; [done|].
  simpl. pose proof (earliest_step_inv _ _ _ _ _ Hval Hinv Hdst) as Hstep.
  destruct (Earliest.step (build_graph sched) start dst st) as [|st'|k a' st'|k a st'].
  - (* queue exhausted *)
    intros p Hp.
    assert (Hs : start ∈ Earliest.visited st).
    { destruct (ei_pending _ _ _ _ _ _ Hinv _ _ (ei_start_dist _ _ _ _ _ _ Hinv))
        as [?|Hq]; [done|]. rewrite Hstep in Hq. by apply elem_of_nil in Hq. }
    destruct (earliest_lower_bound _ _ _ _ _ _ Hval Hinv Hdst Hs Hp)
      as (x & tx & f & Hx & Hdx & _).
    destruct (ei_pending _ _ _ _ _ _ Hinv _ _ Hdx) as [?|Hq]; [done|].
    rewrite Hstep in Hq. by apply elem_of_nil in Hq.
  - destruct Hstep. by apply IH.
  - (* destination finalized *)
    destruct Hstep as (_ & Hinv' & Hprev & Hdist & Hk & Hs & Hmin).
    destruct (reconstruct_itinerary m (Earliest.prev st') dst) as [it|] eqn:Hrec;
      [|done].
    apply reconstruct_itinerary_inv in Hrec as [Hc _].
    rewrite <- Hdist in Hk.
    destruct (earliest_chain_exists _ _ _ _ _ _ Hval Hinv' _ _ Hk)
      as (p & Hcp & Hp & He & _ & Hl).
    rewrite (chain_det _ _ _ _ Hc Hcp).
    destruct Hl as (f & Hf & Hfa); [done|].
    split.
    + apply legs_ok_feasible; try done. intros ->. done.
    + intros q Hq.
      destruct (earliest_lower_bound _ _ _ _ _ _ Hval Hinv Hdst (Hs Hsd) Hq)
        as (x & tx & g & Hx & Hdx & Hg & Hle).
      exists f, g. repeat split; try done.
      specialize (Hmin _ _ Hdx Hx). lia.
  - destruct Hstep. by apply IH.
Qed.

(** ** Termination of the earliest-arrival search *)

Lemma earliest_relax_pq start cur a st f :
  (length (Earliest.pq (Earliest.relax start cur a st f))
   <= S (length (Earliest.pq st)))%nat.
Proof.
  destruct (earliest_relax_cases start cur a st f) as [[-> _]|(_ & _ & ->)];
    simpl; lia.
Qed.

Lemma earliest_fold_pq start cur a todo : forall st,
  (length (Earliest.pq (fold_left (Earliest.relax start cur a) todo st))
   <= length todo + length (Earliest.pq st))%nat.
Proof.
  induction todo as [|f todo IH]; intros st; simpl; [lia|].
  specialize (IH (Earliest.relax start cur a st f)).
  pose proof (earliest_relax_pq start cur a st f). lia.
Qed.

Lemma filter_unvisited_split (V : gset string) a (l : list Flight) :
  a ∉ V ->
  (length (filter (fun f => origin f ∉ {[a]} ∪ V) l)
   + length (filter (fun f => origin f = a) l)
   = length (filter (fun f => origin f ∉ V) l))%nat.
Proof.
  intros Ha. induction l as [|f l IH]; [done|].
  rewrite !filter_cons.
  destruct (decide (origin f = a)) as [E|E].
  - rewrite decide_False by set_solver. rewrite decide_True by set_solver.
    simpl. lia.
  - destruct (decide (origin f ∈ V)).
    + rewrite decide_False by set_solver. rewrite decide_False by set_solver. done.
    + rewrite decide_True by set_solver. rewrite decide_True by set_solver.
      simpl. lia.
Qed.

Lemma earliest_step_visited g start dst st :
  match Earliest.step g start dst st with
  | QueueEmpty => True
  | Stale st' => Earliest.visited st' = Earliest.visited st
  | AtDest _ a st' | Expanded _ a st' =>
      (a ∉ Earliest.visited st) /\
      Earliest.visited st' = {[a]} ∪ Earliest.visited st
  end.
Proof.
  unfold Earliest.step.
  destruct (heappop _ _) as [[[k a] pq']|]; [|done].
  repeat case_decide; try done.
  by rewrite earliest_fold_visited.
Qed.

Lemma earliest_step_measure sched start dst st :
  match Earliest.step (build_graph sched) start dst st with
  | Stale st' | Expanded _ _ st' =>
      (earliest_measure sched st' < earliest_measure sched st)%nat
  | _ => True
  end.
Proof.
  unfold Earliest.step, earliest_measure.
  destruct (heappop _ _) as [[[k a] pq']|] eqn:Hpop; [|done].
  apply heappop_length in Hpop. repeat case_decide; try done.
  - simpl. lia.
  - rewrite earliest_fold_visited. simpl.
    match goal with |- context [fold_left ?f ?l ?s] =>
      pose proof (earliest_fold_pq start k a l s) as Hq end.
    simpl in Hq. rewrite graph_get_build in Hq |- *.
    pose proof (filter_unvisited_split (Earliest.visited st) a sched) as Hs.
    rewrite Hpop. specialize (Hs ltac:(done)). lia.
Qed.

Lemma earliest_measure_init sched start t0 :
  (earliest_measure sched (Earliest.init start t0) <= S (length sched))%nat.
Proof.
  unfold earliest_measure, Earliest.init.
  cbn [Earliest.pq Earliest.visited length Nat.add].
  apply le_n_S, length_filter.
Qed.

Lemma earliest_loop_total sched start dst t0 :
  Forall valid_times sched ->
  forall n m st,
    earliest_inv sched start dst t0 st [] -> dst ∉ Earliest.visited st ->
    (earliest_measure sched st < n)%nat -> (length sched <= m)%nat ->
    Earliest.loop n m (build_graph sched) start dst st <> OutOfFuel.
Proof.
  intros Hval. induction n as [|n IH]; intros m st Hinv Hdst Hn Hm; [lia|].
  simpl. pose proof (earliest_step_inv _ _ _ _ _ Hval Hinv Hdst) as Hstep.
  pose proof (earliest_step_measure sched start dst st) as Hmu.
  destruct (Earliest.step (build_graph sched) start dst st) as [|st'|k a' st'|k a st'].
  - done.
  - destruct Hstep. apply IH; [done|done|lia|done].
  - destruct Hstep as (_ & Hinv' & Hprev & Hdist & Hk & _).
    rewrite <- Hdist in Hk.
    destruct (earliest_chain_exists _ _ _ _ _ _ Hval Hinv' _ _ Hk)
      as (p & Hcp & Hp & _).
    rewrite (reconstruct_itinerary_chain _ _ p); [done|done|].
    pose proof (legs_ok_length _ _ _ _ Hval Hp). lia.
  - destruct Hstep. apply IH; [done|done|lia|done].
Qed.

Lemma feasible_respects sched start dst t0 p :
  feasible sched start dst t0 p -> respects_layovers t0 p.
Proof.
  intros [_ Hf Hc _]. split; [|done]. intros f Hh. by destruct (Hf f Hh).
Qed.

Lemma valid_flight_times sched :
  Forall valid_flight sched -> Forall valid_times sched.
Proof. intros H. eapply Forall_impl; [exact H|]. by intros f [? _]. Qed.

(** C2, restricted to [start <> dst]: for a schedule of valid flights the
    earliest-arrival search ends; an itinerary it returns is a feasible
    itinerary of the schedule from [start] to [dst] (first leg no earlier than
    the requested time, legs connected, layovers of at least 60 minutes) whose
    arrival time is the least among all feasible itineraries; and it returns no
    result only when no feasible itinerary exists. *)
Theorem earliest_search_correct sched start dst t0 :
  Forall valid_times sched -> start <> dst ->
  earliest_claim sched start dst t0 /\
  (forall it,
     returns (fun n => find_earliest_itinerary n (build_graph sched) start dst t0)
             (Found it) ->
     feasible sched start dst t0 (flights it)) /\
  (exists r,
     returns (fun n => find_earliest_itinerary n (build_graph sched) start dst t0) r).
Proof.
  intros Hval Hsd.
  assert (Hsound : forall n,
    match find_earliest_itinerary n (build_graph sched) start dst t0 with
    | OutOfFuel => True
    | NoItinerary => forall p, ~ feasible sched start dst t0 p
    | Found it =>
        feasible sched start dst t0 (flights it) /\
        forall p, feasible sched start dst t0 p ->
          exists f g, last (flights it) = Some f /\ last p = Some g /\
                      arrive f <= arrive g
    end).
  { intros n. apply (earliest_loop_sound sched start dst t0 Hsd Hval n n).
    - apply earliest_init_inv.
    - simpl. set_solver. }
  split; [split|split].
  - intros it [_ [n Hn]]. specialize (Hsound n). rewrite Hn in Hsound.
    destruct Hsound as [Hf Hmin]. split; [by eapply feasible_respects|].
    intros p Hp. destruct (Hmin p Hp) as (f & g & Hlf & Hlg & Hle).
    exists (arrive f), (arrive g). unfold arrive_time. simpl.
    by rewrite Hlf, Hlg.
  - intros [_ [n Hn]]. specialize (Hsound n). by rewrite Hn in Hsound.
  - intros it [_ [n Hn]]. specialize (Hsound n). rewrite Hn in Hsound.
    by destruct Hsound.
  - exists (find_earliest_itinerary (S (S (length sched))) (build_graph sched)
              start dst t0).
    split; [|by eexists].
    apply (earliest_loop_total sched start dst t0 Hval).
    + apply earliest_init_inv.
    + simpl. set_solver.
    + pose proof (earliest_measure_init sched start t0). lia.
    + lia.
Qed.

(** ** The cheapest-fare search keeps its invariant *)

Lemma price_nonneg f c : valid_fares f -> 0 <= price f c.
Proof. intros (? & ? & ?). by destruct c. Qed.

Lemma cheapest_relax_cases start cabin cost arr a st f :
  (Cheapest.relax start cabin cost arr a st f = st /\
   (~ threshold start a arr <= depart f \/
    exists d, Cheapest.dist st !! dest f = Some d /\ d <= cost + price f cabin))
  \/ (threshold start a arr <= depart f /\
      (forall d, Cheapest.dist st !! dest f = Some d -> cost + price f cabin < d) /\
      Cheapest.relax start cabin cost arr a st f =
      Cheapest.mkState (<[dest f := cost + price f cabin]> (Cheapest.dist st))
        (<[dest f := f]> (Cheapest.prev st))
        ((cost + price f cabin, arrive f, dest f) :: Cheapest.pq st)
        (Cheapest.visited st)).
Proof.
  unfold Cheapest.relax. fold (threshold start a arr).
  case_bool_decide as Hel; [|left; auto].
  destruct (Cheapest.dist st !! dest f) as [d|] eqn:Hd.
  - case_bool_decide as Himp.
    + right. split; [done|]. split; [|done]. by intros ? [= <-].
    + left. split; [done|]. right. exists d. split; [done|lia].
  - right. split; [done|]. split; [|done]. intros ? [=].
Qed.

Lemma cheapest_chain_le sched start st x p :
  cheapest_inv sched start st -> chain (Cheapest.prev st) x p ->
  forall tx, Cheapest.dist st !! x = Some tx ->
  forall g, g ∈ p ->
    exists tg, Cheapest.dist st !! origin g = Some tg /\ tg <= tx.
Proof.
  intros Hinv. induction 1 as [x Hx|x f p Hx Hp IH]; intros tx Htx g Hg.
  - by apply elem_of_nil in Hg.
  - destruct (ci_prev _ _ _ Hinv _ _ Hx) as (_ & _ & tv & tu & Htv & Htu & Hle).
    rewrite Htx in Htv. injection Htv as <-.
    apply elem_of_app in Hg as [Hg| ->%list_elem_of_singleton]; [|eauto].
    destruct (IH _ Htu _ Hg) as (tg & ? & ?). exists tg. split; [done|lia].
Qed.

Lemma cheapest_relax_inv sched start cabin cost arr airport st f tu :
  valid_fares f -> f ∈ sched -> origin f = airport -> 0 <= cost ->
  Cheapest.dist st !! airport = Some tu -> tu <= cost ->
  cheapest_inv sched start st ->
  cheapest_inv sched start (Cheapest.relax start cabin cost arr airport st f) /\
  Cheapest.dist (Cheapest.relax start cabin cost arr airport st f) !! airport
  = Some tu.
Proof.
  intros Hval Hin Horg Hcost Hda Htu Hinv.
  destruct (cheapest_relax_cases start cabin cost arr airport st f)
    as [[-> _]|(_ & Himp & ->)]; [done|].
  pose proof (price_nonneg f cabin Hval) as Hp.
  assert (Hns : dest f <> start).
  { intros Hs. pose proof (ci_start_dist _ _ _ Hinv) as H0.
    rewrite <- Hs in H0. specialize (Himp _ H0). lia. }
  assert (Hna : dest f <> airport).
  { intros Ha. rewrite <- Ha in Hda. specialize (Himp _ Hda). lia. }
  simpl. split; [|by rewrite lookup_insert_ne].
  destruct (ci_chain _ _ _ Hinv airport) as [pa Hpa].
  assert (Hpa' : chain (<[dest f := f]> (Cheapest.prev st)) airport pa).
  { apply chain_insert_avoid; [done|done|]. intros g Hg Hov.
    destruct (cheapest_chain_le _ _ _ _ _ Hinv Hpa _ Hda _ Hg) as (tg & Htg & Hle).
    rewrite Hov in Htg. specialize (Himp _ Htg). lia. }
  destruct Hinv. split; simpl.
  - by rewrite lookup_insert_ne.
  - by rewrite lookup_insert_ne.
  - intros x f0. destruct (decide (dest f = x)) as [<-|Hx].
    + rewrite lookup_insert_eq. intros [= <-]. do 2 (split; [done|]).
      exists (cost + price f cabin), tu. rewrite lookup_insert_eq.
      rewrite Horg, lookup_insert_ne by done. repeat split; [done|lia].
    + rewrite !lookup_insert_ne by done. intros Hpx.
      destruct (ci_prev0 _ _ Hpx) as (? & ? & tv & tu0 & Htv & Htu0 & Hle).
      do 2 (split; [done|]).
      destruct (decide (dest f = origin f0)) as [E|E].
      * exists tv, (cost + price f cabin). rewrite <- E, lookup_insert_eq.
        rewrite <- E in Htu0. specialize (Himp _ Htu0). repeat split; [done|lia].
      * exists tv, tu0. by rewrite lookup_insert_ne.
  - intros x t. destruct (decide (dest f = x)) as [<-|Hx].
    + intros _. right. by rewrite lookup_insert_eq.
    + rewrite !lookup_insert_ne by done. apply ci_labelled0.
  - intros c t x [[= -> -> ->]|Hk]%elem_of_cons.
    + split; [lia|]. rewrite lookup_insert_eq. eauto with lia.
    + destruct (ci_pq0 _ _ _ Hk) as (? & tx & Htx & Hle). split; [done|].
      destruct (decide (dest f = x)) as [<-|Hx].
      * rewrite lookup_insert_eq. specialize (Himp _ Htx). eauto with lia.
      * rewrite lookup_insert_ne by done. eauto.
  - intros x. destruct (ci_chain0 x) as [p Hp0].
    rewrite <- Horg in Hpa'. by eapply chain_insert_all.
Qed.

Lemma cheapest_fold_inv sched start cabin cost arr airport tu todo : forall st,
  Forall (fun f => valid_fares f /\ f ∈ sched /\ origin f = airport) todo ->
  0 <= cost -> Cheapest.dist st !! airport = Some tu -> tu <= cost ->
  cheapest_inv sched start st ->
  cheapest_inv sched start
    (fold_left (Cheapest.relax start cabin cost arr airport) todo st).
Proof.
  induction todo as [|f todo IH]; intros st Hall Hc Hd Htu Hinv; simpl; [done|].
  apply Forall_cons in Hall as [(Hv & Hs & Ho) Hall].
  destruct (cheapest_relax_inv _ start cabin _ arr _ _ _ _ Hv Hs Ho Hc Hd Htu Hinv).
  by apply IH.
Qed.

Lemma cheapest_init_inv sched start t0 :
  cheapest_inv sched start (Cheapest.init start t0).
Proof.
  split; simpl; try done.
  - by rewrite lookup_singleton_eq.
  - intros x t [-> _]%lookup_singleton_Some. by left.
  - intros c t x [= ? ? ?]%list_elem_of_singleton. subst. split; [done|].
    exists 0. by rewrite lookup_singleton_eq.
  - intros x. exists []. by constructor.
Qed.

Lemma cheapest_step_inv sched start dst cabin st :
  Forall valid_fares sched -> cheapest_inv sched start st ->
  forall st', result_state (Cheapest.step (build_graph sched) start dst cabin st)
              = Some st' ->
  cheapest_inv sched start st'.
Proof.
  intros Hval Hinv st'. unfold Cheapest.step.
  destruct (heappop Cheapest.entry_lt (Cheapest.pq st)) as [[[[c t] a] pq']|] eqn:Hpop;
    [|done].
  pose proof (heappop_perm _ _ _ _ Hpop) as Hperm.
  assert (Hsub : forall e, e ∈ pq' -> e ∈ Cheapest.pq st).
  { intros e He. rewrite Hperm. by right. }
  assert (Hinv1 : forall V,
            cheapest_inv sched start
              (Cheapest.mkState (Cheapest.dist st) (Cheapest.prev st) pq' V)).
  { intros V. destruct Hinv. split; simpl; try done.
    intros c' t' x Hk. apply (ci_pq0 c' t' x). by apply Hsub. }
  destruct (ci_pq _ _ _ Hinv c t a) as (Hc & tu & Htu & Hle).
  { rewrite Hperm. by left. }
  repeat case_decide; simpl; intros [= <-]; try done.
  eapply cheapest_fold_inv; try done.
  rewrite graph_get_build. apply Forall_forall.
  intros f [Ho Hf]%list_elem_of_filter. split; [|done].
  rewrite Forall_forall in Hval. by apply Hval.
Qed.

(** ** What the loop turns finalize and relax *)

(** The outcome of a run is decided by its last loop turn. *)
Lemma earliest_loop_steps g start dst m : forall n st,
  Earliest.loop n m g start dst st =
  match last (Earliest.steps n g start dst st) with
  | Some QueueEmpty => NoItinerary
  | Some (AtDest _ _ st') =>
      match reconstruct_itinerary m (Earliest.prev st') dst with
      | Some it => Found it
      | None => OutOfFuel
      end
  | _ => OutOfFuel
  end.
Proof.
  induction n as [|n IH]; intros st; [done|]. simpl.
  destruct (Earliest.step g start dst st) as [|st'|k a st'|k a st'] eqn:E; try done.
  - rewrite IH. by destruct n.
  - rewrite IH. by destruct n.
Qed.

Lemma cheapest_loop_steps g start dst cabin m : forall n st,
  Cheapest.loop n m g start dst cabin st =
  match last (Cheapest.steps n g start dst cabin st) with
  | Some QueueEmpty => NoItinerary
  | Some (AtDest _ _ st') =>
      match reconstruct_itinerary m (Cheapest.prev st') dst with
      | Some it => Found it
      | None => OutOfFuel
      end
  | _ => OutOfFuel
  end.
Proof.
  induction n as [|n IH]; intros st; [done|]. simpl.
  destruct (Cheapest.step g start dst cabin st) as [|st'|k a st'|k a st'] eqn:E;
    try done.
  - rewrite IH. by destruct n.
  - rewrite IH. by destruct n.
Qed.

(** In the earliest-arrival search the finalized airports are pairwise
    distinct, and the relaxed flights are outbound flights of distinct
    airports. *)
Lemma earliest_steps_once sched start dst : forall n st,
  let l := Earliest.steps n (build_graph sched) start dst st in
  NoDup (finalized l).*1 /\
  (forall a, a ∈ (finalized l).*1 -> a ∉ Earliest.visited st) /\
  (relaxations (build_graph sched) l
   <= length (filter (fun f => origin f ∉ Earliest.visited st) sched))%nat /\
  (length l <= S (earliest_measure sched st))%nat.
Proof.
  induction n as [|n IH]; intros st; simpl.
  { unfold finalized, relaxations. simpl.
    repeat split; [apply NoDup_nil_2|by intros a ?%elem_of_nil|lia..]. }
  pose proof (earliest_step_visited (build_graph sched) start dst st) as Hv.
  pose proof (earliest_step_measure sched start dst st) as Hm.
  destruct (Earliest.step (build_graph sched) start dst st)
    as [|st'|k a st'|k a st'] eqn:E; unfold finalized, relaxations; simpl.
  - repeat split; [apply NoDup_nil_2|by intros a ?%elem_of_nil|lia..].
  - destruct (IH st') as (Hnd & Hnv & Hrel & Hlen). rewrite Hv in Hnv, Hrel.
    repeat split; [done|done|done|lia].
  - destruct Hv as [Ha _]. repeat split.
    + apply NoDup_singleton.
    + by intros ? ->%list_elem_of_singleton.
    + lia.
    + lia.
  - destruct Hv as [Ha Hv]. destruct (IH st') as (Hnd & Hnv & Hrel & Hlen).
    rewrite Hv in Hnv, Hrel. repeat split.
    + constructor; [|done]. intros Hin. apply (Hnv _ Hin). set_solver.
    + intros b [->|Hb]%elem_of_cons; [done|]. specialize (Hnv _ Hb). set_solver.
    + rewrite graph_get_build.
      pose proof (filter_unvisited_split (Earliest.visited st) a sched Ha).
      unfold relaxations, fmap in Hrel. lia.
    + lia.
Qed.

Lemma cheapest_relax_visited start cabin cost arr a st f :
  Cheapest.visited (Cheapest.relax start cabin cost arr a st f)
  = Cheapest.visited st.
Proof.
  by destruct (cheapest_relax_cases start cabin cost arr a st f)
    as [[-> _]|(_ & _ & ->)].
Qed.

Lemma cheapest_fold_visited start cabin cost arr a todo : forall st,
  Cheapest.visited (fold_left (Cheapest.relax start cabin cost arr a) todo st)
  = Cheapest.visited st.
Proof.
  induction todo as [|f todo IH]; intros st; simpl; [done|].
  by rewrite IH, cheapest_relax_visited.
Qed.

Lemma cheapest_step_visited g start dst cabin st :
  match Cheapest.step g start dst cabin st with
  | QueueEmpty => True
  | Stale st' => Cheapest.visited st' = Cheapest.visited st
  | AtDest k a st' | Expanded k a st' =>
      ((a, k.1) ∉ Cheapest.visited st) /\
      Cheapest.visited st' = {[(a, k.1)]} ∪ Cheapest.visited st
  end.
Proof.
  unfold Cheapest.step.
  destruct (heappop _ _) as [[[[c t] a] pq']|]; [|done].
  repeat case_decide; try done.
  by rewrite cheapest_fold_visited.
Qed.

(** The (airport, cost) pairs finalized by the cheapest-fare search. *)
Lemma cheapest_steps_once g start dst cabin : forall n st,
  let l := (fun e : string * (Z * Z) => (e.1, e.2.1))
             <$> finalized (Cheapest.steps n g start dst cabin st) in
  NoDup l /\ (forall e, e ∈ l -> e ∉ Cheapest.visited st).
Proof.
  induction n as [|n IH]; intros st; simpl.
  { unfold finalized. simpl. split; [apply NoDup_nil_2|by intros a ?%elem_of_nil]. }
  pose proof (cheapest_step_visited g start dst cabin st) as Hv.
  destruct (Cheapest.step g start dst cabin st)
    as [|st'|k a st'|k a st'] eqn:E; unfold finalized; simpl.
  - split; [apply NoDup_nil_2|by intros a ?%elem_of_nil].
  - destruct (IH st') as (Hnd & Hnv). by rewrite Hv in Hnv.
  - destruct Hv as [Ha _]. split.
    + apply NoDup_singleton.
    + by intros ? ->%list_elem_of_singleton.
  - destruct Hv as [Ha Hv]. destruct (IH st') as (Hnd & Hnv).
    rewrite Hv in Hnv. split.
    + constructor; [|done]. intros Hin. apply (Hnv _ Hin). set_solver.
    + intros b [->|Hb]%elem_of_cons; [done|]. specialize (Hnv _ Hb). set_solver.
Qed.

(** ** Termination of the cheapest-fare search *)

Lemma filter_length_le {A} (P Q : A -> Prop) `{!forall x, Decision (P x)}
    `{!forall x, Decision (Q x)} (l : list A) :
  (forall x, x ∈ l -> P x -> Q x) ->
  (length (filter P l) <= length (filter Q l))%nat.
Proof.
  induction l as [|x l IH]; intros Hpq; [done|].
  rewrite !filter_cons.
  assert (length (filter P l) <= length (filter Q l))%nat as IH'.
  { apply IH. intros y Hy. apply Hpq. by right. }
  destruct (decide (P x)) as [Hp|Hp].
  - rewrite decide_True by (apply Hpq; [by left|done]). simpl. lia.
  - destruct (decide (Q x)); simpl; lia.
Qed.

Lemma filter_length_lt {A} (P Q : A -> Prop) `{!forall x, Decision (P x)}
    `{!forall x, Decision (Q x)} (l : list A) (f : A) :
  (forall x, x ∈ l -> P x -> Q x) -> f ∈ l -> Q f -> ~ P f ->
  (length (filter P l) < length (filter Q l))%nat.
Proof.
  induction l as [|x l IH]; intros Hpq Hf Hq Hp; [by apply elem_of_nil in Hf|].
  rewrite !filter_cons.
  assert (Hl : forall y, y ∈ l -> P y -> Q y) by (intros y Hy; apply Hpq; by right).
  pose proof (filter_length_le P Q l Hl) as Hle.
  apply elem_of_cons in Hf as [<-|Hf].
  - rewrite decide_False by done. rewrite decide_True by done. simpl. lia.
  - specialize (IH Hl Hf Hq Hp). destruct (decide (P x)) as [Hpx|Hpx].
    + rewrite decide_True by (apply Hpq; [by left|done]). simpl. lia.
    + destruct (decide (Q x)); simpl; lia.
Qed.

Lemma cheapest_relax_measure sched start cabin cost arr a st f :
  f ∈ sched ->
  (cheapest_measure sched cabin cost (Cheapest.relax start cabin cost arr a st f)
   <= cheapest_measure sched cabin cost st)%nat.
Proof.
  intros Hf.
  destruct (cheapest_relax_cases start cabin cost arr a st f)
    as [[-> _]|(_ & Himp & ->)]; [done|].
  set (st' := Cheapest.mkState _ _ _ _).
  assert (Hlt : (length (filter (fun g => cheapest_live cabin cost st' g = true) sched)
                 < length (filter (fun g => cheapest_live cabin cost st g = true) sched))%nat).
  { apply (filter_length_lt _ _ sched f); try done.
    - intros g _. unfold cheapest_live, st'. simpl.
      destruct (decide (dest f = dest g)) as [E|E].
      + rewrite <- E, lookup_insert_eq. intros Hg%bool_decide_eq_true.
        destruct (Cheapest.dist st !! dest f) as [d|] eqn:Hd; [|done].
        apply bool_decide_eq_true. specialize (Himp _ eq_refl). lia.
      + by rewrite lookup_insert_ne.
    - unfold cheapest_live.
      destruct (Cheapest.dist st !! dest f) as [d|] eqn:Hd; [|done].
      apply bool_decide_eq_true. by apply Himp.
    - unfold cheapest_live, st'. simpl. rewrite lookup_insert_eq.
      intros Hg%bool_decide_eq_true. lia. }
  unfold cheapest_measure.
  replace (length (Cheapest.pq st')) with (S (length (Cheapest.pq st))) by done.
  lia.
Qed.

Lemma cheapest_fold_measure sched start cabin cost arr a todo : forall st,
  Forall (fun f => f ∈ sched) todo ->
  (cheapest_measure sched cabin cost
     (fold_left (Cheapest.relax start cabin cost arr a) todo st)
   <= cheapest_measure sched cabin cost st)%nat.
Proof.
  induction todo as [|f todo IH]; intros st Hall; simpl; [done|].
  apply Forall_cons in Hall as [Hf Hall].
  specialize (IH (Cheapest.relax start cabin cost arr a st f) Hall).
  pose proof (cheapest_relax_measure sched start cabin cost arr a st f Hf). lia.
Qed.

Lemma cheapest_fold_pq_ge start cabin cost arr a todo : forall st,
  Forall valid_fares todo ->
  (forall e, e ∈ Cheapest.pq st -> cost <= e.1.1) ->
  forall e, e ∈ Cheapest.pq (fold_left (Cheapest.relax start cabin cost arr a) todo st)
            -> cost <= e.1.1.
Proof.
  induction todo as [|f todo IH]; intros st Hall Hge; simpl; [done|].
  apply Forall_cons in Hall as [Hf Hall]. apply IH; [done|].
  destruct (cheapest_relax_cases start cabin cost arr a st f)
    as [[-> _]|(_ & _ & ->)]; [done|].
  simpl. intros e [->|He]%elem_of_cons; [|by apply Hge].
  simpl. pose proof (price_nonneg f cabin Hf). lia.
Qed.

Lemma cheapest_live_mono sched cabin L c st :
  L <= c ->
  (length (filter (fun f => cheapest_live cabin c st f = true) sched)
   <= length (filter (fun f => cheapest_live cabin L st f = true) sched))%nat.
Proof.
  intros Hle. apply filter_length_le. intros f _. unfold cheapest_live.
  destruct (Cheapest.dist st !! dest f); [|done].
  rewrite !bool_decide_eq_true. lia.
Qed.

Lemma cheapest_step_measure sched start dst cabin L st :
  Forall valid_fares sched ->
  (forall e, e ∈ Cheapest.pq st -> L <= e.1.1) ->
  match Cheapest.step (build_graph sched) start dst cabin st with
  | Stale st' | Expanded _ _ st' =>
      exists L', (forall e, e ∈ Cheapest.pq st' -> L' <= e.1.1) /\
        (cheapest_measure sched cabin L' st' < cheapest_measure sched cabin L st)%nat
  | _ => True
  end.
Proof.
  intros Hval Hge. unfold Cheapest.step.
  destruct (heappop Cheapest.entry_lt (Cheapest.pq st)) as [[[[c t] a] pq']|] eqn:Hpop;
    [|done].
  pose proof (heappop_perm _ _ _ _ Hpop) as Hperm.
  pose proof (heappop_least _ (fun e => e.1.1) cheapest_entry_lt_key
                cheapest_entry_nlt_key _ _ _ Hpop) as Hleast. simpl in Hleast.
  pose proof (heappop_length _ _ _ _ Hpop) as Hlen.
  assert (Hsub : forall e, e ∈ pq' -> e ∈ Cheapest.pq st).
  { intros e He. rewrite Hperm. by right. }
  assert (HL : L <= c).
  { apply (Hge (c, t, a)). rewrite Hperm. by left. }
  pose proof (cheapest_live_mono sched cabin L c st HL) as Hlive.
  repeat case_decide; try done.
  - exists c. split; [intros e He; by apply Hleast, Hsub|].
    unfold cheapest_measure, cheapest_live in *. simpl. lia.
  - exists c. split.
    + apply cheapest_fold_pq_ge.
      * rewrite graph_get_build. apply Forall_forall.
        intros f [_ Hf]%list_elem_of_filter.
        rewrite Forall_forall in Hval. by apply Hval.
      * simpl. intros e He. by apply Hleast, Hsub.
    + eapply Nat.le_lt_trans.
      * apply cheapest_fold_measure. rewrite graph_get_build.
        apply Forall_forall. by intros f [_ Hf]%list_elem_of_filter.
      * unfold cheapest_measure, cheapest_live in *. simpl. lia.
Qed.

Lemma cheapest_loop_mono g start dst cabin : forall n m st r,
  Cheapest.loop n m g start dst cabin st = r -> r <> OutOfFuel ->
  forall n' m', (n <= n')%nat -> (m <= m')%nat ->
  Cheapest.loop n' m' g start dst cabin st = r.
Proof.
  induction n as [|n IH]; intros m st r Hr Hne n' m' Hn Hm; simpl in Hr.
  - congruence.
  - destruct n' as [|n']; [lia|]. simpl.
    destruct (Cheapest.step g start dst cabin st) as [|st'|k a' st'|k a st'].
    + done.
    + apply (IH m); [done|done|lia|done].
    + destruct (reconstruct_itinerary m (Cheapest.prev st') dst) as [it|] eqn:Hrec.
      * by rewrite (reconstruct_itinerary_mono _ _ _ _ _ Hrec Hm).
      * congruence.
    + apply (IH m); [done|done|lia|done].
Qed.

Lemma cheapest_loop_total sched start dst cabin :
  Forall valid_fares sched ->
  forall n st L,
    cheapest_inv sched start st ->
    (forall e, e ∈ Cheapest.pq st -> L <= e.1.1) ->
    (cheapest_measure sched cabin L st < n)%nat ->
    exists m, Cheapest.loop n m (build_graph sched) start dst cabin st <> OutOfFuel.
Proof.
  intros Hval. induction n as [|n IH]; intros st L Hinv Hge Hn; [lia|].
  simpl. pose proof (cheapest_step_inv _ start dst cabin _ Hval Hinv) as Hstep.
  pose proof (cheapest_step_measure _ start dst cabin _ _ Hval Hge) as Hmu.
  destruct (Cheapest.step (build_graph sched) start dst cabin st)
    as [|st'|k a' st'|k a st'].
  - by exists 0%nat.
  - destruct Hmu as (L' & Hge' & Hlt). apply (IH st' L'); [by apply Hstep|done|lia].
  - destruct (ci_chain _ _ _ (Hstep st' eq_refl) dst) as [p Hp].
    exists (length p). by rewrite (reconstruct_itinerary_chain _ _ p).
  - destruct Hmu as (L' & Hge' & Hlt). apply (IH st' L'); [by apply Hstep|done|lia].
Qed.

Lemma cheapest_steps_length sched start dst cabin :
  Forall valid_fares sched ->
  forall n st L,
    (forall e, e ∈ Cheapest.pq st -> L <= e.1.1) ->
    (length (Cheapest.steps n (build_graph sched) start dst cabin st)
     <= S (cheapest_measure sched cabin L st))%nat.
Proof.
  intros Hval. induction n as [|n IH]; intros st L Hge; simpl; [lia|].
  pose proof (cheapest_step_measure _ start dst cabin _ _ Hval Hge) as Hmu.
  destruct (Cheapest.step (build_graph sched) start dst cabin st)
    as [|st'|k a' st'|k a st']; simpl; try lia.
  - destruct Hmu as (L' & Hge' & Hlt). specialize (IH st' L' Hge'). lia.
  - destruct Hmu as (L' & Hge' & Hlt). specialize (IH st' L' Hge'). lia.
Qed.

Lemma cheapest_measure_init sched cabin start t0 :
  (cheapest_measure sched cabin 0 (Cheapest.init start t0) <= S (length sched))%nat.
Proof.
  unfold cheapest_measure, Cheapest.init.
  cbn [Cheapest.pq length Nat.add].
  apply le_n_S, length_filter.
Qed.

(** ** The states of a run *)

Lemma earliest_steps_inv sched start dst t0 :
  Forall valid_times sched ->
  forall n st,
    earliest_inv sched start dst t0 st [] -> dst ∉ Earliest.visited st ->
    forall r st', r ∈ Earliest.steps n (build_graph sched) start dst st ->
      result_state r = Some st' -> earliest_inv sched start dst t0 st' [].
Proof.
  intros Hval. induction n as [|n IH]; intros st Hinv Hdst r st' Hr Hst; simpl in Hr.
  { by apply elem_of_nil in Hr. }
  pose proof (earliest_step_inv _ _ _ _ _ Hval Hinv Hdst) as Hstep.
  destruct (Earliest.step (build_graph sched) start dst st)
    as [|st1|k a1 st1|k a st1].
  - apply list_elem_of_singleton in Hr as ->. done.
  - destruct Hstep as [Hi Hd].
    apply elem_of_cons in Hr as [->|Hr]; [by injection Hst as <-|].
    by apply (IH st1 Hi Hd r).
  - apply list_elem_of_singleton in Hr as ->. injection Hst as <-. apply Hstep.
  - destruct Hstep as [Hi Hd].
    apply elem_of_cons in Hr as [->|Hr]; [by injection Hst as <-|].
    by apply (IH st1 Hi Hd r).
Qed.

Lemma cheapest_steps_inv sched start dst cabin :
  Forall valid_fares sched ->
  forall n st,
    cheapest_inv sched start st ->
    forall r st', r ∈ Cheapest.steps n (build_graph sched) start dst cabin st ->
      result_state r = Some st' -> cheapest_inv sched start st'.
Proof.
  intros Hval. induction n as [|n IH]; intros st Hinv r st' Hr Hst; simpl in Hr.
  { by apply elem_of_nil in Hr. }
  pose proof (cheapest_step_inv _ start dst cabin _ Hval Hinv) as Hstep.
  destruct (Cheapest.step (build_graph sched) start dst cabin st)
    as [|st1|k a1 st1|k a st1].
  - apply list_elem_of_singleton in Hr as ->. done.
  - apply elem_of_cons in Hr as [->|Hr]; [by apply Hstep|].
    apply (IH st1 (Hstep _ eq_refl) r); done.
  - apply list_elem_of_singleton in Hr as ->. by apply Hstep.
  - apply elem_of_cons in Hr as [->|Hr]; [by apply Hstep|].
    apply (IH st1 (Hstep _ eq_refl) r); done.
Qed.

Lemma chain_member prev x p f :
  chain prev x p -> f ∈ p -> exists y, prev !! y = Some f.
Proof.
  induction 1 as [x Hx|x g p Hx Hp IH]; intros Hf.
  - by apply elem_of_nil in Hf.
  - apply elem_of_app in Hf as [Hf| ->%list_elem_of_singleton]; eauto.
Qed.

Lemma chain_chains_wf start prev x p :
  chain prev x p -> (forall f, head p = Some f -> origin f = start) ->
  exists q, chain prev x q /\ NoDup (chain_nodes x q) /\
    (forall f, head q = Some f -> origin f = start) /\
    forall n, (length q <= n)%nat ->
      reconstruct_itinerary n prev x = Some (mkItinerary q).
Proof.
  intros Hc Hh. exists p. repeat split; try done.
  - by eapply chain_nodes_NoDup.
  - intros n Hn. by apply reconstruct_itinerary_chain.
Qed.

Lemma earliest_inv_chains_wf sched start dst t0 st :
  Forall valid_times sched -> earliest_inv sched start dst t0 st [] ->
  chains_wf start (Earliest.prev st).
Proof.
  intros Hval Hinv. split; [apply Hinv|]. intros x.
  destruct (Earliest.dist st !! x) as [t|] eqn:Hx.
  - destruct (earliest_chain_exists _ _ _ _ _ _ Hval Hinv _ _ Hx)
      as (p & Hc & Hp & _).
    apply (chain_chains_wf start _ _ p Hc).
    intros f Hh. destruct p as [|g p]; [done|]. injection Hh as ->.
    by destruct Hp as (_ & ? & _).
  - apply (chain_chains_wf start _ _ []); [|done]. constructor.
    destruct (Earliest.prev st !! x) as [f|] eqn:Hp; [|done].
    destruct (ei_prev _ _ _ _ _ _ Hinv _ _ Hp) as (_ & _ & Hd & _). congruence.
Qed.

Lemma cheapest_inv_chains_wf sched start st :
  cheapest_inv sched start st -> chains_wf start (Cheapest.prev st).
Proof.
  intros Hinv. split; [apply Hinv|]. intros x.
  destruct (ci_chain _ _ _ Hinv x) as [p Hc].
  apply (chain_chains_wf start _ _ p Hc). intros f Hh.
  pose proof (chain_head _ _ _ _ Hc Hh) as Hnone.
  destruct (chain_member _ _ _ f Hc) as [y Hy].
  { destruct p; [done|]. injection Hh as ->. by left. }
  destruct (ci_prev _ _ _ Hinv _ _ Hy) as (_ & _ & tv & tu & _ & Htu & _).
  destruct (ci_labelled _ _ _ Hinv _ _ Htu) as [?|[? ?]]; [done|congruence].
Qed.

(** C10: in every working state of both searches over a schedule of valid
    flights the start airport has no predecessor, and from every airport the
    predecessor chain is finite, free of repeated airports and ends at the
    start airport (or is empty, for an unmapped airport), so that the backward
    walk of [reconstruct_itinerary] terminates.  The bound on the requested
    departure time is not needed. *)
Theorem predecessor_chains_wf sched start dst t0 cabin n :
  Forall valid_flight sched ->
  (forall st, st ∈ earliest_states n (build_graph sched) start dst t0 ->
     chains_wf start (Earliest.prev st)) /\
  (forall st, st ∈ cheapest_states n (build_graph sched) start dst t0 cabin ->
     chains_wf start (Cheapest.prev st)).
Proof.
  intros Hval. split.
  - apply valid_flight_times in Hval.
    intros st [->|Hst]%elem_of_cons.
    + apply (earliest_inv_chains_wf sched start dst t0); [done|].
      apply earliest_init_inv.
    + apply list_elem_of_omap in Hst as (r & Hr & Hst).
      apply (earliest_inv_chains_wf sched start dst t0); [done|].
      eapply (earliest_steps_inv _ _ dst t0 Hval n); try done.
      * apply earliest_init_inv.
      * simpl. set_solver.
  - assert (Hf : Forall valid_fares sched).
    { eapply Forall_impl; [exact Hval|]. by intros f [_ ?]. }
    intros st [->|Hst]%elem_of_cons.
    + apply (cheapest_inv_chains_wf sched), cheapest_init_inv.
    + apply list_elem_of_omap in Hst as (r & Hr & Hst).
      apply (cheapest_inv_chains_wf sched).
      eapply (cheapest_steps_inv _ _ dst cabin Hf n); try done.
      apply cheapest_init_inv.
Qed.

(** ** Returned itineraries and the case [start = dst] *)

Lemma earliest_relax_mapped start cur a st f :
  earliest_pq_mapped start st ->
  earliest_pq_mapped start (Earliest.relax start cur a st f).
Proof.
  intros Hm.
  destruct (earliest_relax_cases start cur a st f) as [[-> _]|(_ & _ & ->)]; [done|].
  intros k x. simpl. intros [[= -> ->]|Hk]%elem_of_cons.
  - right. by rewrite lookup_insert_eq.
  - destruct (Hm _ _ Hk) as [?|Hs]; [by left|right].
    rewrite lookup_insert_is_Some. destruct (decide (dest f = x)); auto.
Qed.

Lemma earliest_fold_mapped start cur a todo : forall st,
  earliest_pq_mapped start st ->
  earliest_pq_mapped start (fold_left (Earliest.relax start cur a) todo st).
Proof.
  induction todo as [|f todo IH]; intros st Hm; simpl; [done|].
  by apply IH, earliest_relax_mapped.
Qed.

Lemma earliest_loop_nonempty g start dst : start <> dst ->
  forall n m st it,
    earliest_pq_mapped start st ->
    Earliest.loop n m g start dst st = Found it -> flights it <> [].
Proof.
  intros Hsd. induction n as [|n IH]; intros m st it Hm; [done|]. simpl.
  unfold Earliest.step.
  destruct (heappop Earliest.entry_lt (Earliest.pq st)) as [[[k a] pq']|] eqn:Hpop;
    [|done].
  pose proof (heappop_perm _ _ _ _ Hpop) as Hperm.
  assert (Hm' : forall V, earliest_pq_mapped start
            (Earliest.mkState (Earliest.dist st) (Earliest.prev st) pq' V)).
  { intros V k' x Hk. apply (Hm k' x). rewrite Hperm. by right. }
  repeat case_decide.
  - by apply IH.
  - subst a. simpl.
    destruct (reconstruct_itinerary m (Earliest.prev st) dst) as [it'|] eqn:Hrec;
      [|done].
    intros [= <-]. apply reconstruct_itinerary_inv in Hrec as [Hc _].
    destruct (Hm k dst) as [?|[f Hf]]; [rewrite Hperm; by left|done|].
    intros E. rewrite E in Hc. apply chain_nil_inv in Hc. congruence.
  - by apply IH, earliest_fold_mapped.
Qed.

Lemma cheapest_relax_mapped start cabin cost arr a st f :
  cheapest_pq_mapped start st ->
  cheapest_pq_mapped start (Cheapest.relax start cabin cost arr a st f).
Proof.
  intros Hm.
  destruct (cheapest_relax_cases start cabin cost arr a st f)
    as [[-> _]|(_ & _ & ->)]; [done|].
  intros c t x. simpl. intros [[= -> -> ->]|Hk]%elem_of_cons.
  - right. by rewrite lookup_insert_eq.
  - destruct (Hm _ _ _ Hk) as [?|Hs]; [by left|right].
    rewrite lookup_insert_is_Some. destruct (decide (dest f = x)); auto.
Qed.

Lemma cheapest_fold_mapped start cabin cost arr a todo : forall st,
  cheapest_pq_mapped start st ->
  cheapest_pq_mapped start
    (fold_left (Cheapest.relax start cabin cost arr a) todo st).
Proof.
  induction todo as [|f todo IH]; intros st Hm; simpl; [done|].
  by apply IH, cheapest_relax_mapped.
Qed.

Lemma cheapest_loop_nonempty g start dst cabin : start <> dst ->
  forall n m st it,
    cheapest_pq_mapped start st ->
    Cheapest.loop n m g start dst cabin st = Found it -> flights it <> [].
Proof.
  intros Hsd. induction n as [|n IH]; intros m st it Hm; [done|]. simpl.
  unfold Cheapest.step.
  destruct (heappop Cheapest.entry_lt (Cheapest.pq st)) as [[[[c t] a] pq']|] eqn:Hpop;
    [|done].
  pose proof (heappop_perm _ _ _ _ Hpop) as Hperm.
  assert (Hm' : forall V, cheapest_pq_mapped start
            (Cheapest.mkState (Cheapest.dist st) (Cheapest.prev st) pq' V)).
  { intros V c' t' x Hk. apply (Hm c' t' x). rewrite Hperm. by right. }
  repeat case_decide.
  - by apply IH.
  - subst a. simpl.
    destruct (reconstruct_itinerary m (Cheapest.prev st) dst) as [it'|] eqn:Hrec;
      [|done].
    intros [= <-]. apply reconstruct_itinerary_inv in Hrec as [Hc _].
    destruct (Hm c t dst) as [?|[f Hf]]; [rewrite Hperm; by left|done|].
    intros E. rewrite E in Hc. apply chain_nil_inv in Hc. congruence.
  - by apply IH, cheapest_fold_mapped.
Qed.

(** With [start = dst] the first loop turn finalizes the destination and the
    walk over the empty predecessor map returns no flight. *)
Lemma earliest_same_airport g a t0 n :
  find_earliest_itinerary (S n) g a a t0 = Found (mkItinerary []).
Proof.
  unfold find_earliest_itinerary, Earliest.init. simpl.
  unfold Earliest.step. simpl.
  rewrite (decide_False (P := a ∈ ∅)) by set_solver.
  rewrite (decide_True (P := a = a)) by done.
  unfold reconstruct_itinerary. simpl. by rewrite lookup_empty.
Qed.

Lemma cheapest_same_airport g a t0 cabin n :
  find_cheapest_itinerary (S n) g a a t0 cabin = Found (mkItinerary []).
Proof.
  unfold find_cheapest_itinerary, Cheapest.init. simpl.
  unfold Cheapest.step. simpl.
  rewrite (decide_False (P := (a, 0) ∈ ∅)) by set_solver.
  rewrite (decide_True (P := a = a)) by done.
  unfold reconstruct_itinerary. simpl. by rewrite lookup_empty.
Qed.

(** ** Termination of both searches *)

(** What a run returns does not depend on the bound that was enough for it. *)
Lemma earliest_returns_det g start dst t0 r1 r2 :
  returns (fun n => find_earliest_itinerary n g start dst t0) r1 ->
  returns (fun n => find_earliest_itinerary n g start dst t0) r2 -> r1 = r2.
Proof.
  intros [H1 [n1 E1]] [H2 [n2 E2]]. unfold find_earliest_itinerary in *.
  rewrite <- (earliest_loop_mono g start dst _ _ _ _ E1 H1 (n1 `max` n2)%nat
                (n1 `max` n2)%nat) by lia.
  rewrite <- (earliest_loop_mono g start dst _ _ _ _ E2 H2 (n1 `max` n2)%nat
                (n1 `max` n2)%nat) by lia.
  done.
Qed.

Lemma cheapest_returns_det g start dst t0 cabin r1 r2 :
  returns (fun n => find_cheapest_itinerary n g start dst t0 cabin) r1 ->
  returns (fun n => find_cheapest_itinerary n g start dst t0 cabin) r2 -> r1 = r2.
Proof.
  intros [H1 [n1 E1]] [H2 [n2 E2]]. unfold find_cheapest_itinerary in *.
  rewrite <- (cheapest_loop_mono g start dst cabin _ _ _ _ E1 H1 (n1 `max` n2)%nat
                (n1 `max` n2)%nat) by lia.
  rewrite <- (cheapest_loop_mono g start dst cabin _ _ _ _ E2 H2 (n1 `max` n2)%nat
                (n1 `max` n2)%nat) by lia.
  done.
Qed.

Lemma earliest_ends_properly g start dst n m st :
  Earliest.loop n m g start dst st <> OutOfFuel ->
  ends_properly (Earliest.steps n g start dst st).
Proof.
  rewrite earliest_loop_steps. unfold ends_properly.
  by destruct (last _) as [[]|].
Qed.

Lemma cheapest_ends_properly g start dst cabin n m st :
  Cheapest.loop n m g start dst cabin st <> OutOfFuel ->
  ends_properly (Cheapest.steps n g start dst cabin st).
Proof.
  rewrite cheapest_loop_steps. unfold ends_properly.
  by destruct (last _) as [[]|].
Qed.

Lemma valid_flight_fares sched :
  Forall valid_flight sched -> Forall valid_fares sched.
Proof. intros H. eapply Forall_impl; [exact H|]. by intros f [_ ?]. Qed.

Lemma ends_properly_cons {K S : Type} (r : step_result K S) l :
  ends_properly l -> ends_properly (r :: l).
Proof.
  unfold ends_properly. rewrite last_cons. by destruct (last l).
Qed.

Lemma earliest_steps_short g start dst : forall n st,
  (length (Earliest.steps n g start dst st) < n)%nat ->
  ends_properly (Earliest.steps n g start dst st).
Proof.
  induction n as [|n IH]; intros st; simpl; [lia|].
  destruct (Earliest.step g start dst st) as [|st'|k a st'|k a st']; simpl;
    intros Hlen; try done.
  - apply ends_properly_cons, IH. lia.
  - apply ends_properly_cons, IH. lia.
Qed.

(** C5, as the code has it.  For every schedule the loop of the
    earliest-arrival search ends, with the destination finalized or the queue
    exhausted, after at most as many turns as there are flights plus two; it
    finalizes each airport at most once and relaxes no more flights than the
    schedule has; the cheapest-fare search finalizes each (airport, cost) pair
    at most once.  The earliest-arrival search returns when every flight
    arrives after it departs; the cheapest-fare search returns, within the
    same number of turns, when no fare is negative. *)
Theorem searches_terminate sched start dst t0 cabin :
  let g := build_graph sched in
  let le n := Earliest.steps n g start dst (Earliest.init start t0) in
  let lc n := Cheapest.steps n g start dst cabin (Cheapest.init start t0) in
  (forall n, NoDup (finalized (le n)).*1 /\
             (relaxations g (le n) <= length sched)%nat /\
             (length (le n) <= length sched + 2)%nat) /\
  (exists n, ends_properly (le n)) /\
  (forall n, NoDup ((fun e : string * (Z * Z) => (e.1, e.2.1)) <$> finalized (lc n))) /\
  (Forall valid_times sched ->
   exists r, returns (fun n => find_earliest_itinerary n g start dst t0) r) /\
  (Forall valid_fares sched ->
   (exists r, returns (fun n => find_cheapest_itinerary n g start dst t0 cabin) r) /\
   (exists n, ends_properly (lc n)) /\
   (forall n, (length (lc n) <= length sched + 2)%nat)).
Proof.
  intros g le lc.
  assert (Hbounds : forall n, NoDup (finalized (le n)).*1 /\
             (relaxations g (le n) <= length sched)%nat /\
             (length (le n) <= length sched + 2)%nat).
  { intros n.
    destruct (earliest_steps_once sched start dst n (Earliest.init start t0))
      as (Hnd & _ & Hrel & Hlen).
    pose proof (earliest_measure_init sched start t0).
    split; [done|]. split; [|unfold le, g; lia].
    eapply Nat.le_trans; [apply Hrel|apply length_filter]. }
  split; [done|]. split; [|split; [|split]].
  - exists (length sched + 3)%nat. apply earliest_steps_short.
    destruct (Hbounds (length sched + 3)%nat) as (_ & _ & Hlen).
    unfold le, g in *. lia.
  - intros n.
    apply (cheapest_steps_once g start dst cabin n (Cheapest.init start t0)).
  - intros Ht. set (N := S (S (length sched))).
    exists (find_earliest_itinerary N g start dst t0). split; [|by eexists].
    apply (earliest_loop_total sched start dst t0 Ht).
    + apply earliest_init_inv.
    + simpl. set_solver.
    + pose proof (earliest_measure_init sched start t0). unfold N. lia.
    + unfold N. lia.
  - intros Hf. set (N := S (S (length sched))).
    destruct (cheapest_loop_total sched start dst cabin Hf N
                (Cheapest.init start t0) 0) as [m Hc].
    { apply cheapest_init_inv. }
    { simpl. by intros e ->%list_elem_of_singleton. }
    { pose proof (cheapest_measure_init sched cabin start t0). unfold N. lia. }
    split; [|split].
    + exists (Cheapest.loop N m g start dst cabin (Cheapest.init start t0)).
      split; [done|]. exists (N `max` m)%nat. unfold find_cheapest_itinerary.
      apply (cheapest_loop_mono g start dst cabin N m); [done|done|lia|lia].
    + exists N. by eapply cheapest_ends_properly.
    + intros n.
      pose proof (cheapest_steps_length sched start dst cabin Hf n
                    (Cheapest.init start t0) 0) as Hlen.
      pose proof (cheapest_measure_init sched cabin start t0).
      unfold lc, g. etrans; [apply Hlen|lia].
      simpl. by intros e ->%list_elem_of_singleton.
Qed.

(** C3, as the code has it: the cheapest-fare search finalizes each
    (airport, cost) pair at most once; its visited set does not keep an airport
    from being finalized again at another cost. *)
Theorem cheapest_finalizes_pairs_once sched start dst t0 cabin n :
  NoDup ((fun e : string * (Z * Z) => (e.1, e.2.1))
           <$> finalized (Cheapest.steps n (build_graph sched) start dst cabin
                            (Cheapest.init start t0))).
Proof.
  apply (cheapest_steps_once (build_graph sched) start dst cabin n
           (Cheapest.init start t0)).
Qed.

(** C4, as the code has it: when the start airport is the destination both
    searches return a present itinerary without flights, and an itinerary
    returned by either search is empty exactly in that case. *)
Theorem returned_empty_iff_same_airport g start dst t0 cabin :
  (start = dst ->
   returns (fun n => find_earliest_itinerary n g start dst t0)
           (Found (mkItinerary [])) /\
   returns (fun n => find_cheapest_itinerary n g start dst t0 cabin)
           (Found (mkItinerary []))) /\
  (forall it,
     returns (fun n => find_earliest_itinerary n g start dst t0) (Found it) \/
     returns (fun n => find_cheapest_itinerary n g start dst t0 cabin) (Found it) ->
     (flights it = [] <-> start = dst)).
Proof.
  split.
  - intros ->. split; (split; [done|]); exists 1%nat.
    + apply earliest_same_airport.
    + apply cheapest_same_airport.
  - intros it Hret. destruct (decide (start = dst)) as [->|Hsd].
    + split; [done|intros _].
      destruct Hret as [[_ [n Hn]]|[_ [n Hn]]].
      * destruct n as [|n]; [done|]. rewrite earliest_same_airport in Hn.
        by injection Hn as <-.
      * destruct n as [|n]; [done|]. rewrite cheapest_same_airport in Hn.
        by injection Hn as <-.
    + split; [|done]. intros Hnil. exfalso.
      destruct Hret as [[_ [n Hn]]|[_ [n Hn]]].
      * eapply (earliest_loop_nonempty g start dst Hsd); [|exact Hn|exact Hnil].
        intros k x [= _ ->]%list_elem_of_singleton. by left.
      * eapply (cheapest_loop_nonempty g start dst cabin Hsd); [|exact Hn|exact Hnil].
        intros c t x [= _ _ ->]%list_elem_of_singleton. by left.
Qed.

(** ** The route graph and the fare lookup *)

Lemma earliest_no_outbound g start dst t0 n :
  graph_get g start = [] -> start <> dst ->
  find_earliest_itinerary (S (S n)) g start dst t0 = NoItinerary.
Proof.
  intros Hg Hsd. unfold find_earliest_itinerary, Earliest.init. simpl.
  unfold Earliest.step. simpl.
  rewrite (decide_False (P := start ∈ ∅)) by set_solver.
  rewrite (decide_False (P := start = dst)) by done.
  rewrite Hg. simpl. by rewrite decide_True.
Qed.

Lemma cheapest_no_outbound g start dst t0 cabin n :
  graph_get g start = [] -> start <> dst ->
  find_cheapest_itinerary (S (S n)) g start dst t0 cabin = NoItinerary.
Proof.
  intros Hg Hsd. unfold find_cheapest_itinerary, Cheapest.init. simpl.
  unfold Cheapest.step. simpl.
  rewrite (decide_False (P := (start, 0) ∈ ∅)) by set_solver.
  rewrite (decide_False (P := start = dst)) by done.
  rewrite Hg. simpl. by rewrite decide_True.
Qed.

(** C7: [price_for] returns the economy, business or first fare for the
    respective tag and raises for every other tag; it only reads the
    (immutable) flight record. *)
Theorem price_for_total_on_tags (f : Flight) (cabin : string) :
  price_for f "economy" = Some (economy f) /\
  price_for f "business" = Some (business f) /\
  price_for f "first" = Some (first f) /\
  (price_for f cabin = None <-> cabin ∉ ["economy"; "business"; "first"]).
Proof.
  repeat split; try done.
  - unfold price_for. intros Hn Hin. repeat case_decide; try done.
    set_solver.
  - unfold price_for. intros Hn. repeat case_decide; try done; subst;
      destruct Hn; set_solver.
Qed.

(** ** Counterexamples and evaluations on concrete schedules *)

Ltac solve_valid :=
  repeat first [apply Forall_cons_2 | apply Forall_nil_2];
  repeat split; simpl; lia.

Lemma sched_ex_valid : Forall valid_flight sched_ex.
Proof. unfold sched_ex, valid_flight, valid_times, valid_fares. solve_valid. Defined.

Lemma sched_ex_valid_times : Forall valid_times sched_ex.
Proof. unfold sched_ex, valid_times. solve_valid. Defined.

Lemma sched_ex'_valid : Forall valid_flight sched_ex'.
Proof. unfold sched_ex', valid_flight, valid_times, valid_fares. solve_valid. Defined.

Lemma sched_loop_valid : Forall valid_flight sched_loop.
Proof. unfold sched_loop, valid_flight, valid_times, valid_fares. solve_valid. Defined.

Lemma feasible_ex : feasible sched_ex "A" "C" 420 [fAB1; fBC].
Proof.
  apply legs_ok_feasible; [done| |done]. simpl.
  unfold sched_ex, MIN_LAYOVER_MINUTES.
  repeat split; simpl; try lia; set_solver.
Qed.

Lemma feasible_ex' : feasible sched_ex' "A" "C" 420 [fAB1; fBC].
Proof.
  apply legs_ok_feasible; [done| |done]. simpl.
  unfold sched_ex', MIN_LAYOVER_MINUTES.
  repeat split; simpl; try lia; set_solver.
Qed.

Lemma feasible_loop : feasible sched_loop "A" "A" 420 [fAB1; fBA].
Proof.
  apply legs_ok_feasible; [done| |done]. simpl.
  unfold sched_loop, MIN_LAYOVER_MINUTES.
  repeat split; simpl; try lia; set_solver.
Qed.

(** C1 at a failing input: with two flights from A to B, the later one
    cheaper, and a connection from B that only the earlier one reaches, the
    cheapest-fare search returns the cheaper flight followed by a connection
    that leaves before it lands; with the cheaper flight listed first it
    returns no result although a feasible itinerary exists. *)
Theorem cheapest_selects_infeasible :
  Forall valid_flight sched_ex /\
  find_cheapest_itinerary 5 (build_graph sched_ex) "A" "C" 420 Economy
  = Found (mkItinerary [fAB2; fBC]) /\
  ~ respects_layovers 420 [fAB2; fBC] /\
  feasible sched_ex "A" "C" 420 [fAB1; fBC] /\
  ~ cheapest_claim sched_ex "A" "C" 420 Economy /\
  find_cheapest_itinerary 5 (build_graph sched_ex') "A" "C" 420 Economy
  = NoItinerary /\
  feasible sched_ex' "A" "C" 420 [fAB1; fBC] /\
  ~ cheapest_claim sched_ex' "A" "C" 420 Economy.
Proof.
  assert (Hbad : ~ respects_layovers 420 [fAB2; fBC]).
  { intros [_ H]. destruct (H 0%nat fAB2 fBC eq_refl eq_refl) as [_ Hl].
    unfold MIN_LAYOVER_MINUTES in Hl. simpl in Hl. lia. }
  split; [apply sched_ex_valid|]. split; [by vm_compute|].
  split; [done|]. split; [apply feasible_ex|]. split; [|split; [|split]].
  - intros [H _]. destruct (H (mkItinerary [fAB2; fBC])) as [Hr _]; [|done].
    split; [done|]. exists 5%nat. by vm_compute.
  - by vm_compute.
  - apply feasible_ex'.
  - intros [_ H]. apply (H ltac:(split; [done|exists 5%nat; by vm_compute])
                           [fAB1; fBC]), feasible_ex'.
Qed.

(** C2 fails when the start airport is the destination: on a round trip
    schedule a feasible itinerary from A back to A exists, but the search
    returns the itinerary without flights, which has no arrival time. *)
Lemma earliest_claim_fails_same_airport : ~ earliest_claim sched_loop "A" "A" 420.
Proof.
  intros [H _].
  destruct (H (mkItinerary [])) as [_ Hmin].
  { split; [done|]. exists 1%nat. by vm_compute. }
  destruct (Hmin [fAB1; fBA] feasible_loop) as (ta & tp & Hta & _).
  discriminate Hta.
Qed.

Lemma earliest_search_correct_witness :
  earliest_claim sched_ex "A" "C" 420 /\
  (forall it,
     returns (fun n => find_earliest_itinerary n (build_graph sched_ex) "A" "C" 420)
             (Found it) ->
     feasible sched_ex "A" "C" 420 (flights it)) /\
  (exists r,
     returns (fun n => find_earliest_itinerary n (build_graph sched_ex) "A" "C" 420) r).
Proof.
  apply (earliest_search_correct sched_ex "A" "C" 420).
  - apply sched_ex_valid_times.
  - discriminate.
Defined.

(** C3 fails on the example schedule: airport B is finalized at cost 50 and
    again at cost 100. *)
Lemma cheapest_finalizes_airport_twice :
  ~ finalized_once_claim sched_ex "A" "C" 420 Economy.
Proof.
  intros H. specialize (H 5%nat).
  assert (E : (finalized (Cheapest.steps 5 (build_graph sched_ex) "A" "C" Economy
                            (Cheapest.init "A" 420))).*1 = ["A"; "B"; "B"; "C"])
    by by vm_compute.
  rewrite E in H. apply NoDup_cons in H as [_ H]. apply NoDup_cons in H as [H _].
  apply H. by left.
Qed.

(** The second finalization of B is the one that labels C and records its
    predecessor. *)
Lemma cheapest_late_pop_relaxes :
  match Cheapest.steps 3 (build_graph sched_ex) "A" "C" Economy
          (Cheapest.init "A" 420) with
  | [Expanded _ _ _; Expanded k2 a2 st2; Expanded k3 a3 st3] =>
      a2 = "B" /\ k2.1 = 50 /\ a3 = "B" /\ k3.1 = 100 /\
      Cheapest.dist st2 !! "C" = None /\ Cheapest.prev st2 !! "C" = None /\
      Cheapest.dist st3 !! "C" = Some 150 /\ Cheapest.prev st3 !! "C" = Some fBC
  | _ => False
  end.
Proof. vm_compute. repeat split. Qed.

(** C4 fails when the start airport is the destination: both searches return
    a present itinerary without flights. *)
Lemma searches_return_empty_itinerary :
  ~ nonempty_claim (build_graph sched_loop) "A" "A" 420 Economy.
Proof.
  intros [H _]. apply (H (mkItinerary [])); [|done].
  split; [done|]. exists 1%nat. by vm_compute.
Qed.

Lemma returned_empty_iff_same_airport_witness :
  returns (fun n => find_earliest_itinerary n (build_graph sched_loop) "A" "A" 420)
          (Found (mkItinerary [])) /\
  returns (fun n => find_cheapest_itinerary n (build_graph sched_loop) "A" "A" 420
                      Economy)
          (Found (mkItinerary [])).
Proof.
  apply (returned_empty_iff_same_airport (build_graph sched_loop) "A" "A" 420
           Economy).
  reflexivity.
Defined.

(** C5 fails on the example schedule: the cheapest-fare search finalizes B
    twice and relaxes four flights out of a schedule of three. *)
Lemma cheapest_relaxes_more_than_edges :
  ~ termination_claim sched_ex "A" "C" 420 Economy.
Proof.
  intros (_ & _ & _ & _ & _ & H). destruct (H 5%nat) as [_ Hrel].
  vm_compute in Hrel. lia.
Qed.

(** A predecessor map with a round trip on the way from [dst] makes the
    backward walk endless. *)
Lemma reconstruct_cycle (prev : gmap string Flight) dst f fa fb :
  prev !! dst = Some f -> prev !! origin f = Some fa ->
  prev !! origin fa = Some fb -> origin fb = origin f ->
  forall m, reconstruct_itinerary m prev dst = None.
Proof.
  intros Hd Ha Hb Hcyc.
  assert (Hw : forall m acc,
            reconstruct_walk m prev (origin f) acc = None /\
            reconstruct_walk m prev (origin fa) acc = None).
  { induction m as [|m IH]; intros acc; simpl; rewrite Ha, Hb; [done|].
    rewrite Hcyc. split; apply IH. }
  intros m. unfold reconstruct_itinerary.
  destruct m as [|m]; simpl; rewrite Hd; [done|]. by rewrite (proj1 (Hw m _)).
Qed.

Lemma earliest_loop_hang g start dst : forall k st kk a st',
  last (Earliest.steps k g start dst st) = Some (AtDest kk a st') ->
  (forall m, reconstruct_itinerary m (Earliest.prev st') dst = None) ->
  forall n m, Earliest.loop n m g start dst st = OutOfFuel.
Proof.
  induction k as [|k IH]; intros st kk a st' Hl Hrec n m; [done|].
  destruct n as [|n]; [done|]. simpl in *.
  destruct (Earliest.step g start dst st) as [|st1|k1 a1 st1|k1 a1 st1].
  - done.
  - rewrite last_cons in Hl.
    destruct (last (Earliest.steps k g start dst st1)) eqn:El; [|done].
    injection Hl as ->. by eapply IH.
  - injection Hl as -> -> ->. by rewrite Hrec.
  - rewrite last_cons in Hl.
    destruct (last (Earliest.steps k g start dst st1)) eqn:El; [|done].
    injection Hl as ->. by eapply IH.
Qed.

Lemma cheapest_loop_hang g start dst cabin : forall k st kk a st',
  last (Cheapest.steps k g start dst cabin st) = Some (AtDest kk a st') ->
  (forall m, reconstruct_itinerary m (Cheapest.prev st') dst = None) ->
  forall n m, Cheapest.loop n m g start dst cabin st = OutOfFuel.
Proof.
  induction k as [|k IH]; intros st kk a st' Hl Hrec n m; [done|].
  destruct n as [|n]; [done|]. simpl in *.
  destruct (Cheapest.step g start dst cabin st) as [|st1|k1 a1 st1|k1 a1 st1].
  - done.
  - rewrite last_cons in Hl.
    destruct (last (Cheapest.steps k g start dst cabin st1)) eqn:El; [|done].
    injection Hl as ->. by eapply IH.
  - injection Hl as -> -> ->. by rewrite Hrec.
  - rewrite last_cons in Hl.
    destruct (last (Cheapest.steps k g start dst cabin st1)) eqn:El; [|done].
    injection Hl as ->. by eapply IH.
Qed.

Lemma cheapest_neg_never_returns :
  forall n, find_cheapest_itinerary n (build_graph sched_neg) "A" "C" 420 Economy
            = OutOfFuel.
Proof.
  assert (H : match last (Cheapest.steps 4 (build_graph sched_neg) "A" "C" Economy
                            (Cheapest.init "A" 420)) with
              | Some (AtDest _ _ st') =>
                  Cheapest.prev st' !! "C" = Some nBC /\
                  Cheapest.prev st' !! "B" = Some nAB /\
                  Cheapest.prev st' !! "A" = Some nBA
              | _ => False
              end) by (vm_compute; repeat split).
  destruct (last _) as [[| |kk a st'|]|] eqn:El; try done.
  destruct H as (HC & HB & HA). intros n.
  apply (cheapest_loop_hang _ _ _ _ 4 _ kk a st' El).
  by apply (reconstruct_cycle _ "C" nBC nAB nBA).
Qed.

Lemma earliest_back_never_returns :
  forall n, find_earliest_itinerary n (build_graph sched_back) "A" "C" 100
            = OutOfFuel.
Proof.
  assert (H : match last (Earliest.steps 4 (build_graph sched_back) "A" "C"
                            (Earliest.init "A" 100)) with
              | Some (AtDest _ _ st') =>
                  Earliest.prev st' !! "C" = Some bBC /\
                  Earliest.prev st' !! "B" = Some bAB /\
                  Earliest.prev st' !! "A" = Some bBA
              | _ => False
              end) by (vm_compute; repeat split).
  destruct (last _) as [[| |kk a st'|]|] eqn:El; try done.
  destruct H as (HC & HB & HA). intros n.
  apply (earliest_loop_hang _ _ _ 4 _ kk a st' El).
  by apply (reconstruct_cycle _ "C" bBC bAB bBA).
Qed.

(** C5 fails in three ways: on a schedule of valid flights the cheapest-fare
    search finalizes an airport twice and relaxes more flights than there
    are; on a schedule with a negative fare, which the loader accepts, it
    finalizes the destination over a predecessor map with a round trip and
    never returns; and so does the earliest-arrival search on flights that
    land before they leave. *)
Lemma termination_claim_fails :
  (Forall valid_flight sched_ex /\ ~ termination_claim sched_ex "A" "C" 420 Economy) /\
  (Forall valid_times sched_neg /\
   load_flights_txt (fun _ => "") (fun _ => "") "neg.txt" lines_neg = inr sched_neg /\
   (forall n, find_cheapest_itinerary n (build_graph sched_neg) "A" "C" 420 Economy
              = OutOfFuel) /\
   ~ termination_claim sched_neg "A" "C" 420 Economy) /\
  (Forall valid_fares sched_back /\
   (forall n, find_earliest_itinerary n (build_graph sched_back) "A" "C" 100
              = OutOfFuel) /\
   ~ termination_claim sched_back "A" "C" 100 Economy).
Proof.
  split; [|split].
  - split; [apply sched_ex_valid|]. apply cheapest_relaxes_more_than_edges.
  - split; [|split; [|split]].
    + unfold sched_neg, valid_times. repeat constructor.
    + by vm_compute.
    + apply cheapest_neg_never_returns.
    + intros (_ & (r & Hr & n & Hn) & _).
      rewrite cheapest_neg_never_returns in Hn. congruence.
  - split; [|split].
    + unfold sched_back, valid_fares. repeat constructor; simpl; lia.
    + apply earliest_back_never_returns.
    + intros ((r & Hr & n & Hn) & _).
      rewrite earliest_back_never_returns in Hn. congruence.
Qed.

Lemma searches_terminate_witness :
  (exists r,
     returns (fun n => find_earliest_itinerary n (build_graph sched_ex) "A" "C" 420)
             r) /\
  (exists r,
     returns (fun n => find_cheapest_itinerary n (build_graph sched_ex) "A" "C" 420
                         Economy) r) /\
  (exists n, ends_properly (Cheapest.steps n (build_graph sched_ex) "A" "C" Economy
                              (Cheapest.init "A" 420))).
Proof.
  destruct (searches_terminate sched_ex "A" "C" 420 Economy)
    as (_ & _ & _ & He & Hc).
  split; [apply He, sched_ex_valid_times|].
  destruct Hc as (Hr & He' & _); [apply valid_flight_fares, sched_ex_valid|].
  by split.
Defined.

Lemma predecessor_chains_wf_witness :
  (forall st, st ∈ earliest_states 5 (build_graph sched_ex) "A" "C" 420 ->
     chains_wf "A" (Earliest.prev st)) /\
  (forall st, st ∈ cheapest_states 5 (build_graph sched_ex) "A" "C" 420 Economy ->
     chains_wf "A" (Cheapest.prev st)).
Proof.
  apply (predecessor_chains_wf sched_ex "A" "C" 420 Economy 5).
  apply sched_ex_valid.
Defined.

(** ** The comparison reporter *)

Lemma format_row_absent m c nt :
  format_row (mkRow m c None nt)
  = Some (m +:+ sep +:+ cabin_or_NA c +:+ sep +:+ NA +:+ sep +:+ NA +:+ sep
          +:+ NA +:+ sep +:+ NA +:+ sep +:+ NA +:+ sep +:+ nt).
Proof. done. Qed.

Lemma format_row_present m c nt it f g :
  head (flights it) = Some f -> last (flights it) = Some g ->
  format_row (mkRow m c (Some it) nt)
  = Some (m +:+ sep +:+ cabin_or_NA c +:+ sep +:+ format_time (depart f) +:+ sep
          +:+ format_time (arrive g) +:+ sep
          +:+ (pretty ((arrive g - depart f) `div` 60) +:+ "h"
               +:+ fmt_02d ((arrive g - depart f) `mod` 60) +:+ "m") +:+ sep
          +:+ pretty (Z.of_nat (length (flights it)) - 1) +:+ sep
          +:+ match c with Some c => pretty (total_price it c) | None => NA end
          +:+ sep +:+ nt).
Proof.
  intros Hh Hl. unfold format_row, depart_time, arrive_time, num_stops. simpl.
  rewrite Hh, Hl. simpl. destruct (flights it); [done|].
  rewrite Z.max_r; [done|]. simpl length. lia.
Qed.

Lemma format_row_empty m c nt :
  format_row (mkRow m c (Some (mkItinerary [])) nt) = None.
Proof. done. Qed.

Lemma parse_time_inr_indep im um im' um' s z :
  parse_time im um s = inr z -> parse_time im' um' s = inr z.
Proof.
  unfold parse_time, int_or_raise.
  destruct (split_colon s) as [|h [|mm [|]]]; try done.
  destruct (py_int h); [|done]. destruct (py_int mm); [|done].
  by case_bool_decide.
Qed.

(** Within a day [format_time] gives the five characters [HH:MM], and
    [parse_time] reads the minutes back. *)
Lemma format_time_clock m :
  0 <= m < 1440 ->
  String.length (format_time m) = 5%nat /\
  forall int_msg unpack_msg, parse_time int_msg unpack_msg (format_time m) = inr m.
Proof.
  intros Hm.
  assert (Hall : forallb clock_ok (seqZ 0 1440) = true) by by vm_compute.
  assert (Hin : In m (seqZ 0 1440)).
  { apply list_elem_of_In, elem_of_seqZ. lia. }
  pose proof (proj1 (forallb_forall _ _) Hall m Hin) as Hok.
  unfold clock_ok in Hok.
  destruct (parse_time _ _ (format_time m)) as [e|z] eqn:E; [done|].
  apply andb_prop in Hok as [Hz Hl]. apply Z.eqb_eq in Hz. subst z.
  split; [by apply Nat.eqb_eq|]. intros im um.
  by apply (parse_time_inr_indep _ _ im um) in E.
Qed.

(** C9 at a failing input: for a query with [start = dst] every search
    returns the present itinerary without flights, and the reporter raises on
    such a row instead of rendering it. *)
Theorem reporter_raises_on_empty_itinerary :
  find_earliest_itinerary 1 (build_graph sched_loop) "A" "A" 420
  = Found (mkItinerary []) /\
  find_cheapest_itinerary 1 (build_graph sched_loop) "A" "A" 420 Economy
  = Found (mkItinerary []) /\
  (forall m c nt, format_row (mkRow m c (Some (mkItinerary [])) nt) = None) /\
  format_comparison_table "A" "A" 420
    (comparison_rows (Some (mkItinerary [])) (Some (mkItinerary []))
       (Some (mkItinerary [])) (Some (mkItinerary []))) = None.
Proof. repeat split. Qed.

(** ** The schedule loaders *)

Section LoaderFacts.
Variable int_msg : string -> string.
Variable unpack_msg : nat -> string.


Lemma load_txt_from_ok path : forall lines i acc fl,
  load_txt_from int_msg unpack_msg path i lines acc = inr fl ->
  Forall (fun l => exists r, parse_flight_line_txt int_msg unpack_msg l = inr r)
         lines.
Proof.
  induction lines as [|line lines IH]; intros i acc fl; simpl; [by constructor|].
  destruct (parse_flight_line_txt int_msg unpack_msg line) as [e0|r] eqn:E; [done|].
  intros Hl. constructor; [eauto|]. destruct r; eauto.
Qed.

(** What the loop over the records ends with does not depend on the flights
    collected before. *)
Lemma load_csv_rows_acc rows :
  (exists e, forall acc, load_csv_rows int_msg unpack_msg rows acc = inl e) \/
  (exists fs, forall acc, load_csv_rows int_msg unpack_msg rows acc = inr (acc ++ fs)).
Proof.
  induction rows as [|row rows IH]; simpl.
  - right. exists []. intros acc. by rewrite app_nil_r.
  - destruct (csv_flight int_msg unpack_msg row) as [x|f].
    + left. destruct IH as [[e He]|[fs Hfs]].
      * exists (match x with NoneField => e | _ => x end).
        intros acc. destruct x; try done. by rewrite He.
      * exists x. intros acc. destruct x; try done. by rewrite Hfs.
    + destruct IH as [[e He]|[fs Hfs]].
      * left. exists e. intros acc. apply He.
      * right. exists (f :: fs). intros acc. rewrite Hfs.
        by rewrite <- app_assoc.
Qed.

(** The exception of a failed CSV load is the one raised for the record
    itself: it is the same wherever the record stands in the file. *)
Lemma load_csv_rows_error_acc rows : forall acc acc' e,
  load_csv_rows int_msg unpack_msg rows acc = inl e ->
  load_csv_rows int_msg unpack_msg rows acc' = inl e.
Proof.
  intros acc acc' e. destruct (load_csv_rows_acc rows) as [[e' He]|[fs Hfs]].
  - rewrite !He. done.
  - by rewrite Hfs.
Qed.

Lemma csv_error_position_independent good rows e :
  Forall (fun r => exists f, csv_flight int_msg unpack_msg r = inr f) good ->
  load_csv_rows int_msg unpack_msg rows [] = inl e ->
  load_csv_rows int_msg unpack_msg (good ++ rows) [] = inl e.
Proof.
  intros Hgood Hr. generalize (@nil Flight). induction Hgood as [|r good [f Hf] _ IH];
    intros acc; simpl.
  - by apply (load_csv_rows_error_acc rows []).
  - rewrite Hf. apply IH.
Qed.

End LoaderFacts.

(** C8 at a failing input: for a flight that lands before it leaves the text
    loader raises an error that names the line, the CSV loader a bare
    [ValueError] that is the same whether the record comes first or second. *)
Theorem csv_error_lacks_row_number (int_msg : string -> string)
    (unpack_msg : nat -> string) :
  load_flights_txt int_msg unpack_msg "sched.txt" [line_ok; line_bad]
  = inl (ValueError "sched.txt:2: ") /\
  load_flights_csv int_msg unpack_msg (Some req) [row_ok; row_bad]
  = inl (ValueError "") /\
  load_flights_csv int_msg unpack_msg (Some req) [row_bad]
  = inl (ValueError "").
Proof. repeat split; by vm_compute. Qed.

(** ** Lookups of airports without outbound flights *)

(** Airport C is reached and has no entry in the graph; both searches go on
    past it and end. *)
Lemma searches_pass_airport_without_entry :
  build_graph sched_ex !! "C" = None /\
  find_earliest_itinerary 5 (build_graph sched_ex) "A" "D" 420 = NoItinerary /\
  find_cheapest_itinerary 6 (build_graph sched_ex) "A" "D" 420 Economy
  = NoItinerary /\
  graph_get (build_graph [fAB1]) "a" = [].
Proof. repeat split; by vm_compute. Qed.

(** * Further properties of the program *)

(** ** Clock times *)

Lemma parse_time_bounds im um s t :
  parse_time im um s = inr t -> 0 <= t < 1440.
Proof.
  unfold parse_time, int_or_raise.
  destruct (split_colon s) as [|h [|mm [|]]]; try done.
  destruct (py_int h) as [hv|]; [|done]. destruct (py_int mm) as [mv|]; [|done].
  case_bool_decide as Hr; [|done]. intros [= <-]. lia.
Qed.

(** X1: a minute of the day printed by [format_time] is five characters long
    and [parse_time] reads the same minute back. *)
Theorem format_time_parse_roundtrip (int_msg : string -> string)
    (unpack_msg : nat -> string) (m : Z) :
  0 <= m < 1440 ->
  parse_time int_msg unpack_msg (format_time m) = inr m /\
  String.length (format_time m) = 5%nat.
Proof.
  intros Hm. destruct (format_time_clock m Hm) as [Hl Hp]. split; [apply Hp|done].
Qed.

Lemma format_time_parse_roundtrip_witness :
  parse_time (fun _ => "") (fun _ => "") (format_time 545) = inr 545 /\
  String.length (format_time 545) = 5%nat.
Proof.
  apply (format_time_parse_roundtrip (fun _ => "") (fun _ => "") 545). lia.
Defined.

(** X2: a time accepted by [parse_time] is a minute of the day, and printing
    it with [format_time] gives a text that parses to the same minute (the
    normal form of the accepted text). *)
Theorem parse_time_normal_form (int_msg : string -> string)
    (unpack_msg : nat -> string) (s : string) (t : Z) :
  parse_time int_msg unpack_msg s = inr t ->
  0 <= t < 1440 /\ parse_time int_msg unpack_msg (format_time t) = inr t.
Proof.
  intros Hp. pose proof (parse_time_bounds _ _ _ _ Hp) as Hb.
  split; [done|]. by apply format_time_clock.
Qed.

Lemma parse_time_normal_form_witness :
  0 <= 485 < 1440 /\
  parse_time (fun _ => "") (fun _ => "") (format_time 485) = inr 485.
Proof.
  apply (parse_time_normal_form (fun _ => "") (fun _ => "") "8:5" 485).
  vm_compute. reflexivity.
Defined.

(** ** What the loaders accept *)

Section LoaderResults.
Variable int_msg : string -> string.
Variable unpack_msg : nat -> string.

Lemma make_flight_inr o d num de ar e b f fl :
  make_flight int_msg unpack_msg o d num de ar e b f = inr fl ->
  origin fl = o /\ dest fl = d /\ flight_number fl = num /\
  parse_time int_msg unpack_msg de = inr (depart fl) /\
  parse_time int_msg unpack_msg ar = inr (arrive fl) /\
  depart fl < arrive fl /\
  py_int e = Some (economy fl) /\ py_int b = Some (business fl) /\
  py_int f = Some (first fl).
Proof.
  unfold make_flight, int_or_raise.
  destruct (parse_time _ _ de) as [|dv]; [done|].
  destruct (parse_time _ _ ar) as [|av]; [done|].
  case_bool_decide as Hle; [done|].
  destruct (py_int e) as [ev|]; [|done]. destruct (py_int b) as [bv|]; [|done].
  destruct (py_int f) as [fv|]; [|done]. intros [= <-]. simpl.
  repeat split; try done. lia.
Qed.

Lemma make_flight_times o d num de ar e b f fl :
  make_flight int_msg unpack_msg o d num de ar e b f = inr fl ->
  0 <= depart fl /\ depart fl < arrive fl /\ arrive fl < 1440.
Proof.
  intros (_ & _ & _ & Hd & Ha & Hlt & _)%make_flight_inr.
  apply parse_time_bounds in Hd, Ha. lia.
Qed.

Lemma parse_flight_line_txt_times line fl :
  parse_flight_line_txt int_msg unpack_msg line = inr (Some fl) ->
  0 <= depart fl /\ depart fl < arrive fl /\ arrive fl < 1440.
Proof.
  unfold parse_flight_line_txt.
  destruct (strip line) as [|c s]; [done|].
  destruct (decide (c = "#"%char)) as [->|Hc]; [done|].
  assert (forall (X : string + option Flight),
            match String c s with
            | EmptyString => inr None
            | String "#"%char _ => inr None
            | _ => X
            end = X) as ->.
  { intros X. destruct c as [[] [] [] [] [] [] [] []]; try done. }
  destruct (split_ws (String c s)) as [|o [|d [|num [|de [|ar [|e [|b [|f [|]]]]]]]]];
    try done.
  destruct (make_flight _ _ o d num de ar e b f) as [|fl'] eqn:E; [done|].
  intros [= <-]. by eapply make_flight_times.
Qed.

Lemma load_txt_from_spec path : forall lines i acc fl,
  load_txt_from int_msg unpack_msg path i lines acc = inr fl <->
  exists rs,
    Forall2 (fun l r => parse_flight_line_txt int_msg unpack_msg l = inr r)
            lines rs /\
    fl = acc ++ omap id rs.
Proof.
  induction lines as [|line lines IH]; intros i acc fl; simpl.
  - split.
    + intros [= <-]. exists []. split; [constructor|by rewrite app_nil_r].
    + intros (rs & Hrs & ->). apply Forall2_nil_inv_l in Hrs as ->.
      simpl. by rewrite app_nil_r.
  - destruct (parse_flight_line_txt int_msg unpack_msg line) as [msg|r] eqn:E.
    + split; [done|]. intros (rs & Hrs & _).
      apply Forall2_cons_inv_l in Hrs as (r & rs' & Hr & _ & _). congruence.
    + assert (load_txt_from int_msg unpack_msg path (S i) lines
                (acc ++ omap id [r]) = inr fl <->
              exists rs,
                Forall2 (fun l r => parse_flight_line_txt int_msg unpack_msg l = inr r)
                        (line :: lines) rs /\ fl = acc ++ omap id rs) as Hiff.
      { rewrite IH. split.
        - intros (rs & Hrs & ->). exists (r :: rs). split; [by constructor|].
          rewrite <- app_assoc. f_equal. by destruct r.
        - intros (rs & Hrs & ->).
          apply Forall2_cons_inv_l in Hrs as (r' & rs' & Hr & Hrs & ->).
          assert (r' = r) as -> by congruence. exists rs'. split; [done|].
          rewrite <- app_assoc. f_equal. by destruct r. }
      destruct r as [f|]; simpl in Hiff; [done|]. by rewrite app_nil_r in Hiff.
Qed.

Lemma csv_flight_times row fl :
  csv_flight int_msg unpack_msg row = inr fl ->
  0 <= depart fl /\ depart fl < arrive fl /\ arrive fl < 1440.
Proof.
  unfold csv_flight, csv_time, csv_int.
  destruct (row "depart") as [de|]; [|done].
  destruct (parse_time _ _ de) as [|dv] eqn:Hd; [done|].
  destruct (row "arrive") as [ar|]; [|done].
  destruct (parse_time _ _ ar) as [|av] eqn:Ha; [done|].
  case_bool_decide as Hle; [done|].
  destruct (row "economy") as [e|]; [|done].
  destruct (int_or_raise _ e); [done|].
  destruct (row "business") as [b|]; [|done].
  destruct (int_or_raise _ b); [done|].
  destruct (row "first") as [f|]; [|done].
  destruct (int_or_raise _ f); [done|].
  destruct (row "origin"), (row "dest"), (row "flight_number"); try done.
  intros [= <-]. simpl. apply parse_time_bounds in Hd, Ha. lia.
Qed.

Lemma load_csv_rows_spec : forall rows acc fl,
  load_csv_rows int_msg unpack_msg rows acc = inr fl <->
  exists fs,
    Forall2 (fun row f => csv_flight int_msg unpack_msg row = inr f) rows fs /\
    fl = acc ++ fs.
Proof.
  induction rows as [|row rows IH]; intros acc fl; simpl.
  - split.
    + intros [= <-]. exists []. split; [constructor|by rewrite app_nil_r].
    + intros (fs & Hfs & ->). apply Forall2_nil_inv_l in Hfs as ->.
      by rewrite app_nil_r.
  - destruct (csv_flight int_msg unpack_msg row) as [x|f] eqn:E.
    + split.
      * destruct x; try done.
        by destruct (load_csv_rows int_msg unpack_msg rows acc).
      * intros (fs & Hfs & _).
        apply Forall2_cons_inv_l in Hfs as (f & fs' & Hf & _ & _). congruence.
    + rewrite IH. split.
      * intros (fs & Hfs & ->). exists (f :: fs). split; [by constructor|].
        by rewrite <- app_assoc.
      * intros (fs & Hfs & ->).
        apply Forall2_cons_inv_l in Hfs as (f' & fs' & Hf & Hfs & ->).
        assert (f' = f) as -> by congruence. exists fs'. split; [done|].
        by rewrite <- app_assoc.
Qed.

Lemma req_in_names (names : list string) :
  forallb (fun r => bool_decide (r ∈ names)) req = true <->
  forall r, r ∈ req -> r ∈ names.
Proof.
  rewrite forallb_forall. split.
  - intros H r Hr. eapply bool_decide_eq_true_1, H. by apply list_elem_of_In.
  - intros H r Hr. apply bool_decide_eq_true_2, H. by apply list_elem_of_In.
Qed.

End LoaderResults.


Lemma loaded_flights_times (int_msg : string -> string)
    (unpack_msg : nat -> string) (fl : list Flight) :
  (exists path lines, load_flights_txt int_msg unpack_msg path lines = inr fl) \/
  (exists names rows, load_flights_csv int_msg unpack_msg names rows = inr fl) ->
  Forall (fun f => 0 <= depart f /\ depart f < arrive f /\ arrive f < 1440) fl.
Proof.
  intros [(path & lines & Hl)|(names & rows & Hl)].
  - apply load_txt_from_spec in Hl as (rs & Hrs & ->). simpl.
    apply Forall_forall. intros f (r & Hr & Hf)%list_elem_of_omap.
    simpl in Hf. subst r.
    apply list_elem_of_lookup in Hr as [i Hi].
    destruct (Forall2_lookup_r _ _ _ _ _ Hrs Hi) as (line & _ & Hp).
    by eapply parse_flight_line_txt_times.
  - unfold load_flights_csv in Hl. destruct names as [names|]; [|done].
    destruct (forallb _ req); [|done].
    apply load_csv_rows_spec in Hl as (fs & Hfs & ->). simpl.
    apply Forall_forall. intros f Hf.
    apply list_elem_of_lookup in Hf as [i Hi].
    destruct (Forall2_lookup_r _ _ _ _ _ Hfs Hi) as (row & _ & Hp).
    by eapply csv_flight_times.
Qed.

(** X3: every flight returned by either loader has its departure and arrival
    within the day and arrives strictly after it departs. *)
Theorem loaded_flights_within_day (int_msg : string -> string)
    (unpack_msg : nat -> string) (fl : list Flight) :
  (exists path lines, load_flights_txt int_msg unpack_msg path lines = inr fl) \/
  (exists names rows, load_flights_csv int_msg unpack_msg names rows = inr fl) ->
  Forall (fun f => 0 <= depart f /\ depart f < arrive f /\ arrive f < 1440) fl.
Proof.
  apply loaded_flights_times.
Qed.

Lemma loaded_flights_within_day_witness :
  Forall (fun f => 0 <= depart f /\ depart f < arrive f /\ arrive f < 1440) [fAB1].
Proof.
  apply (loaded_flights_within_day (fun _ => "") (fun _ => "") [fAB1]).
  left. exists "sched.txt", [line_ok]. vm_compute. reflexivity.
Defined.

(** X4: the text loader succeeds exactly when every line parses, and then
    returns the flights of the data lines in file order; blank and comment
    lines contribute nothing. *)
Theorem load_flights_txt_succeeds_iff (int_msg : string -> string)
    (unpack_msg : nat -> string) (path : string) (lines : list string)
    (fl : list Flight) :
  load_flights_txt int_msg unpack_msg path lines = inr fl <->
  exists rs,
    Forall2 (fun l r => parse_flight_line_txt int_msg unpack_msg l = inr r)
            lines rs /\
    fl = omap id rs.
Proof. apply load_txt_from_spec. Qed.



(** X6: the CSV loader succeeds exactly when the header has the eight
    required columns and every record passes the checks, and then returns one
    flight per record, in file order. *)
Theorem load_flights_csv_succeeds_iff (int_msg : string -> string)
    (unpack_msg : nat -> string) (fieldnames : option (list string))
    (rows : list (string -> option string)) (fl : list Flight) :
  load_flights_csv int_msg unpack_msg fieldnames rows = inr fl <->
  exists names,
    fieldnames = Some names /\ (forall r, r ∈ req -> r ∈ names) /\
    Forall2 (fun row f => csv_flight int_msg unpack_msg row = inr f) rows fl.
Proof.
  unfold load_flights_csv. destruct fieldnames as [names|].
  - destruct (forallb _ req) eqn:E.
    + pose proof (proj1 (req_in_names names) E) as Hreq.
      rewrite load_csv_rows_spec. split.
      * intros (fs & Hfs & ->). exists names. by repeat split.
      * intros (names' & [= <-] & _ & Hfs). by exists fl.
    + split; [done|]. intros (names' & [= <-] & Hreq & _).
      pose proof (proj2 (req_in_names names) Hreq). congruence.
  - split; [done|]. by intros (names & ? & _).
Qed.



(** ** The route graph keeps every flight *)

Lemma graph_flights_insert_fresh (g : gmap string (list Flight)) a l :
  g !! a = None -> graph_flights (<[a:=l]> g) ≡ₚ l ++ graph_flights g.
Proof.
  intros Hn. unfold graph_flights. by rewrite (map_to_list_insert g a l Hn).
Qed.

Lemma graph_flights_insert (g : gmap string (list Flight)) a f :
  graph_flights (<[a := graph_get g a ++ [f]]> g) ≡ₚ graph_flights g ++ [f].
Proof.
  unfold graph_get. destruct (g !! a) as [l0|] eqn:Ha; simpl.
  - rewrite <- (insert_delete_eq g).
    rewrite graph_flights_insert_fresh by apply lookup_delete_eq.
    rewrite <- (insert_delete_id g a l0 Ha) at 2.
    rewrite graph_flights_insert_fresh by apply lookup_delete_eq.
    by rewrite <- app_assoc, (Permutation_app_comm [f]), app_assoc.
  - rewrite graph_flights_insert_fresh by done. apply Permutation_app_comm.
Qed.

(** X8: the lists of the graph together are a rearrangement of the input, so
    no flight is lost or duplicated; the graph has an entry exactly for the
    airports some flight leaves from, and no entry is an empty list. *)
Theorem build_graph_keeps_flights (fl : list Flight) :
  graph_flights (build_graph fl) ≡ₚ fl /\
  (forall a, is_Some (build_graph fl !! a) <-> exists f, f ∈ fl /\ origin f = a) /\
  (forall a l, build_graph fl !! a = Some l ->
     l <> [] /\ Forall (fun f => origin f = a) l).
Proof.
  split; [|split].
  - induction fl as [|f fl IH] using rev_ind.
    + unfold graph_flights, build_graph. simpl. by rewrite map_to_list_empty.
    + unfold build_graph. rewrite fold_left_app. simpl. fold (build_graph fl).
      rewrite graph_flights_insert. by rewrite IH.
  - intros a. rewrite build_graph_lookup. case_decide as E.
    + split; [by intros [? ?]|]. intros (f & Hf & Ho).
      assert (f ∈ filter (fun f => origin f = a) fl) as Hin
        by by apply list_elem_of_filter.
      rewrite E in Hin. by apply elem_of_nil in Hin.
    + split; [|by eauto]. intros _.
      destruct (filter (fun f => origin f = a) fl) as [|f l] eqn:Hl; [done|].
      assert (f ∈ filter (fun f => origin f = a) fl) as Hin
        by (rewrite Hl; by left).
      apply list_elem_of_filter in Hin as [? ?]. by exists f.
  - intros a l. rewrite build_graph_lookup. case_decide as E; [done|].
    intros [= <-]. split; [done|]. apply Forall_forall.
    by intros f [Ho _]%list_elem_of_filter.
Qed.

(** ** Reconstruction *)

Lemma connected_snoc p f :
  connected p -> (forall g, last p = Some g -> dest g = origin f) ->
  connected (p ++ [f]).
Proof.
  intros Hp Hl i g g' Hg Hg'.
  destruct (decide (S i < length p)%nat) as [Hlt|Hge].
  - rewrite lookup_app_l in Hg by lia. rewrite lookup_app_l in Hg' by done.
    by apply (Hp i).
  - assert (S i = length p) as Hi.
    { apply lookup_lt_Some in Hg'. rewrite length_app in Hg'. simpl in Hg'. lia. }
    rewrite lookup_app_l in Hg by lia.
    rewrite lookup_app_r, Hi, Nat.sub_diag in Hg' by lia. injection Hg' as <-.
    apply Hl. rewrite last_lookup. by replace (Nat.pred (length p)) with i by lia.
Qed.

Lemma chain_connected prev x p :
  (forall y f, prev !! y = Some f -> dest f = y) -> chain prev x p ->
  connected p /\ (forall f, last p = Some f -> dest f = x /\ prev !! x = Some f).
Proof.
  intros Hkey. induction 1 as [x Hx|x f p Hx Hp [IHc IHl]].
  - split; [by intros i ? ? ?|done].
  - split.
    + apply connected_snoc; [done|]. intros g Hg. by destruct (IHl g Hg).
    + intros g. rewrite last_snoc. intros [= <-]. split; [by apply Hkey|done].
Qed.

(** X9: over a predecessor map in which the flight stored for an airport
    arrives at that airport, a returned itinerary is connected, its last leg
    is the predecessor of [dst], its first leg leaves an airport without
    predecessor, no two legs leave the same airport, and it has no flights
    exactly when [dst] has no predecessor. *)
Theorem reconstruct_itinerary_connected (n : nat) (prev : gmap string Flight)
    (dst : string) (it : Itinerary) :
  (forall y f, prev !! y = Some f -> dest f = y) ->
  reconstruct_itinerary n prev dst = Some it ->
  connected (flights it) /\
  (forall f, last (flights it) = Some f -> dest f = dst /\ prev !! dst = Some f) /\
  (forall f, head (flights it) = Some f -> prev !! origin f = None) /\
  NoDup (origin <$> flights it) /\
  (flights it = [] <-> prev !! dst = None).
Proof.
  intros Hkey [Hc _]%reconstruct_itinerary_inv.
  destruct (chain_connected _ _ _ Hkey Hc) as [Hconn Hlast].
  split; [done|]. split; [done|].
  split; [intros f Hf; by eapply chain_head|]. split.
  - pose proof (chain_nodes_NoDup _ _ _ Hc) as Hnd. unfold chain_nodes in Hnd.
    apply NoDup_cons in Hnd as [_ Hnd].
    by rewrite <- (Permutation_rev (origin <$> flights it)) in Hnd.
  - split.
    + intros E. rewrite E in Hc. by apply chain_nil_inv.
    + intros Hn. destruct Hc as [|? f p Hf]; [done|congruence].
Qed.

Lemma reconstruct_itinerary_connected_witness :
  connected [fAB1; fBC] /\
  (forall f, last [fAB1; fBC] = Some f ->
     dest f = "C" /\ (<["C" := fBC]> (<["B" := fAB1]> ∅) : gmap string Flight) !! "C"
                     = Some f) /\
  (forall f, head [fAB1; fBC] = Some f ->
     (<["C" := fBC]> (<["B" := fAB1]> ∅) : gmap string Flight) !! origin f = None) /\
  NoDup (origin <$> [fAB1; fBC]) /\
  ([fAB1; fBC] = [] <->
   (<["C" := fBC]> (<["B" := fAB1]> ∅) : gmap string Flight) !! "C" = None).
Proof.
  apply (reconstruct_itinerary_connected 2 (<["C" := fBC]> (<["B" := fAB1]> ∅)) "C"
           (mkItinerary [fAB1; fBC])).
  - intros y f Hy.
    apply lookup_insert_Some in Hy as [[<- <-]|[_ Hy]]; [reflexivity|].
    apply lookup_insert_Some in Hy as [[<- <-]|[_ Hy]]; [reflexivity|].
    rewrite lookup_empty in Hy. discriminate Hy.
  - vm_compute. reflexivity.
Defined.

(** ** Itineraries the searches return *)

Lemma earliest_loop_found_chain g start dst : forall n m st it,
  Earliest.loop n m g start dst st = Found it ->
  exists pv, chain pv dst (flights it).
Proof.
  induction n as [|n IH]; intros m st it; [done|]. simpl.
  destruct (Earliest.step g start dst st) as [|st'|k a st'|k a st']; try done.
  - apply IH.
  - destruct (reconstruct_itinerary m (Earliest.prev st') dst) as [it'|] eqn:E;
      [|done].
    intros [= <-]. apply reconstruct_itinerary_inv in E as [Hc _]. eauto.
  - apply IH.
Qed.

Lemma cheapest_loop_found_chain g start dst cabin : forall n m st it,
  Cheapest.loop n m g start dst cabin st = Found it ->
  exists pv, chain pv dst (flights it).
Proof.
  induction n as [|n IH]; intros m st it; [done|]. simpl.
  destruct (Cheapest.step g start dst cabin st) as [|st'|k a st'|k a st']; try done.
  - apply IH.
  - destruct (reconstruct_itinerary m (Cheapest.prev st') dst) as [it'|] eqn:E;
      [|done].
    intros [= <-]. apply reconstruct_itinerary_inv in E as [Hc _]. eauto.
  - apply IH.
Qed.

(** X10: in an itinerary returned by either search, over any graph, no two
    legs leave the same airport and no leg leaves the destination. *)
Theorem returned_itinerary_leaves_each_airport_once
    (g : gmap string (list Flight)) (start dst : string) (t0 : Z)
    (cabin : Cabin) (it : Itinerary) :
  returns (fun n => find_earliest_itinerary n g start dst t0) (Found it) \/
  returns (fun n => find_cheapest_itinerary n g start dst t0 cabin) (Found it) ->
  NoDup (dst :: (origin <$> flights it)).
Proof.
  intros Hret.
  assert (exists pv, chain pv dst (flights it)) as [pv Hc].
  { destruct Hret as [[_ [n Hn]]|[_ [n Hn]]].
    - by eapply earliest_loop_found_chain.
    - by eapply cheapest_loop_found_chain. }
  pose proof (chain_nodes_NoDup _ _ _ Hc) as Hnd. unfold chain_nodes in Hnd.
  apply NoDup_cons in Hnd as [Hd Hnd]. apply NoDup_cons. split.
  - intros Hin. apply Hd. by rewrite <- (Permutation_rev (origin <$> flights it)).
  - by rewrite <- (Permutation_rev (origin <$> flights it)) in Hnd.
Qed.

Lemma returned_itinerary_leaves_each_airport_once_witness :
  NoDup ("C" :: (origin <$> [fAB1; fBC])).
Proof.
  apply (returned_itinerary_leaves_each_airport_once (build_graph sched_ex)
           "A" "C" 420 Economy (mkItinerary [fAB1; fBC])).
  left. split; [discriminate|]. exists 5%nat. vm_compute. reflexivity.
Defined.

(** ** Consequences of the optimality of the earliest-arrival search *)

Lemma earliest_run_spec sched start dst t0 :
  Forall valid_times sched -> start <> dst ->
  exists r,
    returns (fun n => find_earliest_itinerary n (build_graph sched) start dst t0) r /\
    match r with
    | OutOfFuel => False
    | NoItinerary => forall p, ~ feasible sched start dst t0 p
    | Found it =>
        feasible sched start dst t0 (flights it) /\
        forall p, feasible sched start dst t0 p ->
          exists f g, last (flights it) = Some f /\ last p = Some g /\
                      arrive f <= arrive g
    end.
Proof.
  intros Hval Hsd. set (N := S (S (length sched))).
  exists (find_earliest_itinerary N (build_graph sched) start dst t0).
  assert (Hne : find_earliest_itinerary N (build_graph sched) start dst t0
                <> OutOfFuel).
  { apply (earliest_loop_total sched start dst t0 Hval).
    - apply earliest_init_inv.
    - simpl. set_solver.
    - pose proof (earliest_measure_init sched start t0). unfold N. lia.
    - unfold N. lia. }
  split; [split; [done|by eexists]|].
  pose proof (earliest_loop_sound sched start dst t0 Hsd Hval N N
                (Earliest.init start t0) (earliest_init_inv _ _ _ _)) as Hs.
  unfold find_earliest_itinerary in *.
  destruct (Earliest.loop N N (build_graph sched) start dst (Earliest.init start t0));
    [done|..]; apply Hs; simpl; set_solver.
Qed.

Lemma feasible_earlier_request sched start dst t0 t1 p :
  t0 <= t1 -> feasible sched start dst t1 p -> feasible sched start dst t0 p.
Proof.
  intros Hle [Hs Hf Hc Hl]. split; try done.
  intros f Hh. destruct (Hf f Hh). split; [done|lia].
Qed.

Lemma feasible_more_flights sched sched' start dst t0 p :
  (forall f, f ∈ sched -> f ∈ sched') ->
  feasible sched start dst t0 p -> feasible sched' start dst t0 p.
Proof. intros Hsub [Hs Hf Hc Hl]. split; try done. intros f Hf'. auto. Qed.

(** An itinerary known to be feasible bounds what the search returns. *)
Lemma earliest_beats_feasible sched start dst t0 p g :
  Forall valid_times sched -> start <> dst ->
  feasible sched start dst t0 p -> last p = Some g ->
  exists it f,
    returns (fun n => find_earliest_itinerary n (build_graph sched) start dst t0)
            (Found it) /\
    feasible sched start dst t0 (flights it) /\
    last (flights it) = Some f /\ arrive f <= arrive g.
Proof.
  intros Hval Hsd Hp Hg.
  destruct (earliest_run_spec sched start dst t0 Hval Hsd) as (r & Hr & Hspec).
  destruct r as [| |it]; [done|by destruct (Hspec p)|].
  destruct Hspec as [Hf Hmin]. destruct (Hmin p Hp) as (f & g' & Hlf & Hlg & Hle).
  assert (g' = g) as -> by congruence. by exists it, f.
Qed.

Lemma earliest_found_feasible sched start dst t0 it :
  Forall valid_times sched -> start <> dst ->
  returns (fun n => find_earliest_itinerary n (build_graph sched) start dst t0)
          (Found it) ->
  feasible sched start dst t0 (flights it).
Proof.
  intros Hval Hsd Hret.
  destruct (earliest_run_spec sched start dst t0 Hval Hsd) as (r & Hr & Hspec).
  rewrite <- (earliest_returns_det _ _ _ _ _ _ Hret Hr) in Hspec. apply Hspec.
Qed.

Lemma last_arrive_time it f : last (flights it) = Some f -> arrive_time it = Some (arrive f).
Proof. unfold arrive_time. by intros ->. Qed.

(** X11: asking for an earlier departure never gives a later arrival: if the
    earliest-arrival search finds an itinerary for a requested time, it finds
    one for every earlier requested time, arriving no later. *)
Theorem earliest_arrival_monotone_in_request (sched : list Flight)
    (start dst : string) (t0 t1 : Z) (it1 : Itinerary) :
  Forall valid_times sched -> start <> dst -> t0 <= t1 ->
  returns (fun n => find_earliest_itinerary n (build_graph sched) start dst t1)
          (Found it1) ->
  exists it0 a0 a1,
    returns (fun n => find_earliest_itinerary n (build_graph sched) start dst t0)
            (Found it0) /\
    arrive_time it0 = Some a0 /\ arrive_time it1 = Some a1 /\ a0 <= a1.
Proof.
  intros Hval Hsd Hle Hret.
  pose proof (earliest_found_feasible _ _ _ _ _ Hval Hsd Hret) as Hf1.
  destruct (feas_last _ _ _ _ _ Hf1) as (g & Hg & _).
  destruct (earliest_beats_feasible sched start dst t0 (flights it1) g Hval Hsd)
    as (it0 & f & Hr0 & _ & Hlf & Hfg); [by eapply feasible_earlier_request|done|].
  exists it0, (arrive f), (arrive g).
  by rewrite (last_arrive_time _ _ Hlf), (last_arrive_time _ _ Hg).
Qed.

Lemma earliest_arrival_monotone_in_request_witness :
  exists it0 a0 a1,
    returns (fun n => find_earliest_itinerary n (build_graph sched_ex) "A" "C" 420)
            (Found it0) /\
    arrive_time it0 = Some a0 /\
    arrive_time (mkItinerary [fAB1; fBC]) = Some a1 /\ a0 <= a1.
Proof.
  apply (earliest_arrival_monotone_in_request sched_ex "A" "C" 420 480
           (mkItinerary [fAB1; fBC])).
  - apply sched_ex_valid_times.
  - discriminate.
  - lia.
  - split; [discriminate|]. exists 5%nat. vm_compute. reflexivity.
Defined.

(** X12: adding flights to the schedule never makes the earliest arrival
    later: if the search finds an itinerary in a schedule, it finds one in
    every larger schedule of valid flights, arriving no later. *)
Theorem earliest_arrival_monotone_in_schedule (sched sched' : list Flight)
    (start dst : string) (t0 : Z) (it : Itinerary) :
  Forall valid_times sched' -> (forall f, f ∈ sched -> f ∈ sched') ->
  start <> dst ->
  returns (fun n => find_earliest_itinerary n (build_graph sched) start dst t0)
          (Found it) ->
  exists it' a a',
    returns (fun n => find_earliest_itinerary n (build_graph sched') start dst t0)
            (Found it') /\
    arrive_time it = Some a /\ arrive_time it' = Some a' /\ a' <= a.
Proof.
  intros Hval' Hsub Hsd Hret.
  assert (Hval : Forall valid_times sched).
  { rewrite Forall_forall in Hval' |- *. auto. }
  pose proof (earliest_found_feasible _ _ _ _ _ Hval Hsd Hret) as Hf.
  destruct (feas_last _ _ _ _ _ Hf) as (g & Hg & _).
  destruct (earliest_beats_feasible sched' start dst t0 (flights it) g Hval' Hsd)
    as (it' & f & Hr' & _ & Hlf & Hfg); [by eapply feasible_more_flights|done|].
  exists it', (arrive g), (arrive f).
  by rewrite (last_arrive_time _ _ Hlf), (last_arrive_time _ _ Hg).
Qed.

Lemma earliest_arrival_monotone_in_schedule_witness :
  exists it' a a',
    returns (fun n => find_earliest_itinerary n (build_graph sched_ex) "A" "B" 420)
            (Found it') /\
    arrive_time (mkItinerary [fAB2]) = Some a /\ arrive_time it' = Some a' /\
    a' <= a.
Proof.
  apply (earliest_arrival_monotone_in_schedule [fAB2] sched_ex "A" "B" 420
           (mkItinerary [fAB2])).
  - apply sched_ex_valid_times.
  - intros f Hf. apply list_elem_of_singleton in Hf. rewrite Hf.
    unfold sched_ex. apply list_elem_of_further, list_elem_of_here.
  - discriminate.
  - split; [discriminate|]. exists 5%nat. vm_compute. reflexivity.
Defined.

(** X13: the arrival time found by the earliest-arrival search, and whether
    it finds anything, does not depend on the order of the flights in the
    schedule. *)
Theorem earliest_arrival_independent_of_order (sched sched' : list Flight)
    (start dst : string) (t0 : Z) :
  Forall valid_times sched -> sched ≡ₚ sched' -> start <> dst ->
  (returns (fun n => find_earliest_itinerary n (build_graph sched) start dst t0)
           NoItinerary <->
   returns (fun n => find_earliest_itinerary n (build_graph sched') start dst t0)
           NoItinerary) /\
  (forall it it',
     returns (fun n => find_earliest_itinerary n (build_graph sched) start dst t0)
             (Found it) ->
     returns (fun n => find_earliest_itinerary n (build_graph sched') start dst t0)
             (Found it') ->
     arrive_time it = arrive_time it').
Proof.
  intros Hval Hperm Hsd.
  assert (Hval' : Forall valid_times sched') by by rewrite <- Hperm.
  assert (Hsub : forall f, f ∈ sched -> f ∈ sched') by (intros f; by rewrite Hperm).
  assert (Hsub' : forall f, f ∈ sched' -> f ∈ sched) by (intros f; by rewrite Hperm).
  destruct (earliest_run_spec sched start dst t0 Hval Hsd) as (r & Hr & Hspec).
  destruct (earliest_run_spec sched' start dst t0 Hval' Hsd) as (r' & Hr' & Hspec').
  split.
  - split; intros Hn.
    + rewrite (earliest_returns_det _ _ _ _ _ _ Hr Hn) in Hspec.
      destruct r' as [| |it']; [done|done|]. destruct Hspec' as [Hf _].
      destruct (Hspec (flights it')). by eapply feasible_more_flights.
    + rewrite (earliest_returns_det _ _ _ _ _ _ Hr' Hn) in Hspec'.
      destruct r as [| |it]; [done|done|]. destruct Hspec as [Hf _].
      destruct (Hspec' (flights it)). by eapply feasible_more_flights.
  - intros it it' Hi Hi'.
    rewrite (earliest_returns_det _ _ _ _ _ _ Hr Hi) in Hspec.
    rewrite (earliest_returns_det _ _ _ _ _ _ Hr' Hi') in Hspec'.
    destruct Hspec as [Hf Hmin], Hspec' as [Hf' Hmin'].
    destruct (Hmin (flights it')) as (f & g & Hlf & Hlg & Hle);
      [by eapply feasible_more_flights|].
    destruct (Hmin' (flights it)) as (f' & g' & Hlf' & Hlg' & Hle');
      [by eapply feasible_more_flights|].
    rewrite (last_arrive_time _ _ Hlf), (last_arrive_time _ _ Hlg).
    f_equal. assert (f' = g) by congruence. assert (g' = f) by congruence.
    subst. lia.
Qed.

Lemma earliest_arrival_independent_of_order_witness :
  (returns (fun n => find_earliest_itinerary n (build_graph sched_ex) "A" "C" 420)
           NoItinerary <->
   returns (fun n => find_earliest_itinerary n (build_graph sched_ex') "A" "C" 420)
           NoItinerary) /\
  (forall it it',
     returns (fun n => find_earliest_itinerary n (build_graph sched_ex) "A" "C" 420)
             (Found it) ->
     returns (fun n => find_earliest_itinerary n (build_graph sched_ex') "A" "C" 420)
             (Found it') ->
     arrive_time it = arrive_time it').
Proof.
  apply (earliest_arrival_independent_of_order sched_ex sched_ex' "A" "C" 420).
  - apply sched_ex_valid_times.
  - unfold sched_ex, sched_ex'. apply Permutation_swap.
  - discriminate.
Defined.

(** X14: when a flight of the schedule goes from [start] to [dst] and leaves
    at or after the requested time, the earliest-arrival search returns an
    itinerary, and it arrives no later than that flight. *)
Theorem earliest_beats_direct_flight (sched : list Flight) (start dst : string)
    (t0 : Z) (f : Flight) :
  Forall valid_times sched -> start <> dst ->
  f ∈ sched -> origin f = start -> dest f = dst -> t0 <= depart f ->
  exists it a,
    returns (fun n => find_earliest_itinerary n (build_graph sched) start dst t0)
            (Found it) /\
    arrive_time it = Some a /\ a <= arrive f.
Proof.
  intros Hval Hsd Hf Ho Hd Ht.
  destruct (earliest_beats_feasible sched start dst t0 [f] f Hval Hsd)
    as (it & g & Hr & _ & Hlg & Hle); [|done|].
  - apply legs_ok_feasible; [done| |by unfold end_airport].
    simpl. by repeat split.
  - exists it, (arrive g). by rewrite (last_arrive_time _ _ Hlg).
Qed.

Lemma earliest_beats_direct_flight_witness :
  exists it a,
    returns (fun n => find_earliest_itinerary n (build_graph sched_ex) "A" "B" 420)
            (Found it) /\
    arrive_time it = Some a /\ a <= arrive fAB2.
Proof.
  apply (earliest_beats_direct_flight sched_ex "A" "B" 420 fAB2).
  - apply sched_ex_valid_times.
  - discriminate.
  - unfold sched_ex. apply list_elem_of_further, list_elem_of_here.
  - reflexivity.
  - reflexivity.
  - simpl. lia.
Defined.

(** ** The visited check of the cheapest-fare search *)

Lemma cheapest_fresh_init start t0 : cheapest_fresh (Cheapest.init start t0).
Proof.
  split; simpl.
  - apply NoDup_singleton.
  - intros c t x _. set_solver.
  - intros c t x [= -> _ ->]%list_elem_of_singleton. exists 0.
    by rewrite lookup_singleton_eq.
  - intros x c Hx. set_solver.
Qed.

Lemma cheapest_relax_fresh start cabin cost arr a st f :
  cheapest_fresh st ->
  cheapest_fresh (Cheapest.relax start cabin cost arr a st f).
Proof.
  intros [Hnd Hun Hpq Hvis].
  destruct (cheapest_relax_cases start cabin cost arr a st f)
    as [[-> _]|(_ & Hlt & ->)]; [done|].
  split; simpl.
  - apply NoDup_cons. split; [|done].
    intros ([[c t] x] & [= <- <-] & Hin)%list_elem_of_fmap.
    destruct (Hpq _ _ _ Hin) as (d & Hd & Hle). specialize (Hlt d Hd). lia.
  - intros c t x [[= -> -> ->]|Hin]%elem_of_cons; [|by eapply Hun].
    intros Hv. destruct (Hvis _ _ Hv) as (d & Hd & Hle).
    specialize (Hlt d Hd). lia.
  - intros c t x [[= -> -> ->]|Hin]%elem_of_cons.
    + exists (cost + price f cabin). by rewrite lookup_insert_eq.
    + destruct (Hpq _ _ _ Hin) as (d & Hd & Hle).
      destruct (decide (dest f = x)) as [<-|Hne].
      * exists (cost + price f cabin). rewrite lookup_insert_eq.
        specialize (Hlt d Hd). split; [done|lia].
      * exists d. by rewrite lookup_insert_ne.
  - intros x c Hv. destruct (Hvis _ _ Hv) as (d & Hd & Hle).
    destruct (decide (dest f = x)) as [<-|Hne].
    + exists (cost + price f cabin). rewrite lookup_insert_eq.
      specialize (Hlt d Hd). split; [done|lia].
    + exists d. by rewrite lookup_insert_ne.
Qed.

Lemma cheapest_fold_fresh start cabin cost arr a todo : forall st,
  cheapest_fresh st ->
  cheapest_fresh (fold_left (Cheapest.relax start cabin cost arr a) todo st).
Proof.
  induction todo as [|f todo IH]; intros st Hf; simpl; [done|].
  by apply IH, cheapest_relax_fresh.
Qed.

Lemma cheapest_step_fresh g start dst cabin st :
  cheapest_fresh st ->
  match Cheapest.step g start dst cabin st with
  | QueueEmpty => True
  | Stale _ => False
  | AtDest _ _ st' | Expanded _ _ st' => cheapest_fresh st'
  end.
Proof.
  intros [Hnd Hun Hpq Hvis]. unfold Cheapest.step.
  destruct (heappop Cheapest.entry_lt (Cheapest.pq st)) as [[[[c t] x] pq']|] eqn:Hpop;
    [|done].
  pose proof (heappop_perm _ _ _ _ Hpop) as Hperm.
  assert (Hsub : forall e, e ∈ pq' -> e ∈ Cheapest.pq st).
  { intros e He. rewrite Hperm. by right. }
  assert (Hpop_in : (c, t, x) ∈ Cheapest.pq st) by (rewrite Hperm; by left).
  rewrite Hperm in Hnd. simpl in Hnd. apply NoDup_cons in Hnd as [Hnew Hnd].
  case_decide as Hv; [by apply Hun in Hpop_in|].
  assert (Hst1 : cheapest_fresh
            (Cheapest.mkState (Cheapest.dist st) (Cheapest.prev st) pq'
               ({[(x, c)]} ∪ Cheapest.visited st))).
  { split; simpl.
    - done.
    - intros c' t' x' Hin. apply not_elem_of_union. split; [|by eapply Hun, Hsub].
      intros [= -> ->]%elem_of_singleton. apply Hnew.
      apply list_elem_of_fmap. by exists (c, t', x).
    - intros c' t' x' Hin. by eapply Hpq, Hsub.
    - intros x' c' [[= -> ->]%elem_of_singleton|Hin]%elem_of_union; [|by apply Hvis].
      by eapply Hpq. }
  case_decide; [done|]. by apply cheapest_fold_fresh.
Qed.

(** X15: in the cheapest-fare search the [continue] branch is never taken,
    over any graph and for any query: no entry popped from the queue is for
    an (airport, cost) pair that is in the visited set already, because every
    push is at a cost strictly below the label of its airport. *)
Theorem cheapest_search_never_skips (g : gmap string (list Flight))
    (start dst : string) (t0 : Z) (cabin : Cabin) (n : nat) :
  Forall (fun r => forall st, r <> Stale st)
    (Cheapest.steps n g start dst cabin (Cheapest.init start t0)).
Proof.
  apply Forall_forall.
  assert (H : forall n st, cheapest_fresh st ->
            forall r, r ∈ Cheapest.steps n g start dst cabin st ->
              forall st', r <> Stale st').
  { clear n. induction n as [|n IH]; intros st Hf r; simpl; [by intros ?%elem_of_nil|].
    pose proof (cheapest_step_fresh g start dst cabin st Hf) as Hs.
    destruct (Cheapest.step g start dst cabin st) as [|st1|k a st1|k a st1];
      try done.
    - intros ->%list_elem_of_singleton. done.
    - intros ->%list_elem_of_singleton. done.
    - intros [->|Hin]%elem_of_cons; [done|]. by eapply IH. }
  apply H, cheapest_fresh_init.
Qed.

(** ** What the cheapest-fare search does guarantee *)

Lemma reached_extend sched start t0 a arr f :
  f ∈ sched -> origin f = a -> threshold start a arr <= depart f ->
  dest f <> start -> reached sched start t0 a arr ->
  reached sched start t0 (dest f) (arrive f).
Proof.
  intros Hs Ho Hthr Hne Hr. right. split; [done|].
  destruct Hr as [[-> ->]|(Ha & p & g & Hp & Hg & Harr)].
  - exists [f], f. split; [|done].
    apply legs_ok_feasible; [done| |done].
    simpl. unfold threshold in Hthr. rewrite decide_True in Hthr by done.
    by repeat split.
  - exists (p ++ [f]), f. split; [|by rewrite last_snoc].
    destruct (feasible_legs_ok _ _ _ _ _ Hp) as (Hnil & Hlegs & Hend).
    apply legs_ok_feasible.
    + by destruct p.
    + apply legs_ok_snoc; [done|done|congruence|].
      unfold end_threshold. rewrite Hg. unfold threshold in Hthr.
      rewrite decide_False in Hthr by done. by rewrite Harr.
    + apply end_airport_snoc.
Qed.

Lemma cheapest_relax_route sched start t0 cabin cost arr airport st f tu :
  valid_fares f -> f ∈ sched -> origin f = airport -> 0 <= cost ->
  Cheapest.dist st !! airport = Some tu -> tu <= cost ->
  reached sched start t0 airport arr ->
  cheapest_route_inv sched start t0 st ->
  cheapest_route_inv sched start t0
    (Cheapest.relax start cabin cost arr airport st f) /\
  Cheapest.dist (Cheapest.relax start cabin cost arr airport st f) !! airport
  = Some tu.
Proof.
  intros Hv Hs Ho Hc Hd Htu Hr [Hinv Hreach Hfirst].
  destruct (cheapest_relax_inv _ start cabin _ arr _ _ _ _ Hv Hs Ho Hc Hd Htu Hinv)
    as [Hinv' Hd'].
  split; [|done]. split; [done|..];
    destruct (cheapest_relax_cases start cabin cost arr airport st f)
      as [[-> _]|(Hthr & Hlt & ->)]; try done; simpl.
  - assert (Hne : dest f <> start).
    { intros E. pose proof (price_nonneg f cabin Hv).
      rewrite E in Hlt. specialize (Hlt 0 (ci_start_dist _ _ _ Hinv)). lia. }
    intros c t x [[= -> -> ->]|Hin]%elem_of_cons; [|by eapply Hreach].
    by eapply reached_extend.
  - intros x f'. destruct (decide (dest f = x)) as [<-|Hne].
    + rewrite lookup_insert_eq. intros [= <-] Hst.
      destruct Hr as [[_ ->]|[Hne _]]; [|congruence].
      unfold threshold in Hthr. rewrite decide_True in Hthr by congruence. done.
    + rewrite lookup_insert_ne by done. apply Hfirst.
Qed.

Lemma cheapest_fold_route sched start t0 cabin cost arr airport tu todo : forall st,
  Forall (fun f => valid_fares f /\ f ∈ sched /\ origin f = airport) todo ->
  0 <= cost -> Cheapest.dist st !! airport = Some tu -> tu <= cost ->
  reached sched start t0 airport arr ->
  cheapest_route_inv sched start t0 st ->
  cheapest_route_inv sched start t0
    (fold_left (Cheapest.relax start cabin cost arr airport) todo st).
Proof.
  induction todo as [|f todo IH]; intros st Hall Hc Hd Htu Hr Hinv; simpl; [done|].
  apply Forall_cons in Hall as [(Hv & Hs & Ho) Hall].
  destruct (cheapest_relax_route _ start t0 cabin _ arr _ _ _ _ Hv Hs Ho Hc Hd Htu
              Hr Hinv).
  by apply IH.
Qed.

Lemma cheapest_init_route sched start t0 :
  cheapest_route_inv sched start t0 (Cheapest.init start t0).
Proof.
  split; simpl.
  - apply cheapest_init_inv.
  - intros c t x [= _ -> ->]%list_elem_of_singleton. by left.
  - intros x f. by rewrite lookup_empty.
Qed.

Lemma cheapest_step_route sched start dst t0 cabin st :
  Forall valid_fares sched -> cheapest_route_inv sched start t0 st ->
  match Cheapest.step (build_graph sched) start dst cabin st with
  | QueueEmpty => True
  | Stale st' | Expanded _ _ st' => cheapest_route_inv sched start t0 st'
  | AtDest k a st' =>
      cheapest_route_inv sched start t0 st' /\ a = dst /\
      reached sched start t0 dst k.2 /\
      (dst = start \/ is_Some (Cheapest.prev st' !! dst))
  end.
Proof.
  intros Hval [Hinv Hreach Hfirst]. unfold Cheapest.step.
  destruct (heappop Cheapest.entry_lt (Cheapest.pq st)) as [[[[c t] a] pq']|] eqn:Hpop;
    [|done].
  pose proof (heappop_perm _ _ _ _ Hpop) as Hperm.
  assert (Hsub : forall e, e ∈ pq' -> e ∈ Cheapest.pq st).
  { intros e He. rewrite Hperm. by right. }
  assert (Hpop_in : (c, t, a) ∈ Cheapest.pq st) by (rewrite Hperm; by left).
  assert (Hinv1 : forall V,
            cheapest_route_inv sched start t0
              (Cheapest.mkState (Cheapest.dist st) (Cheapest.prev st) pq' V)).
  { intros V. split; simpl; [|by intros c' t' x ?; eapply Hreach, Hsub|done].
    destruct Hinv as [H1 H2 H3 H4 H5 H6]. split; simpl; try done.
    intros c' t' x Hk. apply (H5 c' t' x). by apply Hsub. }
  destruct (ci_pq _ _ _ Hinv c t a Hpop_in) as (Hc & tu & Htu & Hle).
  repeat case_decide; simpl; try done.
  - subst a. split; [apply Hinv1|]. split; [done|].
    split; [by apply (Hreach c)|].
    destruct (ci_labelled _ _ _ Hinv dst tu Htu); auto.
  - eapply cheapest_fold_route; try done.
    + rewrite graph_get_build. apply Forall_forall.
      intros f [Ho Hf]%list_elem_of_filter. split; [|done].
      rewrite Forall_forall in Hval. by apply Hval.
    + by apply (Hreach c).
Qed.

(** The state in which a run that returns an itinerary finalized [dst]. *)
Lemma cheapest_loop_found_state sched start dst t0 cabin :
  Forall valid_fares sched ->
  forall n m st it,
    cheapest_route_inv sched start t0 st ->
    Cheapest.loop n m (build_graph sched) start dst cabin st = Found it ->
    exists st' t,
      cheapest_route_inv sched start t0 st' /\ reached sched start t0 dst t /\
      (dst = start \/ is_Some (Cheapest.prev st' !! dst)) /\
      chain (Cheapest.prev st') dst (flights it).
Proof.
  intros Hval. induction n as [|n IH]; intros m st it Hinv; [done|]. simpl.
  pose proof (cheapest_step_route sched start dst t0 cabin st Hval Hinv) as Hs.
  destruct (Cheapest.step (build_graph sched) start dst cabin st)
    as [|st1|k a st1|k a st1]; try done.
  - by apply IH.
  - destruct Hs as (Hinv1 & -> & Hr & Hp).
    destruct (reconstruct_itinerary m (Cheapest.prev st1) dst) as [it'|] eqn:E;
      [|done].
    intros [= <-]. apply reconstruct_itinerary_inv in E as [Hc _].
    by exists st1, k.2.
  - by apply IH.
Qed.

Lemma cheapest_run_total sched start dst t0 cabin :
  Forall valid_fares sched ->
  exists r,
    returns (fun n => find_cheapest_itinerary n (build_graph sched) start dst t0 cabin)
            r.
Proof.
  intros Hf. set (N := S (S (length sched))).
  destruct (cheapest_loop_total sched start dst cabin Hf N
              (Cheapest.init start t0) 0) as [m Hc].
  { apply cheapest_init_inv. }
  { simpl. by intros e ->%list_elem_of_singleton. }
  { pose proof (cheapest_measure_init sched cabin start t0). unfold N. lia. }
  exists (Cheapest.loop N m (build_graph sched) start dst cabin
            (Cheapest.init start t0)).
  split; [done|]. exists (N `max` m)%nat. unfold find_cheapest_itinerary.
  apply (cheapest_loop_mono _ start dst cabin N m); [done|done|lia|lia].
Qed.

(** X16: over a schedule with non-negative fares and for [start <> dst], an
    itinerary returned by the cheapest-fare search is made of flights of the
    schedule, starts at [start], ends at [dst], connects leg to leg, and its
    first leg leaves at or after the requested time. *)
Theorem cheapest_returns_route (sched : list Flight) (start dst : string)
    (t0 : Z) (cabin : Cabin) (it : Itinerary) :
  Forall valid_fares sched -> start <> dst ->
  returns (fun n => find_cheapest_itinerary n (build_graph sched) start dst t0 cabin)
          (Found it) ->
  it_origin it = Some start /\ it_dest it = Some dst /\
  (exists d, depart_time it = Some d /\ t0 <= d) /\
  connected (flights it) /\
  (forall f, f ∈ flights it -> f ∈ sched).
Proof.
  intros Hval Hsd [_ [n Hn]].
  destruct (cheapest_loop_found_state sched start dst t0 cabin Hval n n _ it
              (cheapest_init_route sched start t0) Hn)
    as (st & t & [Hinv Hreach Hfirst] & _ & [?|[fd Hfd]] & Hc); [done|].
  assert (Hkey : forall y f, Cheapest.prev st !! y = Some f -> dest f = y).
  { intros y f Hy. by destruct (ci_prev _ _ _ Hinv y f Hy) as (_ & ? & _). }
  destruct (chain_connected _ _ _ Hkey Hc) as [Hconn Hlast].
  destruct (cheapest_inv_chains_wf _ _ _ Hinv) as [_ Hwf].
  destruct (Hwf dst) as (p & Hp & _ & Hhead & _).
  rewrite (chain_det _ _ _ _ Hp Hc) in Hhead.
  assert (Hsched : forall f, f ∈ flights it -> f ∈ sched).
  { intros f Hf. destruct (chain_member _ _ _ _ Hc Hf) as [y Hy].
    by destruct (ci_prev _ _ _ Hinv y f Hy). }
  assert (Hne : flights it <> []).
  { intros E. rewrite E in Hc. apply chain_nil_inv in Hc. congruence. }
  assert (exists f0, head (flights it) = Some f0) as [f0 Hh].
  { destruct (flights it); [done|by eexists]. }
  assert (exists g, last (flights it) = Some g) as [g Hg].
  { destruct (last (flights it)) eqn:El; [by eexists|]. by apply last_None in El. }
  assert (Hin0 : f0 ∈ flights it).
  { destruct (flights it); [done|]. injection Hh as ->. by left. }
  destruct (chain_member _ _ _ _ Hc Hin0) as [y Hy].
  unfold it_origin, it_dest, depart_time. rewrite Hh, Hg. simpl.
  pose proof (Hhead f0 Hh) as Ho. destruct (Hlast g Hg) as [Hdg _].
  split; [by rewrite Ho|]. split; [by rewrite Hdg|]. split; [|done].
  exists (depart f0). split; [done|]. by eapply Hfirst.
Qed.

Lemma sched_ex_valid_fares : Forall valid_fares sched_ex.
Proof. apply valid_flight_fares, sched_ex_valid. Qed.

Lemma cheapest_returns_route_witness :
  it_origin (mkItinerary [fAB2; fBC]) = Some "A" /\
  it_dest (mkItinerary [fAB2; fBC]) = Some "C" /\
  (exists d, depart_time (mkItinerary [fAB2; fBC]) = Some d /\ 420 <= d) /\
  connected (flights (mkItinerary [fAB2; fBC])) /\
  (forall f, f ∈ flights (mkItinerary [fAB2; fBC]) -> f ∈ sched_ex).
Proof.
  apply (cheapest_returns_route sched_ex "A" "C" 420 Economy
           (mkItinerary [fAB2; fBC])).
  - apply sched_ex_valid_fares.
  - discriminate.
  - split; [discriminate|]. exists 5%nat. vm_compute. reflexivity.
Defined.

(** X17: over a schedule of valid flights and for [start <> dst], the
    cheapest-fare search returns an itinerary only when a feasible itinerary
    exists, and then the earliest-arrival search returns one as well. *)
Theorem cheapest_found_only_when_feasible (sched : list Flight)
    (start dst : string) (t0 : Z) (cabin : Cabin) (it : Itinerary) :
  Forall valid_flight sched -> start <> dst ->
  returns (fun n => find_cheapest_itinerary n (build_graph sched) start dst t0 cabin)
          (Found it) ->
  (exists p, feasible sched start dst t0 p) /\
  exists it',
    returns (fun n => find_earliest_itinerary n (build_graph sched) start dst t0)
            (Found it').
Proof.
  intros Hval Hsd [_ [n Hn]].
  pose proof (valid_flight_times _ Hval) as Ht.
  pose proof (valid_flight_fares _ Hval) as Hf.
  destruct (cheapest_loop_found_state sched start dst t0 cabin Hf n n _ it
              (cheapest_init_route sched start t0) Hn)
    as (st & t & _ & [[? _]|(_ & p & g & Hp & _)] & _); [done|].
  split; [by exists p|].
  destruct (earliest_run_spec sched start dst t0 Ht Hsd) as (r & Hr & Hspec).
  destruct r as [| |it']; [done|by destruct (Hspec p)|by exists it'].
Qed.

Lemma cheapest_found_only_when_feasible_witness :
  (exists p, feasible sched_ex "A" "C" 420 p) /\
  exists it',
    returns (fun n => find_earliest_itinerary n (build_graph sched_ex) "A" "C" 420)
            (Found it').
Proof.
  apply (cheapest_found_only_when_feasible sched_ex "A" "C" 420 Economy
           (mkItinerary [fAB2; fBC])).
  - apply sched_ex_valid.
  - discriminate.
  - split; [discriminate|]. exists 5%nat. vm_compute. reflexivity.
Defined.

(** X18: over a schedule with non-negative fares and for [start <> dst],
    when no feasible itinerary exists the cheapest-fare search terminates
    and returns no result. *)
Theorem cheapest_none_when_infeasible (sched : list Flight)
    (start dst : string) (t0 : Z) (cabin : Cabin) :
  Forall valid_fares sched -> start <> dst ->
  (forall p, ~ feasible sched start dst t0 p) ->
  returns (fun n => find_cheapest_itinerary n (build_graph sched) start dst t0 cabin)
          NoItinerary.
Proof.
  intros Hf Hsd Hno.
  destruct (cheapest_run_total sched start dst t0 cabin Hf) as [r Hr].
  destruct r as [| |it]; [by destruct Hr|done|]. exfalso.
  destruct Hr as [_ [n Hn]].
  destruct (cheapest_loop_found_state sched start dst t0 cabin Hf n n _ it
              (cheapest_init_route sched start t0) Hn)
    as (st & t & _ & [[? _]|(_ & p & g & Hp & _)] & _); [done|].
  by apply (Hno p).
Qed.

Lemma cheapest_none_when_infeasible_witness :
  returns (fun n => find_cheapest_itinerary n (build_graph sched_ex) "B" "A" 420
                      Economy)
          NoItinerary.
Proof.
  apply (cheapest_none_when_infeasible sched_ex "B" "A" 420 Economy).
  - apply sched_ex_valid_fares.
  - discriminate.
  - intros p [Hs _ _ (f & Hl & Hd)].
    assert (Hin : f ∈ sched_ex).
    { apply Hs. apply last_Some in Hl as [l' ->]. apply elem_of_app. right.
      apply list_elem_of_here. }
    unfold sched_ex in Hin. rewrite !elem_of_cons in Hin.
    destruct Hin as [->|[->|[->|Hin]]]; [discriminate Hd..|].
    by apply elem_of_nil in Hin.
Defined.

(** ** Times of an earliest-arrival itinerary *)

Lemma legs_ok_first_before_last sched a thr f p g :
  Forall valid_times sched -> legs_ok sched a thr (f :: p) ->
  last (f :: p) = Some g -> depart f < arrive g.
Proof.
  intros Hval (Hs & _ & _ & Hlegs) Hl.
  assert (Hvf : valid_times f) by (rewrite Forall_forall in Hval; by apply Hval).
  unfold valid_times in Hvf.
  destruct p as [|f' p'].
  - injection Hl as <-. done.
  - rewrite last_cons in Hl.
    destruct (last (f' :: p')) as [g'|] eqn:El; [|by apply last_None in El].
    injection Hl as ->.
    pose proof (legs_ok_last_depart _ _ _ _ _ Hval Hlegs El) as Hd.
    assert (Hvg : valid_times g).
    { rewrite Forall_forall in Hval. apply Hval.
      eapply legs_ok_sched; [exact Hlegs|].
      apply last_Some in El as [l' ->]. apply elem_of_app. right.
      apply list_elem_of_here. }
    unfold valid_times in Hvg. unfold MIN_LAYOVER_MINUTES in Hd. lia.
Qed.

(** X19: over a schedule of flights that arrive after they depart and for
    [start <> dst], an itinerary returned by the earliest-arrival search has
    origin [start] and destination [dst], departs at or after the requested
    time, arrives after it departs, and has fewer stops than the schedule has
    flights. *)
Theorem earliest_itinerary_times (sched : list Flight) (start dst : string)
    (t0 : Z) (it : Itinerary) :
  Forall valid_times sched -> start <> dst ->
  returns (fun n => find_earliest_itinerary n (build_graph sched) start dst t0)
          (Found it) ->
  it_origin it = Some start /\ it_dest it = Some dst /\
  (exists d a, depart_time it = Some d /\ arrive_time it = Some a /\
               t0 <= d /\ d < a) /\
  0 <= num_stops it < Z.of_nat (length sched).
Proof.
  intros Hval Hsd Hret.
  pose proof (earliest_found_feasible _ _ _ _ _ Hval Hsd Hret) as Hf.
  destruct (feasible_legs_ok _ _ _ _ _ Hf) as (Hne & Hlegs & Hend).
  pose proof (legs_ok_length _ _ _ _ Hval Hlegs) as Hlen.
  destruct (feas_last _ _ _ _ _ Hf) as (g & Hg & Hdg).
  unfold it_origin, it_dest, depart_time, arrive_time, num_stops.
  destruct (flights it) as [|f p] eqn:Efl; [done|].
  destruct (feas_first _ _ _ _ _ Hf f eq_refl) as [Ho Ht].
  pose proof (legs_ok_first_before_last _ _ _ _ _ _ Hval Hlegs Hg) as Hlt.
  rewrite Hg. simpl head. simpl.
  split; [by rewrite Ho|]. split; [by rewrite Hdg|]. split.
  - by exists (depart f), (arrive g).
  - simpl in Hlen. lia.
Qed.

Lemma earliest_itinerary_times_witness :
  it_origin (mkItinerary [fAB1; fBC]) = Some "A" /\
  it_dest (mkItinerary [fAB1; fBC]) = Some "C" /\
  (exists d a, depart_time (mkItinerary [fAB1; fBC]) = Some d /\
               arrive_time (mkItinerary [fAB1; fBC]) = Some a /\
               420 <= d /\ d < a) /\
  0 <= num_stops (mkItinerary [fAB1; fBC]) < Z.of_nat (length sched_ex).
Proof.
  apply (earliest_itinerary_times sched_ex "A" "C" 420 (mkItinerary [fAB1; fBC])).
  - apply sched_ex_valid_times.
  - discriminate.
  - split; [discriminate|]. exists 5%nat. vm_compute. reflexivity.
Defined.


(** ** The order in which airports are finalized *)

Lemma earliest_fold_pq_ge start cur a todo : forall st,
  Forall valid_times todo ->
  (forall e, e ∈ Earliest.pq st -> cur <= e.1) ->
  forall e, e ∈ Earliest.pq (fold_left (Earliest.relax start cur a) todo st)
            -> cur <= e.1.
Proof.
  induction todo as [|f todo IH]; intros st Hall Hge; simpl; [done|].
  apply Forall_cons in Hall as [Hf Hall]. apply IH; [done|].
  destruct (earliest_relax_cases start cur a st f)
    as [[-> _]|(Hthr & _ & ->)]; [done|].
  simpl. intros e [->|He]%elem_of_cons; [|by apply Hge].
  simpl. pose proof (threshold_ge start a cur). unfold valid_times in Hf. lia.
Qed.

Lemma earliest_steps_sorted sched start dst : Forall valid_times sched ->
  forall n st L,
    (forall e, e ∈ Earliest.pq st -> L <= e.1) ->
    let l := (finalized (Earliest.steps n (build_graph sched) start dst st)).*2 in
    Forall (Z.le L) l /\ StronglySorted Z.le l.
Proof.
  intros Hval. induction n as [|n IH]; intros st L Hge; simpl.
  { split; constructor. }
  unfold Earliest.step.
  destruct (heappop Earliest.entry_lt (Earliest.pq st)) as [[[k a] pq']|] eqn:Hpop;
    [|split; constructor].
  pose proof (heappop_perm _ _ _ _ Hpop) as Hperm.
  pose proof (heappop_least _ fst earliest_entry_lt_key earliest_entry_nlt_key
                _ _ _ Hpop) as Hleast. simpl in Hleast.
  assert (Hsub : forall e, e ∈ pq' -> e ∈ Earliest.pq st).
  { intros e He. rewrite Hperm. by right. }
  assert (HL : L <= k).
  { apply (Hge (k, a)). rewrite Hperm. by left. }
  repeat case_decide; simpl.
  - apply IH. simpl. intros e He. by apply Hge, Hsub.
  - split; [by repeat constructor|]. repeat constructor.
  - destruct (IH (fold_left (Earliest.relax start k a)
                    (graph_get (build_graph sched) a)
                    (Earliest.mkState (Earliest.dist st) (Earliest.prev st) pq'
                       ({[a]} ∪ Earliest.visited st))) k) as [Hall Hsorted].
    { apply earliest_fold_pq_ge.
      - rewrite graph_get_build. apply Forall_forall.
        intros f [_ Hf]%list_elem_of_filter.
        rewrite Forall_forall in Hval. by apply Hval.
      - simpl. intros e He. by apply Hleast, Hsub. }
    split.
    + constructor; [done|]. eapply Forall_impl; [exact Hall|]. simpl. lia.
    + by constructor.
Qed.

Lemma cheapest_steps_sorted sched start dst cabin : Forall valid_fares sched ->
  forall n st L,
    (forall e, e ∈ Cheapest.pq st -> L <= e.1.1) ->
    let l := (fun e : string * (Z * Z) => e.2.1)
               <$> finalized (Cheapest.steps n (build_graph sched) start dst cabin st) in
    Forall (Z.le L) l /\ StronglySorted Z.le l.
Proof.
  intros Hval. induction n as [|n IH]; intros st L Hge; simpl.
  { split; constructor. }
  unfold Cheapest.step.
  destruct (heappop Cheapest.entry_lt (Cheapest.pq st)) as [[[[c t] a] pq']|] eqn:Hpop;
    [|split; constructor].
  pose proof (heappop_perm _ _ _ _ Hpop) as Hperm.
  pose proof (heappop_least _ (fun e => e.1.1) cheapest_entry_lt_key
                cheapest_entry_nlt_key _ _ _ Hpop) as Hleast. simpl in Hleast.
  assert (Hsub : forall e, e ∈ pq' -> e ∈ Cheapest.pq st).
  { intros e He. rewrite Hperm. by right. }
  assert (HL : L <= c).
  { apply (Hge (c, t, a)). rewrite Hperm. by left. }
  repeat case_decide; simpl.
  - apply IH. simpl. intros e He. by apply Hge, Hsub.
  - split; [by repeat constructor|]. repeat constructor.
  - destruct (IH (fold_left (Cheapest.relax start cabin c t a)
                    (graph_get (build_graph sched) a)
                    (Cheapest.mkState (Cheapest.dist st) (Cheapest.prev st) pq'
                       ({[(a, c)]} ∪ Cheapest.visited st))) c) as [Hall Hsorted].
    { apply cheapest_fold_pq_ge.
      - rewrite graph_get_build. apply Forall_forall.
        intros f [_ Hf]%list_elem_of_filter.
        rewrite Forall_forall in Hval. by apply Hval.
      - simpl. intros e He. by apply Hleast, Hsub. }
    split.
    + constructor; [done|]. eapply Forall_impl; [exact Hall|]. simpl. lia.
    + by constructor.
Qed.

(** X20: over a schedule of valid flights both searches finalize airports in
    the order of their keys: the arrival times at which the earliest-arrival
    search finalizes, and the fares at which the cheapest-fare search
    finalizes, never decrease from one loop turn to a later one. *)
Theorem searches_finalize_in_key_order (sched : list Flight) (start dst : string)
    (t0 : Z) (cabin : Cabin) (n : nat) :
  Forall valid_flight sched ->
  StronglySorted Z.le
    (finalized (Earliest.steps n (build_graph sched) start dst
                  (Earliest.init start t0))).*2 /\
  StronglySorted Z.le
    ((fun e : string * (Z * Z) => e.2.1)
       <$> finalized (Cheapest.steps n (build_graph sched) start dst cabin
                        (Cheapest.init start t0))).
Proof.
  intros Hval. split.
  - apply (earliest_steps_sorted sched start dst (valid_flight_times _ Hval) n
             (Earliest.init start t0) t0).
    simpl. by intros e ->%list_elem_of_singleton.
  - apply (cheapest_steps_sorted sched start dst cabin (valid_flight_fares _ Hval) n
             (Cheapest.init start t0) 0).
    simpl. by intros e ->%list_elem_of_singleton.
Qed.

Lemma searches_finalize_in_key_order_witness :
  StronglySorted Z.le
    (finalized (Earliest.steps 5 (build_graph sched_ex) "A" "C"
                  (Earliest.init "A" 420))).*2 /\
  StronglySorted Z.le
    ((fun e : string * (Z * Z) => e.2.1)
       <$> finalized (Cheapest.steps 5 (build_graph sched_ex) "A" "C" Economy
                        (Cheapest.init "A" 420))).
Proof.
  apply (searches_finalize_in_key_order sched_ex "A" "C" 420 Economy 5).
  apply sched_ex_valid.
Defined.

(** ** The report and the compare command *)








Lemma earliest_run_total sched start dst t0 :
  Forall valid_times sched ->
  exists r,
    returns (fun n => find_earliest_itinerary n (build_graph sched) start dst t0) r.
Proof.
  intros Hval. set (N := S (S (length sched))).
  exists (find_earliest_itinerary N (build_graph sched) start dst t0).
  split; [|by eexists].
  apply (earliest_loop_total sched start dst t0 Hval).
  - apply earliest_init_inv.
  - simpl. set_solver.
  - pose proof (earliest_measure_init sched start t0). unfold N. lia.
  - unfold N. lia.
Qed.




(** ** Searches over a loaded schedule *)

(** X23: on a schedule returned by either loader the earliest-arrival search
    terminates for every query, without a further condition on the flights;
    for [start <> dst] a returned itinerary is feasible and no result means
    that no feasible itinerary exists. *)
Theorem loaded_schedule_search_terminates (int_msg : string -> string)
    (unpack_msg : nat -> string) (fl : list Flight) (start dst : string) (t0 : Z) :
  (exists path lines, load_flights_txt int_msg unpack_msg path lines = inr fl) \/
  (exists names rows, load_flights_csv int_msg unpack_msg names rows = inr fl) ->
  exists r,
    returns (fun n => find_earliest_itinerary n (build_graph fl) start dst t0) r /\
    (start <> dst ->
     match r with
     | OutOfFuel => False
     | NoItinerary => forall p, ~ feasible fl start dst t0 p
     | Found it => feasible fl start dst t0 (flights it)
     end).
Proof.
  intros Hl.
  assert (Hval : Forall valid_times fl).
  { eapply Forall_impl; [by apply (loaded_flights_times int_msg unpack_msg)|].
    intros f (_ & ? & _). done. }
  destruct (decide (start = dst)) as [->|Hsd].
  - destruct (earliest_run_total fl dst dst t0 Hval) as [r Hr]. by exists r.
  - destruct (earliest_run_spec fl start dst t0 Hval Hsd) as (r & Hr & Hspec).
    exists r. split; [done|]. intros _. destruct r; [done|done|apply Hspec].
Qed.

Lemma loaded_schedule_search_terminates_witness :
  exists r,
    returns (fun n => find_earliest_itinerary n (build_graph [fAB1]) "A" "B" 420) r /\
    ("A" <> "B" ->
     match r with
     | OutOfFuel => False
     | NoItinerary => forall p, ~ feasible [fAB1] "A" "B" 420 p
     | Found it => feasible [fAB1] "A" "B" 420 (flights it)
     end).
Proof.
  apply (loaded_schedule_search_terminates (fun _ => "") (fun _ => "") [fAB1]
           "A" "B" 420).
  left. exists "sched.txt", [line_ok]. vm_compute. reflexivity.
Defined.

(** ** Airports without entry in the route graph *)

Lemma cheapest_relax_pending start cabin cost arr a st f x :
  (is_Some (Cheapest.dist st !! x) -> exists c t, (c, t, x) ∈ Cheapest.pq st) ->
  is_Some (Cheapest.dist (Cheapest.relax start cabin cost arr a st f) !! x) ->
  exists c t, (c, t, x) ∈ Cheapest.pq (Cheapest.relax start cabin cost arr a st f).
Proof.
  intros Hq.
  destruct (cheapest_relax_cases start cabin cost arr a st f)
    as [[-> _]|(_ & _ & ->)]; [done|]. simpl.
  destruct (decide (dest f = x)) as [<-|Hne].
  - intros _. exists (cost + price f cabin), (arrive f). by left.
  - rewrite lookup_insert_ne by done. intros Hx.
    destruct (Hq Hx) as (c & t & Hin). exists c, t. by right.
Qed.

Lemma cheapest_relax_labels start cabin cost arr a st f x :
  is_Some (Cheapest.dist st !! x) \/ (x = dest f /\ threshold start a arr <= depart f) ->
  is_Some (Cheapest.dist (Cheapest.relax start cabin cost arr a st f) !! x).
Proof.
  intros Hx.
  destruct (cheapest_relax_cases start cabin cost arr a st f)
    as [[-> [Hn|(d & Hd & _)]]|(_ & _ & ->)].
  - destruct Hx as [?|[_ ?]]; done.
  - destruct Hx as [?|[-> _]]; [done|]. by rewrite Hd.
  - simpl. rewrite lookup_insert_is_Some.
    destruct (decide (dest f = x)); [auto|]. right. split; [done|].
    destruct Hx as [?|[-> _]]; done.
Qed.

Lemma cheapest_fold_pending start cabin cost arr a x todo : forall st,
  (is_Some (Cheapest.dist st !! x) -> exists c t, (c, t, x) ∈ Cheapest.pq st) ->
  is_Some (Cheapest.dist st !! x) \/
  (exists f, f ∈ todo /\ x = dest f /\ threshold start a arr <= depart f) ->
  exists c t,
    (c, t, x) ∈ Cheapest.pq (fold_left (Cheapest.relax start cabin cost arr a) todo st).
Proof.
  induction todo as [|f todo IH]; intros st Hq Hx; simpl.
  - destruct Hx as [Hx|(f & Hf & _)]; [by apply Hq|by apply elem_of_nil in Hf].
  - apply IH; [by apply cheapest_relax_pending|].
    destruct Hx as [Hx|(f' & [->|Hf']%elem_of_cons & Hd & Ht)].
    + left. apply cheapest_relax_labels. by left.
    + left. apply cheapest_relax_labels. by right.
    + right. by exists f'.
Qed.

Lemma cheapest_fold_pq_mono start cabin cost arr a todo : forall st e,
  e ∈ Cheapest.pq st ->
  e ∈ Cheapest.pq (fold_left (Cheapest.relax start cabin cost arr a) todo st).
Proof.
  induction todo as [|f todo IH]; intros st e He; simpl; [done|].
  apply IH.
  destruct (cheapest_relax_cases start cabin cost arr a st f)
    as [[-> _]|(_ & _ & ->)]; [done|]. simpl. by right.
Qed.

(** While an entry for [dst] waits in the queue the loop cannot end with the
    queue exhausted. *)
Lemma cheapest_loop_pending sched start dst cabin :
  Forall valid_fares sched ->
  forall n m st,
    cheapest_inv sched start st -> cheapest_fresh st ->
    (exists c t, (c, t, dst) ∈ Cheapest.pq st) ->
    Cheapest.loop n m (build_graph sched) start dst cabin st <> NoItinerary.
Proof.
  intros Hval. induction n as [|n IH]; intros m st Hinv Hfresh (c0 & t0 & Hin);
    [done|]. simpl.
  pose proof (cheapest_step_inv sched start dst cabin st Hval Hinv) as Hsi.
  pose proof (cheapest_step_fresh (build_graph sched) start dst cabin st Hfresh)
    as Hsf.
  unfold Cheapest.step in *.
  destruct (heappop Cheapest.entry_lt (Cheapest.pq st)) as [[[[c t] a] pq']|] eqn:Hpop.
  - pose proof (heappop_perm _ _ _ _ Hpop) as Hperm.
    case_decide as Hv; [done|]. case_decide as Ha.
    + by destruct (reconstruct_itinerary m _ dst).
    + apply IH; [by apply Hsi|done|].
      exists c0, t0. apply cheapest_fold_pq_mono. simpl.
      rewrite Hperm in Hin. apply elem_of_cons in Hin as [[= _ _ ?]|?]; [|done].
      congruence.
  - apply heappop_none in Hpop. rewrite Hpop in Hin. by apply elem_of_nil in Hin.
Qed.

(** A direct flight that can be boarded makes the cheapest-fare search return
    an itinerary, whatever else the search reaches before. *)
Lemma cheapest_direct_flight sched start dst t0 cabin f :
  Forall valid_fares sched -> start <> dst ->
  f ∈ sched -> origin f = start -> dest f = dst -> t0 <= depart f ->
  exists it,
    returns (fun n => find_cheapest_itinerary n (build_graph sched) start dst t0 cabin)
            (Found it).
Proof.
  intros Hval Hsd Hf Ho Hd Ht.
  destruct (cheapest_run_total sched start dst t0 cabin Hval) as [r [Hne [n Hn]]].
  destruct r as [| |it]; [done| |exists it; split; [done|by exists n]].
  exfalso. destruct n as [|n]; [done|].
  unfold find_cheapest_itinerary in Hn. simpl in Hn.
  pose proof (cheapest_step_inv sched start dst cabin (Cheapest.init start t0) Hval
                (cheapest_init_inv sched start t0)) as Hsi.
  pose proof (cheapest_step_fresh (build_graph sched) start dst cabin
                (Cheapest.init start t0) (cheapest_fresh_init start t0)) as Hsf.
  unfold Cheapest.step in *. simpl in *.
  rewrite (decide_False (P := (start, 0) ∈ ∅)) in * by set_solver.
  rewrite (decide_False (P := start = dst)) in * by done.
  revert Hn. apply cheapest_loop_pending; [done|by apply Hsi|done|].
  apply cheapest_fold_pending; simpl.
  - rewrite lookup_singleton_ne by done. by intros [? ?].
  - right. exists f. split; [|split; [done|]].
    + rewrite graph_get_build. by apply list_elem_of_filter.
    + unfold threshold. by rewrite decide_True.
Qed.

Lemma earliest_direct_flight sched start dst t0 f :
  Forall valid_times sched -> start <> dst ->
  f ∈ sched -> origin f = start -> dest f = dst -> t0 <= depart f ->
  exists it,
    returns (fun n => find_earliest_itinerary n (build_graph sched) start dst t0)
            (Found it).
Proof.
  intros Hval Hsd Hf Ho Hd Ht.
  destruct (earliest_beats_feasible sched start dst t0 [f] f Hval Hsd)
    as (it & g & Hr & _); [|done|by exists it].
  apply legs_ok_feasible; [done| |by unfold end_airport].
  simpl. by repeat split.
Qed.

(** The loop turn that pops an airport without entry. *)
Lemma earliest_step_no_entry g start dst st k a pq' :
  g !! a = None -> a <> dst -> a ∉ Earliest.visited st ->
  heappop Earliest.entry_lt (Earliest.pq st) = Some ((k, a), pq') ->
  Earliest.step g start dst st =
  Expanded k a (Earliest.mkState (Earliest.dist st) (Earliest.prev st) pq'
                  ({[a]} ∪ Earliest.visited st)).
Proof.
  intros Hg Hd Hv Hpop. unfold Earliest.step. rewrite Hpop.
  rewrite decide_False by done. rewrite decide_False by done.
  unfold graph_get. by rewrite Hg.
Qed.

Lemma cheapest_step_no_entry g start dst cabin st c t a pq' :
  g !! a = None -> a <> dst -> (a, c) ∉ Cheapest.visited st ->
  heappop Cheapest.entry_lt (Cheapest.pq st) = Some ((c, t, a), pq') ->
  Cheapest.step g start dst cabin st =
  Expanded (c, t) a (Cheapest.mkState (Cheapest.dist st) (Cheapest.prev st) pq'
                       ({[(a, c)]} ∪ Cheapest.visited st)).
Proof.
  intros Hg Hd Hv Hpop. unfold Cheapest.step. rewrite Hpop.
  rewrite decide_False by done. rewrite decide_False by done.
  unfold graph_get. by rewrite Hg.
Qed.

(** C6: [build_graph] maps an airport code to the flights whose origin is
    exactly that code, in input order; an airport without outbound flights has
    no entry and its lookup is the empty list.  Both searches started there
    run to their end and find nothing; the loop turn that pops such an
    airport relaxes nothing, changes no label and no predecessor, and the
    search goes on with the rest of the queue; and a direct flight from the
    start to the destination still makes both searches return an itinerary,
    whatever airports without entry are reached before. *)
Theorem build_graph_groups_by_origin (fl : list Flight) (a : string) :
  graph_get (build_graph fl) a = filter (fun f => origin f = a) fl /\
  (build_graph fl !! a = None <-> forall f, f ∈ fl -> origin f <> a) /\
  ((forall f, f ∈ fl -> origin f <> a) ->
   graph_get (build_graph fl) a = [] /\
   (forall dst t0 cabin, a <> dst ->
      returns (fun n => find_earliest_itinerary n (build_graph fl) a dst t0)
              NoItinerary /\
      returns (fun n => find_cheapest_itinerary n (build_graph fl) a dst t0 cabin)
              NoItinerary) /\
   (forall start dst st k pq',
      a <> dst -> a ∉ Earliest.visited st ->
      heappop Earliest.entry_lt (Earliest.pq st) = Some ((k, a), pq') ->
      let st' := Earliest.mkState (Earliest.dist st) (Earliest.prev st) pq'
                   ({[a]} ∪ Earliest.visited st) in
      Earliest.step (build_graph fl) start dst st = Expanded k a st' /\
      forall n m, Earliest.loop (S n) m (build_graph fl) start dst st
                  = Earliest.loop n m (build_graph fl) start dst st') /\
   (forall start dst cabin st c t pq',
      a <> dst -> (a, c) ∉ Cheapest.visited st ->
      heappop Cheapest.entry_lt (Cheapest.pq st) = Some ((c, t, a), pq') ->
      let st' := Cheapest.mkState (Cheapest.dist st) (Cheapest.prev st) pq'
                   ({[(a, c)]} ∪ Cheapest.visited st) in
      Cheapest.step (build_graph fl) start dst cabin st = Expanded (c, t) a st' /\
      forall n m, Cheapest.loop (S n) m (build_graph fl) start dst cabin st
                  = Cheapest.loop n m (build_graph fl) start dst cabin st') /\
   (forall start dst t0 cabin f,
      start <> dst -> f ∈ fl -> origin f = start -> dest f = dst ->
      t0 <= depart f ->
      (Forall valid_times fl ->
       exists it,
         returns (fun n => find_earliest_itinerary n (build_graph fl) start dst t0)
                 (Found it)) /\
      (Forall valid_fares fl ->
       exists it,
         returns (fun n => find_cheapest_itinerary n (build_graph fl) start dst t0
                             cabin)
                 (Found it)))).
Proof.
  assert (Hnil : (forall f, f ∈ fl -> origin f <> a) ->
                 filter (fun f => origin f = a) fl = []).
  { intros Hno. apply elem_of_nil_inv. intros f [Ho Hf]%list_elem_of_filter.
    by apply (Hno f). }
  assert (Hnone : build_graph fl !! a = None <-> forall f, f ∈ fl -> origin f <> a).
  { rewrite build_graph_lookup. case_decide as E.
    - split; [|done]. intros _ f Hf Ho.
      assert (f ∈ filter (fun f => origin f = a) fl) as Hin
        by by apply list_elem_of_filter.
      rewrite E in Hin. by apply elem_of_nil in Hin.
    - split; [done|]. intros Hno. destruct E. by apply Hnil. }
  split; [apply graph_get_build|]. split; [done|].
  intros Hno.
  assert (Hg : graph_get (build_graph fl) a = []).
  { rewrite graph_get_build. by apply Hnil. }
  apply Hnone in Hno.
  split; [done|]. split; [|split; [|split]].
  - intros dst t0 cabin Hd. split.
    + split; [done|]. exists 2%nat. by apply earliest_no_outbound.
    + split; [done|]. exists 2%nat. by apply cheapest_no_outbound.
  - intros start dst st k pq' Hd Hv Hpop st'.
    pose proof (earliest_step_no_entry _ start dst st k a pq' Hno Hd Hv Hpop) as Hs.
    split; [done|]. intros n m. simpl. by rewrite Hs.
  - intros start dst cabin st c t pq' Hd Hv Hpop st'.
    pose proof (cheapest_step_no_entry _ start dst cabin st c t a pq' Hno Hd Hv Hpop)
      as Hs.
    split; [done|]. intros n m. simpl. by rewrite Hs.
  - intros start dst t0 cabin f Hsd Hf Ho Hdf Ht. split; intros Hval.
    + by apply (earliest_direct_flight fl start dst t0 f).
    + by apply (cheapest_direct_flight fl start dst t0 cabin f).
Qed.

(** Airport X has no entry and is finalized before the destination B: both
    searches relax nothing there, go on, and return the direct flight. *)
Lemma searches_pass_dead_end :
  build_graph sched_dead !! "X" = None /\
  finalized (Earliest.steps 3 (build_graph sched_dead) "A" "B" (Earliest.init "A" 420))
  = [("A", 420); ("X", 500); ("B", 540)] /\
  find_earliest_itinerary 3 (build_graph sched_dead) "A" "B" 420
  = Found (mkItinerary [fAB1]) /\
  finalized (Cheapest.steps 3 (build_graph sched_dead) "A" "B" Economy
               (Cheapest.init "A" 420))
  = [("A", (0, 420)); ("X", (20, 500)); ("B", (100, 540))] /\
  find_cheapest_itinerary 3 (build_graph sched_dead) "A" "B" 420 Economy
  = Found (mkItinerary [fAB1]).
Proof. repeat split; by vm_compute. Qed.

Lemma build_graph_groups_by_origin_witness :
  graph_get (build_graph sched_dead) "X" = [] /\
  (returns (fun n => find_earliest_itinerary n (build_graph sched_dead) "X" "B" 420)
           NoItinerary /\
   returns (fun n => find_cheapest_itinerary n (build_graph sched_dead) "X" "B" 420
                       Economy) NoItinerary) /\
  (exists it,
     returns (fun n => find_earliest_itinerary n (build_graph sched_dead) "A" "B" 420)
             (Found it)) /\
  (exists it,
     returns (fun n => find_cheapest_itinerary n (build_graph sched_dead) "A" "B" 420
                         Economy)
             (Found it)).
Proof.
  destruct (build_graph_groups_by_origin sched_dead "X") as (_ & _ & H).
  destruct H as (Hg & Hs & _ & _ & Hfound).
  - intros f Hf. unfold sched_dead in Hf.
    repeat (apply elem_of_cons in Hf as [->|Hf]; [discriminate|]).
    by apply elem_of_nil in Hf.
  - split; [exact Hg|]. split; [apply (Hs "B" 420 Economy); discriminate|].
    destruct (Hfound "A" "B" 420 Economy fAB1) as [He Hc];
      [discriminate|unfold sched_dead; set_solver|reflexivity|reflexivity|simpl; lia|].
    split.
    + apply He. unfold sched_dead, valid_times. repeat constructor; simpl; lia.
    + apply Hc. unfold sched_dead, valid_fares. repeat constructor; simpl; lia.
Defined.
